(** * ConsensusCore: pairwise alignment and POA graph traversals

    A shallow embedding of
      - [src/C++/Align/PairwiseAlignment.cpp]  (module [Align] below), and
      - [src/C++/Poa/PoaGraphTraversals.cpp]   (module [Poa] below),
    together with the properties of the specification that concern them.
    The file has three parts: the embedded code, the vocabulary the
    properties are stated in, and the proofs.

    Modelling conventions.
      - [std::string] is a list of characters; [s[i]] is [char_at s i].
      - Sizes, positions and loop counters ([size_t], and the [int]s that
        only count characters) are natural numbers.
      - Alignment scores and read counts are C++ [int]s: integers with the
        32-bit two's-complement wrap-around written out ([int_add],
        [int_sub], [int_mul]).
      - C++ [float]s are a carrier with the operations of class
        [Poa.FloatOps]; what is proved about them holds for every carrier
        whose [>] is a strict weak order, and the code is run on concrete
        graphs with scores counted in units of [0.0001].
      - A thrown C++ exception is the [Throw] case of [Result]; a returned
        [NULL] pointer is [None]; a vertex variable holding [null_vertex]
        is [None].
      - A [while] loop whose number of iterations is not bounded by the
        structure of its input takes a [fuel] argument; running out of
        fuel is [None].
      - The order in which a [boost::unordered_set] is enumerated is a
        parameter of the code that iterates over one; what is proved
        holds for every order.
      - [assert]s are compiled out (NDEBUG); the properties they state are
        proved where they matter.
      - Functions, macros and types that the two files use and that are
        declared elsewhere ([Max3], [ArgMax3], [Reverse],
        [ShouldNotReachHere], [addVertex], the Boost graph, the alignment
        columns) are modelled from the specification; each such definition
        says so. *)

From Stdlib Require Import ZArith List Ascii String Lia Bool Arith Relations.
From stdpp Require Import base list gmap sorting.
Import ListNotations.

Local Open Scope nat_scope.

(** ** Characters and strings *)

Abbreviation str := (list ascii).

Definition NUL : ascii := Ascii.zero.
Definition GAP : ascii := "-"%char.

Definition char_at (s : str) (i : nat) : ascii := nth i s NUL.

(** Exceptions of [ConsensusCore/Types.hpp] that the embedded code throws. *)
Inductive Exception : Type :=
  | InvalidInputError
  | UnsupportedFeatureError
  | InternalError.

Inductive Result (A : Type) : Type :=
  | Ok (a : A)
  | Throw (e : Exception).
Arguments Ok {A} a.
Arguments Throw {A} e.

Definition bindR {A B} (r : Result A) (k : A -> Result B) : Result B :=
  match r with
  | Ok a => k a
  | Throw e => Throw e
  end.

Notation "'letR' x ':=' r 'in' k" := (bindR r (fun x => k))
  (at level 10, x name, r at level 100, k at level 200).

(** Gap removal, the [strip_gaps] of the specification. *)
Definition strip_gaps (s : str) : str :=
  filter (fun c => c <> GAP) s.

Definition gap_free (s : str) : Prop := GAP ∉ s.

(** No column of the pair holds a gap in both rows. *)
Definition no_gap_gap (a q : str) : Prop :=
  forall i t c, a !! i = Some t -> q !! i = Some c -> ~ (t = GAP /\ c = GAP).

(** ** C++ [int] arithmetic *)

Definition int_wrap (z : Z) : Z := ((z + 2 ^ 31) mod 2 ^ 32 - 2 ^ 31)%Z.
Definition int_add (a b : Z) : Z := int_wrap (a + b).
Definition int_sub (a b : Z) : Z := int_wrap (a - b).
Definition int_mul (a b : Z) : Z := int_wrap (a * b).

Module Align.

(** ** The alignment object *)

Record PairwiseAlignment : Type := mkPairwiseAlignment {
  target_ : str;
  query_ : str;
  transcript_ : str
}.

Definition Target (a : PairwiseAlignment) : str := target_ a.
Definition Query (a : PairwiseAlignment) : str := query_ a.
Definition Transcript (a : PairwiseAlignment) : str := transcript_ a.
Definition Length (a : PairwiseAlignment) : nat := length (target_ a).

(** [std::count(transcript_.begin(), transcript_.end(), c)]. *)
Definition std_count (s : str) (c : ascii) : nat :=
  length (List.filter (Ascii.eqb c) s).

Definition Matches (a : PairwiseAlignment) : nat := std_count (transcript_ a) "M"%char.
Definition Mismatches (a : PairwiseAlignment) : nat := std_count (transcript_ a) "R"%char.
Definition Insertions (a : PairwiseAlignment) : nat := std_count (transcript_ a) "I"%char.
Definition Deletions (a : PairwiseAlignment) : nat := std_count (transcript_ a) "D"%char.

(** [Length() - Matches()]: a difference of two [int]s, which the type does
    not keep from being negative. *)
Definition Errors (a : PairwiseAlignment) : Z :=
  (Z.of_nat (Length a) - Z.of_nat (Matches a))%Z.

(** The body of the constructor's [for] loop: the transcript character of
    one column, or the exception of the both-gap column. *)
Definition column_code (t q : ascii) : Result ascii :=
  if (t =? GAP)%char && (q =? GAP)%char then Throw InvalidInputError
  else if (t =? q)%char then Ok "M"%char
  else if (t =? GAP)%char then Ok "I"%char
  else if (q =? GAP)%char then Ok "D"%char
  else Ok "R"%char.

(** [for (i = 0; i < target_.length(); i++) { ...; transcript_[i] = tr; }],
    run over the indices still to visit. *)
Fixpoint ctor_loop (target query : str) (idxs : list nat) (transcript : str)
  : Result str :=
  match idxs with
  | [] => Ok transcript
  | i :: rest =>
      letR tr := column_code (char_at target i) (char_at query i) in
      ctor_loop target query rest (<[i := tr]> transcript)
  end.

(** [PairwiseAlignment::PairwiseAlignment(target, query)]. *)
Definition PairwiseAlignment_new (target query : str) : Result PairwiseAlignment :=
  let transcript0 := replicate (length target) "Z"%char in
  if negb (length target =? length query) then Throw InvalidInputError
  else
    letR tr := ctor_loop target query (seq 0 (length target)) transcript0 in
    Ok (mkPairwiseAlignment target query tr).

(** ** [PairwiseAlignment::FromTranscript] *)

Record FTState : Type := mkFT {
  alnTarget : str;
  alnQuery : str;
  tPos : nat;
  qPos : nat
}.

(** One iteration of the [foreach (char x, transcript)] loop; [None] is
    [return NULL]. *)
Definition FromTranscript_step (unalnTarget unalnQuery : str) (x : ascii)
    (st : FTState) : option FTState :=
  let tLen := length unalnTarget in
  let qLen := length unalnQuery in
  if (tLen <? tPos st) || (qLen <? qPos st) then None
  else
    let t := if tPos st <? tLen then char_at unalnTarget (tPos st) else NUL in
    let q := if qPos st <? qLen then char_at unalnQuery (qPos st) else NUL in
    if (x =? "M")%char then
      if negb (t =? q)%char then None
      else Some (mkFT (alnTarget st ++ [t]) (alnQuery st ++ [q])
                      (S (tPos st)) (S (qPos st)))
    else if (x =? "R")%char then
      if (t =? q)%char then None
      else Some (mkFT (alnTarget st ++ [t]) (alnQuery st ++ [q])
                      (S (tPos st)) (S (qPos st)))
    else if (x =? "I")%char then
      Some (mkFT (alnTarget st ++ [GAP]) (alnQuery st ++ [q])
                 (tPos st) (S (qPos st)))
    else if (x =? "D")%char then
      Some (mkFT (alnTarget st ++ [t]) (alnQuery st ++ [GAP])
                 (S (tPos st)) (qPos st))
    else None.

Fixpoint FromTranscript_loop (unalnTarget unalnQuery : str) (transcript : str)
    (st : FTState) : option FTState :=
  match transcript with
  | [] => Some st
  | x :: rest =>
      match FromTranscript_step unalnTarget unalnQuery x st with
      | None => None
      | Some st' => FromTranscript_loop unalnTarget unalnQuery rest st'
      end
  end.

Definition FromTranscript (transcript unalnTarget unalnQuery : str)
  : Result (option PairwiseAlignment) :=
  match FromTranscript_loop unalnTarget unalnQuery transcript (mkFT [] [] 0 0) with
  | None => Ok None
  | Some st =>
      if negb (tPos st =? length unalnTarget) || negb (qPos st =? length unalnQuery)
      then Ok None
      else
        letR a := PairwiseAlignment_new (alnTarget st) (alnQuery st) in
        Ok (Some a)
  end.

(** ** Coordinate lifting: [TargetToQueryPositions] *)

Definition addsToTarget (transcriptChar : ascii) : bool :=
  (transcriptChar =? "M")%char || (transcriptChar =? "R")%char
  || (transcriptChar =? "D")%char.

Definition targetLength (alignmentTranscript : str) : nat :=
  length (List.filter addsToTarget alignmentTranscript).

Definition addsToQuery (transcriptChar : ascii) : bool :=
  (transcriptChar =? "M")%char || (transcriptChar =? "R")%char
  || (transcriptChar =? "I")%char.

Definition queryLength (alignmentTranscript : str) : nat :=
  length (List.filter addsToQuery alignmentTranscript).

Record LiftState : Type := mkLift {
  ntp : list nat;
  targetPos : nat;
  queryPos : nat
}.

(** Modelled from the spec: [ShouldNotReachHere()] is a macro of
    [ConsensusCore/Utils.hpp], absent from the sources; the specification's
    Unreachable error ("internal invariant broken; fatal") is the
    [InternalError] exception. *)
Definition ShouldNotReachHere {A} : Result A := Throw InternalError.

(** One iteration of [foreach (char c, transcript)]. *)
Definition lift_step (c : ascii) (st : LiftState) : Result LiftState :=
  if (c =? "M")%char || (c =? "R")%char then
    Ok (mkLift (ntp st ++ [queryPos st]) (S (targetPos st)) (S (queryPos st)))
  else if (c =? "D")%char then
    Ok (mkLift (ntp st ++ [queryPos st]) (S (targetPos st)) (queryPos st))
  else if (c =? "I")%char then
    Ok (mkLift (ntp st) (targetPos st) (S (queryPos st)))
  else ShouldNotReachHere.

Fixpoint lift_loop (transcript : str) (st : LiftState) : Result LiftState :=
  match transcript with
  | [] => Ok st
  | c :: rest => letR st' := lift_step c st in lift_loop rest st'
  end.

Definition TargetToQueryPositions (transcript : str) : Result (list nat) :=
  letR st := lift_loop transcript (mkLift [] 0 0) in
  Ok (ntp st ++ [queryPos st]).

(** [TargetToQueryPositions(const PairwiseAlignment& aln)]. *)
Definition TargetToQueryPositions_aln (aln : PairwiseAlignment) : Result (list nat) :=
  TargetToQueryPositions (Transcript aln).

(** The lifting rules as the specification words them: scan the transcript
    with [qPos] starting at 0; [M|R] emit [qPos] and advance both positions,
    [D] emits [qPos] and advances the target only, [I] advances the query
    only, and the end of the transcript emits [qPos]. *)
Fixpoint spec_positions (qpos : nat) (transcript : str) : list nat :=
  match transcript with
  | [] => [qpos]
  | c :: rest =>
      if (c =? "M")%char || (c =? "R")%char then qpos :: spec_positions (S qpos) rest
      else if (c =? "D")%char then qpos :: spec_positions qpos rest
      else spec_positions (S qpos) rest
  end.

Definition transcript_char (c : ascii) : Prop :=
  c = "M"%char \/ c = "R"%char \/ c = "I"%char \/ c = "D"%char.

(** ** Needleman-Wunsch: [Align] *)

Record AlignParams : Type := mkAlignParams {
  Match : Z;
  Mismatch : Z;
  Insert : Z;
  Delete : Z
}.

Inductive AlignMode : Type := GLOBAL | SEMIGLOBAL | LOCAL.

Record AlignConfig : Type := mkAlignConfig {
  Params : AlignParams;
  Mode : AlignMode
}.

Definition is_GLOBAL (m : AlignMode) : bool :=
  match m with GLOBAL => true | _ => false end.

(** Modelled from the spec: [Max3] and [ArgMax3] are helpers of
    [ConsensusCore/Utils.hpp], absent from the sources.  The specification
    has the recurrence take the maximum of its three candidates and the
    traceback "prefer diagonal (Match/Mismatch), then insert, then delete"
    when scores tie. *)
Definition Max3 (a b c : Z) : Z := Z.max a (Z.max b c).

Definition ArgMax3 (a b c : Z) : Z :=
  if (b <=? a)%Z && (c <=? a)%Z then 0%Z
  else if (c <=? b)%Z then 1%Z
  else 2%Z.

(** Modelled from the spec: [Reverse] is a helper of
    [ConsensusCore/Sequence.hpp], absent from the sources; the traceback
    builds the rows back to front and "reverse[s] to produce aligned
    strings". *)
Definition Reverse (s : str) : str := rev s.

(** [boost::numeric::ublas::matrix<int>]: a dense store of cells.  Its
    constructor leaves the cells uninitialised, so the store a run starts
    from is arbitrary. *)
Definition Matrix := nat -> nat -> Z.

Definition mset (m : Matrix) (i j : nat) (v : Z) : Matrix :=
  fun i' j' => if (i' =? i) && (j' =? j) then v else m i' j'.

Section AlignDP.
Variable params : AlignParams.
Variables target query : str.

(** The three candidates of a cell, as both loops compute them. *)
Definition diag_score (Score : Matrix) (i j : nat) : Z :=
  let isMatch := (char_at query (i - 1) =? char_at target (j - 1))%char in
  int_add (Score (i - 1) (j - 1))
          (if isMatch then Match params else Mismatch params).
Definition ins_score (Score : Matrix) (i j : nat) : Z :=
  int_add (Score (i - 1) j) (Insert params).
Definition del_score (Score : Matrix) (i j : nat) : Z :=
  int_add (Score i (j - 1)) (Delete params).

Definition fill_cell (i : nat) (Score : Matrix) (j : nat) : Matrix :=
  mset Score i j
       (Max3 (diag_score Score i j) (ins_score Score i j) (del_score Score i j)).

Definition fill_row (J : nat) (Score : Matrix) (i : nat) : Matrix :=
  fold_left (fill_cell i) (seq 1 J) Score.

(** The four initialisation and fill loops of [Align]. *)
Definition fillScore (Score0 : Matrix) : Matrix :=
  let I := length query in
  let J := length target in
  let S0 := mset Score0 0 0 0%Z in
  let S1 := fold_left (fun S i => mset S i 0 (int_mul (Z.of_nat i) (Insert params)))
                      (seq 1 I) S0 in
  let S2 := fold_left (fun S j => mset S 0 j (int_mul (Z.of_nat j) (Delete params)))
                      (seq 1 J) S1 in
  fold_left (fill_row J) (seq 1 I) S2.

(** The traceback [while (i > 0 || j > 0)] loop; [fuel] bounds the number
    of iterations, and [None] means the bound was reached. *)
Fixpoint traceback (fuel : nat) (Score : Matrix) (i j : nat)
    (raQuery raTarget : str) : option (str * str) :=
  if (0 <? i) || (0 <? j) then
    match fuel with
    | O => None
    | S fuel' =>
        let move :=
          if i =? 0 then 2%Z
          else if j =? 0 then 1%Z
          else ArgMax3 (diag_score Score i j) (ins_score Score i j)
                       (del_score Score i j) in
        if (move =? 0)%Z then
          traceback fuel' Score (i - 1) (j - 1)
                    (raQuery ++ [char_at query (i - 1)])
                    (raTarget ++ [char_at target (j - 1)])
        else if (move =? 1)%Z then
          traceback fuel' Score (i - 1) j
                    (raQuery ++ [char_at query (i - 1)])
                    (raTarget ++ [GAP])
        else if (move =? 2)%Z then
          traceback fuel' Score i (j - 1)
                    (raQuery ++ [GAP])
                    (raTarget ++ [char_at target (j - 1)])
        else traceback fuel' Score i j raQuery raTarget
    end
  else Some (raQuery, raTarget).
End AlignDP.

(** What a call of [Align] leaves behind: the value stored through the
    [score] pointer (if one was passed and the store was reached), and the
    returned alignment or the exception thrown. *)
Record AlignOutcome : Type := mkOutcome {
  score_out : option Z;
  returned : Result PairwiseAlignment
}.

(** [Align(target, query, score, config)]; [want_score] tells whether
    [score != NULL].  The result is [None] when the traceback loop does not
    finish within [fuel] iterations. *)
Definition Align (fuel : nat) (Score0 : Matrix) (target query : str)
    (want_score : bool) (config : AlignConfig) : option AlignOutcome :=
  let params := Params config in
  if negb (is_GLOBAL (Mode config)) then
    Some (mkOutcome None (Throw UnsupportedFeatureError))
  else
    let I := length query in
    let J := length target in
    let Score := fillScore params target query Score0 in
    let score := if want_score then Some (Score I J) else None in
    match traceback params target query fuel Score I J [] [] with
    | None => None
    | Some (raQuery, raTarget) =>
        Some (mkOutcome score
                (PairwiseAlignment_new (Reverse raTarget) (Reverse raQuery)))
    end.

End Align.


Module Poa.

(** ** The graph *)

(** A vertex descriptor.  A C++ variable of type [VD] that may hold
    [null_vertex] is an [option VD] here, [None] being [null_vertex]. *)
Abbreviation VD := nat.
Abbreviation ED := (nat * nat)%type.

(** Modelled from the spec: [BoostGraph] (declared in [PoaGraphImpl.hpp],
    absent from the sources) is "an adjacency-list graph with vertex
    descriptors plus parallel property maps" whose "edges are index pairs".
    It is a list of vertices and a list of edges in insertion order; an edge
    that is already present is not added a second time. *)
Record BoostGraph : Type := mkGraph {
  vertices : list VD;
  edges : list ED
}.

Definition source (e : ED) : VD := fst e.
Definition target (e : ED) : VD := snd e.
Definition num_vertices (g : BoostGraph) : nat := length (vertices g).

Definition add_vertex (v : VD) (g : BoostGraph) : BoostGraph :=
  mkGraph (vertices g ++ [v]) (edges g).

Definition add_edge (u v : VD) (g : BoostGraph) : BoostGraph :=
  if bool_decide ((u, v) ∈ edges g) then g
  else mkGraph (vertices g) (edges g ++ [(u, v)]).

Definition in_edges (v : VD) (g : BoostGraph) : list ED :=
  List.filter (fun e => target e =? v) (edges g).

Definition out_edges (v : VD) (g : BoostGraph) : list ED :=
  List.filter (fun e => source e =? v) (edges g).

(** The C++ [float] operations the traversals use.  The code is embedded
    over any carrier with these operations; the facts proved below name the
    order properties they rely on. *)
Class FloatOps (F : Type) : Type := mkFloatOps {
  Fzero : F;
  Ftie : F;
  Fneg_max : F;
  Fof_int : Z -> F;
  Fadd : F -> F -> F;
  Fsub : F -> F -> F;
  Fgt : F -> F -> bool
}.

(** Scores in units of [0.0001]: the carrier used to run the code on
    concrete graphs.  [Ftie] is [0.0001f], [Fneg_max] is [-FLT_MAX]. *)
#[export] Instance FixedPoint : FloatOps Z := {|
  Fzero := 0%Z;
  Ftie := 1%Z;
  Fneg_max := (- (340282346638528859811704183484516925440 * 10000))%Z;
  Fof_int := fun z => (10000 * z)%Z;
  Fadd := Z.add;
  Fsub := Z.sub;
  Fgt := Z.gtb
|}.

Class FloatNeg (F : Type) : Type := Fneg : F -> F.

#[export] Instance FixedPoint_neg : FloatNeg Z := Z.opp.

Inductive MoveType : Type :=
  | InvalidMove
  | StartMove
  | EndMove
  | MatchMove
  | MismatchMove
  | DeleteMove
  | ExtraMove.

Section PoaGraph.
Context {F : Type} {fo : FloatOps F}.

(** [boost::topological_sort], as [tagSpan] and [consensusPath] call it:
    the vertices of the graph in a topological order. *)
Variable topological_sort : BoostGraph -> list VD.

Record PoaNode : Type := mkPoaNode {
  Base : ascii;
  Reads : Z;
  SpanningReads : Z;
  Score : F;
  ReachingScore : F
}.

Definition set_Reads (r : Z) (n : PoaNode) : PoaNode :=
  mkPoaNode (Base n) r (SpanningReads n) (Score n) (ReachingScore n).
Definition set_SpanningReads (r : Z) (n : PoaNode) : PoaNode :=
  mkPoaNode (Base n) (Reads n) r (Score n) (ReachingScore n).
Definition set_Score (x : F) (n : PoaNode) : PoaNode :=
  mkPoaNode (Base n) (Reads n) (SpanningReads n) x (ReachingScore n).
Definition set_ReachingScore (x : F) (n : PoaNode) : PoaNode :=
  mkPoaNode (Base n) (Reads n) (SpanningReads n) (Score n) x.

(** [vertexInfoMap_]: the property map from vertices to their nodes. *)
Definition VertexInfoMap : Type := VD -> PoaNode.

Definition info_update (m : VertexInfoMap) (v : VD) (f : PoaNode -> PoaNode)
  : VertexInfoMap :=
  fun w => if w =? v then f (m w) else m w.

Record PoaGraphImpl : Type := mkPoa {
  g_ : BoostGraph;
  vertexInfoMap_ : VertexInfoMap;
  enterVertex_ : VD;
  exitVertex_ : VD;
  numReads_ : Z;
  totalVertices_ : nat
}.

Definition NumReads (p : PoaGraphImpl) : Z := numReads_ p.

Definition with_graph (p : PoaGraphImpl) (g : BoostGraph) : PoaGraphImpl :=
  mkPoa g (vertexInfoMap_ p) (enterVertex_ p) (exitVertex_ p) (numReads_ p)
        (totalVertices_ p).

Definition with_info (p : PoaGraphImpl) (m : VertexInfoMap) : PoaGraphImpl :=
  mkPoa (g_ p) m (enterVertex_ p) (exitVertex_ p) (numReads_ p) (totalVertices_ p).

(** Modelled from the spec: [addVertex] is defined in [PoaGraphImpl.cpp],
    absent from the sources.  "New vertices added during threading are
    always fresh IDs"; a vertex threaded for a read starts with
    [reads = 1]. *)
Definition addVertex (base : ascii) (nReads : Z) (p : PoaGraphImpl)
  : VD * PoaGraphImpl :=
  let vd := totalVertices_ p in
  (vd,
   mkPoa (add_vertex vd (g_ p))
         (info_update (vertexInfoMap_ p) vd
                      (fun _ => mkPoaNode base nReads 0%Z Fzero Fzero))
         (enterVertex_ p) (exitVertex_ p) (numReads_ p) (S (totalVertices_ p))).

(** Modelled from the spec: the constructor of [PoaGraphImpl] is absent
    from the sources; the "graph [is] created empty with only [enter],
    [exit]", "each with empty base". *)
Definition empty_node : PoaNode := mkPoaNode NUL 0%Z 0%Z Fzero Fzero.

Definition PoaGraphImpl_new : PoaGraphImpl :=
  let p0 := mkPoa (mkGraph [] []) (fun _ => empty_node) 0 0 0%Z 0 in
  let '(enter, p1) := addVertex "^"%char 0%Z p0 in
  let '(exit_, p2) := addVertex "$"%char 0%Z p1 in
  mkPoa (g_ p2) (vertexInfoMap_ p2) enter exit_ 0%Z (totalVertices_ p2).

(** ** [tagSpan] *)

Definition is_vertex (x : option VD) (v : VD) : bool :=
  match x with
  | Some w => v =? w
  | None => false
  end.

(** The [foreach (VD v, sortedVertices)] loop of [tagSpan]; leaving the
    recursion is the [break]. *)
Fixpoint tagSpan_loop (start end_ : option VD) (sortedVertices : list VD)
    (spanning : bool) (info : VertexInfoMap) : VertexInfoMap :=
  match sortedVertices with
  | [] => info
  | v :: rest =>
      let spanning := if is_vertex start v then true else spanning in
      if is_vertex end_ v then info
      else
        let info :=
          if spanning
          then info_update info v
                 (fun n => set_SpanningReads (int_add (SpanningReads n) 1) n)
          else info in
        tagSpan_loop start end_ rest spanning info
  end.

Definition tagSpan (start end_ : option VD) (p : PoaGraphImpl) : PoaGraphImpl :=
  let sortedVertices := topological_sort (g_ p) in
  with_info p (tagSpan_loop start end_ sortedVertices false (vertexInfoMap_ p)).

(** ** [consensusPath] *)

Record CPState : Type := mkCP {
  cp_info : VertexInfoMap;
  bestPrevVertex : gmap VD (option VD);
  bestVertex : option VD;
  bestReachingScore : F
}.

Definition node_score (mode : Align.AlignMode) (minCoverage totalReads : Z)
    (vInfo : PoaNode) : F :=
  let containingReads := Reads vInfo in
  let spanningReads := SpanningReads vInfo in
  if negb (Align.is_GLOBAL mode)
  then Fsub (Fof_int (int_sub (int_mul 2 containingReads)
                              (int_mul 1 (Z.max spanningReads minCoverage))))
            Ftie
  else Fsub (Fof_int (int_sub (int_mul 2 containingReads) (int_mul 1 totalReads)))
            Ftie.

(** The body of [foreach (ED e, inEdges(v, g_))]. *)
Definition cp_edge (v : VD) (score : F) (st : CPState) (e : ED) : CPState :=
  let sourceVertex := source e in
  let rsc := Fadd score (ReachingScore (cp_info st sourceVertex)) in
  let st1 :=
    if Fgt rsc (ReachingScore (cp_info st v))
    then mkCP (info_update (cp_info st) v (set_ReachingScore rsc))
              (<[v := Some sourceVertex]> (bestPrevVertex st))
              (bestVertex st) (bestReachingScore st)
    else st in
  if Fgt rsc (bestReachingScore st1)
  then mkCP (cp_info st1) (bestPrevVertex st1) (Some v) rsc
  else st1.

(** The body of [foreach (VD v, sortedVertices)]. *)
Definition cp_vertex (g : BoostGraph) (mode : Align.AlignMode)
    (minCoverage totalReads : Z) (st : CPState) (v : VD) : CPState :=
  let score := node_score mode minCoverage totalReads (cp_info st v) in
  let st0 :=
    mkCP (info_update (cp_info st) v
            (fun n => set_ReachingScore score (set_Score score n)))
         (<[v := None]> (bestPrevVertex st))
         (bestVertex st) (bestReachingScore st) in
  fold_left (cp_edge v score) (in_edges v g) st0.

(** [sortedVertices.pop_back(); sortedVertices.pop_front();] *)
Definition pop_both (l : list VD) : list VD := removelast (tl l).

(** The dynamic program of [consensusPath], up to the [assert]. *)
Definition consensusPath_dp (mode : Align.AlignMode) (minCoverage : Z)
    (p : PoaGraphImpl) : option CPState :=
  let totalReads := NumReads p in
  let sortedVertices := topological_sort (g_ p) in
  match sortedVertices with
  | [] => None
  | front :: _ =>
      let info0 := info_update (vertexInfoMap_ p) front (set_ReachingScore Fzero) in
      Some (fold_left (cp_vertex (g_ p) mode minCoverage totalReads)
                      (pop_both sortedVertices)
                      (mkCP info0 ∅ None Fneg_max))
  end.

(** [while (v != null_vertex) { path.push_front(v); v = bestPrevVertex[v]; }] *)
Fixpoint cp_traceback (fuel : nat) (bestPrev : gmap VD (option VD))
    (v : option VD) (path : list VD) : option (list VD) :=
  match v with
  | None => Some path
  | Some w =>
      match fuel with
      | O => None
      | S fuel' =>
          cp_traceback fuel' bestPrev (default None (bestPrev !! w)) (w :: path)
      end
  end.

Definition consensusPath (fuel : nat) (mode : Align.AlignMode) (minCoverage : Z)
    (p : PoaGraphImpl) : option (list VD) :=
  match consensusPath_dp mode minCoverage p with
  | None => None
  | Some st => cp_traceback fuel (bestPrevVertex st) (bestVertex st) []
  end.

Definition sequenceAlongPath (vertexInfoMap : VertexInfoMap) (path : list VD) : str :=
  map (fun v => Base (vertexInfoMap v)) path.

(** ** [threadFirstRead] *)

Record FirstReadState : Type := mkFR {
  fr_graph : PoaGraphImpl;
  fr_u : option VD;
  fr_startSpanVertex : option VD;
  fr_readPos : nat
}.

(** An [add_edge] whose source may be [null_vertex]: dereferencing the null
    descriptor is undefined, the run ends there ([None]). *)
Definition add_edge_from (u : option VD) (v : VD) (p : PoaGraphImpl)
  : option PoaGraphImpl :=
  match u with
  | None => None
  | Some u' => Some (with_graph p (add_edge u' v (g_ p)))
  end.

Definition add_edge_to (u : VD) (v : option VD) (p : PoaGraphImpl)
  : option PoaGraphImpl :=
  match v with
  | None => None
  | Some v' => Some (with_graph p (add_edge u v' (g_ p)))
  end.

(** The body of [foreach (char base, sequence)].  The optional
    [outputPath], which only records the vertices created, is left out. *)
Definition threadFirstRead_step (st : FirstReadState) (base : ascii)
  : option FirstReadState :=
  let '(v, p1) := addVertex base 1%Z (fr_graph st) in
  if fr_readPos st =? 0 then
    Some (mkFR (with_graph p1 (add_edge (enterVertex_ p1) v (g_ p1)))
               (Some v) (Some v) (S (fr_readPos st)))
  else
    p2 ← add_edge_from (fr_u st) v p1;
    Some (mkFR p2 (Some v) (fr_startSpanVertex st) (S (fr_readPos st))).

Fixpoint threadFirstRead_loop (sequence : str) (st : FirstReadState)
  : option FirstReadState :=
  match sequence with
  | [] => Some st
  | base :: rest =>
      st' ← threadFirstRead_step st base;
      threadFirstRead_loop rest st'
  end.

Definition threadFirstRead (sequence : str) (p : PoaGraphImpl)
  : option PoaGraphImpl :=
  st ← threadFirstRead_loop sequence (mkFR p None None 0);
  p1 ← add_edge_from (fr_u st) (exitVertex_ (fr_graph st)) (fr_graph st);
  Some (tagSpan (fr_startSpanVertex st) (fr_u st) p1).

(** ** [tracebackAndThread] *)

(** Modelled from the spec: [AlignmentColumn] is declared in
    [PoaGraphImpl.hpp], absent from the sources; it is a "column struct
    holding three parallel arrays ([score], [move_tag], [prev_vertex_id]) of
    length [|read|+1]". *)
Record AlignmentColumn : Type := mkColumn {
  ColumnScore : list F;
  ReachingMove : list MoveType;
  PreviousVertex : list (option VD)
}.

(** Modelled from the spec: [ArgMax] is a helper absent from the sources;
    it is "the row # we are coming from", the first row of highest score. *)
Fixpoint ArgMax_from (best : F) (besti i : nat) (l : list F) : nat :=
  match l with
  | [] => besti
  | x :: rest =>
      if Fgt x best then ArgMax_from x i (S i) rest
      else ArgMax_from best besti (S i) rest
  end.

Definition ArgMax (l : list F) : nat :=
  match l with
  | [] => 0
  | x :: rest => ArgMax_from x 0 1 rest
  end.

(** The loops that thread read bases as a chain of fresh vertices ending in
    [forkVertex]: [n] iterations of
    [newForkVertex = addVertex(sequence[READPOS]);
     add_edge(newForkVertex, forkVertex, g_); forkVertex = newForkVertex; i--]. *)
Fixpoint thread_bases (n : nat) (sequence : str) (i : nat) (forkVertex : VD)
    (p : PoaGraphImpl) : nat * VD * PoaGraphImpl :=
  match n with
  | O => (i, forkVertex, p)
  | S n' =>
      let '(newForkVertex, p1) := addVertex (char_at sequence (i - 1)) 1%Z p in
      let p2 := with_graph p1 (add_edge newForkVertex forkVertex (g_ p1)) in
      thread_bases n' sequence (i - 1) newForkVertex p2
  end.

Record TBState : Type := mkTB {
  tb_graph : PoaGraphImpl;
  tb_i : nat;
  tb_u : VD;
  tb_v : option VD;
  tb_forkVertex : option VD
}.

Definition is_LOCAL (m : Align.AlignMode) : bool :=
  match m with Align.LOCAL => true | _ => false end.

Definition or_else (x y : option VD) : option VD :=
  match x with
  | Some _ => x
  | None => y
  end.

(** The branch of the loop body on [reachingMove]: the graph, the read
    position and the pending fork vertex it leaves.  The result is [None]
    when the branch cannot be completed: [ShouldNotReachHere()], a column
    that does not exist, an edge to [null_vertex], or a read position
    below 0.  The optional [outputPath], which only records the vertices
    visited, is left out. *)
Definition tb_move (sequence : str) (cols : gmap VD AlignmentColumn)
    (alignMode : Align.AlignMode) (st : TBState) (prevVertex : option VD)
    (reachingMove : MoveType) : option (PoaGraphImpl * nat * option VD) :=
  let p := tb_graph st in
  let i := tb_i st in
  let u := tb_u st in
  let v := tb_v st in
  let forkVertex := tb_forkVertex st in
  match reachingMove with
  | StartMove =>
      let forkVertex := or_else forkVertex v in
      if i =? 0 then Some (p, i, forkVertex)
      else
        f ← forkVertex;
        let '(i1, f1, p1) := thread_bases i sequence i f p in
        Some (p1, i1, Some f1)
  | EndMove =>
      let f := exitVertex_ p in
      if is_LOCAL alignMode then
        pv ← prevVertex;
        prevCol ← cols !! pv;
        let prevRow := ArgMax (ColumnScore prevCol) in
        let '(i1, f1, p1) := thread_bases (i - prevRow) sequence i f p in
        Some (p1, i1, Some f1)
      else Some (p, i, Some f)
  | MatchMove =>
      if i =? 0 then None
      else
        let p1 :=
          match forkVertex with
          | Some f => with_graph p (add_edge u f (g_ p))
          | None => p
          end in
        let p2 := with_info p1 (info_update (vertexInfoMap_ p1) u
                                  (fun n => set_Reads (int_add (Reads n) 1) n)) in
        Some (p2, i - 1, None)
  | DeleteMove => Some (p, i, or_else forkVertex v)
  | ExtraMove | MismatchMove =>
      if i =? 0 then None
      else
        let '(newForkVertex, p1) := addVertex (char_at sequence (i - 1)) 1%Z p in
        let forkVertex := or_else forkVertex v in
        p2 ← add_edge_to newForkVertex forkVertex p1;
        Some (p2, i - 1, Some newForkVertex)
  | InvalidMove => None
  end.

(** One iteration of [while (!(u == enterVertex_ && i == 0))]; [None] also
    when the column of [u] or its row [i] does not exist, or when the next
    vertex is [null_vertex]. *)
Definition tb_body (sequence : str) (cols : gmap VD AlignmentColumn)
    (alignMode : Align.AlignMode) (st : TBState) : option TBState :=
  curCol ← cols !! tb_u st;
  prevVertex ← PreviousVertex curCol !! tb_i st;
  reachingMove ← ReachingMove curCol !! tb_i st;
  '(p', i', fork') ← tb_move sequence cols alignMode st prevVertex reachingMove;
  u' ← prevVertex;
  Some (mkTB p' i' u' (Some (tb_u st)) fork').

Fixpoint tb_loop (fuel : nat) (sequence : str) (cols : gmap VD AlignmentColumn)
    (alignMode : Align.AlignMode) (st : TBState) : option TBState :=
  if (tb_u st =? enterVertex_ (tb_graph st)) && (tb_i st =? 0) then Some st
  else
    match fuel with
    | O => None
    | S fuel' =>
        st' ← tb_body sequence cols alignMode st;
        tb_loop fuel' sequence cols alignMode st'
    end.

Definition tracebackAndThread (fuel : nat) (sequence : str)
    (alignmentColumnForVertex : gmap VD AlignmentColumn)
    (alignMode : Align.AlignMode) (p : PoaGraphImpl) : option PoaGraphImpl :=
  let I := length sequence in
  exitCol ← alignmentColumnForVertex !! exitVertex_ p;
  endSpanVertex ← PreviousVertex exitCol !! I;
  st ← tb_loop fuel sequence alignmentColumnForVertex alignMode
               (mkTB p I (exitVertex_ p) None None);
  let startSpanVertex := tb_v st in
  let p1 :=
    if negb (bool_decide (startSpanVertex = Some (exitVertex_ (tb_graph st))))
    then tagSpan startSpanVertex endSpanVertex (tb_graph st)
    else tb_graph st in
  match tb_forkVertex st with
  | Some f => Some (with_graph p1 (add_edge (enterVertex_ p1) f (g_ p1)))
  | None => Some p1
  end.

(** ** [findPossibleVariants] *)

(** Modelled from the spec: [Mutation] and [ScoredMutation] are declared in
    [ConsensusCore/Mutation.hpp], absent from the sources; a mutation is a
    "tagged record: kind in {INSERTION, DELETION, SUBSTITUTION}, zero-based
    position on a template, and (for INSERTION/SUBSTITUTION) a new base",
    and "a scored mutation additionally carries a floating-point score". *)
Inductive MutationType : Type := INSERTION | DELETION | SUBSTITUTION.

Record ScoredMutation : Type := mkScoredMutation {
  mut_Type : MutationType;
  mut_Position : nat;
  mut_Base : ascii;
  mut_Score : F
}.

(** The unary minus of C++ floats. *)
Context {fn : FloatNeg F}.

(** The order in which a [foreach] over a [boost::unordered_set<VD>] visits
    the elements of the set. *)
Variable unordered_elements : gset VD -> list VD.

Definition childVertices (v : VD) (g : BoostGraph) : gset VD :=
  list_to_set (map target (out_edges v g)).

Definition parentVertices (v : VD) (g : BoostGraph) : gset VD :=
  list_to_set (map source (in_edges v g)).

(** [bestPath_[i]]. *)
Definition path_at (bestPath_ : list VD) (i : nat) : VD := nth i bestPath_ 0.

(** The body of the two [foreach (VD vi, children)] loops: [skip] is the
    vertex the second loop passes over with [continue] ([null_vertex] in
    the first loop, which has no such test). *)
Definition best_child_step (vertexInfoMap : VertexInfoMap) (skip : option VD)
    (lookBack : gset VD) (best : F * option VD) (vi : VD) : F * option VD :=
  if is_vertex skip vi then best
  else if bool_decide (vi ∈ lookBack) then
    let score := Score (vertexInfoMap vi) in
    if Fgt score (fst best) then (score, Some vi) else best
  else best.

Definition best_child (vertexInfoMap : VertexInfoMap) (skip : option VD)
    (children lookBack : gset VD) : F * option VD :=
  fold_left (best_child_step vertexInfoMap skip lookBack)
            (unordered_elements children) (Fneg_max, None).

(** One iteration of the [for] loop over the positions of the path: the
    variants it pushes, in the order it pushes them. *)
Definition variants_at (p : PoaGraphImpl) (bestPath_ : list VD) (i : nat)
  : list ScoredMutation :=
  let v := path_at bestPath_ i in
  let children := childVertices v (g_ p) in
  let deletion :=
    if bool_decide (path_at bestPath_ (i + 2) ∈ children)
    then [mkScoredMutation DELETION (i + 1) "-"%char
            (Fneg (Score (vertexInfoMap_ p (path_at bestPath_ (i + 1)))))]
    else [] in
  let lookBack := parentVertices (path_at bestPath_ (i + 1)) (g_ p) in
  let '(bestInsertScore, bestInsertVertex) :=
    best_child (vertexInfoMap_ p) None children lookBack in
  let insertion :=
    match bestInsertVertex with
    | Some w =>
        [mkScoredMutation INSERTION (i + 1) (Base (vertexInfoMap_ p w)) bestInsertScore]
    | None => []
    end in
  let lookBack := parentVertices (path_at bestPath_ (i + 2)) (g_ p) in
  let '(bestMismatchScore, bestMismatchVertex) :=
    best_child (vertexInfoMap_ p) (Some (path_at bestPath_ (i + 1))) children lookBack in
  let substitution :=
    match bestMismatchVertex with
    | Some w =>
        [mkScoredMutation SUBSTITUTION (i + 1) (Base (vertexInfoMap_ p w))
           bestMismatchScore]
    | None => []
    end in
  deletion ++ insertion ++ substitution.

(** [findPossibleVariants], from [bestPath_] on.  ([internalizePath], of
    [PoaGraphImpl.hpp], translates the caller's vertex indices into
    descriptors; a descriptor is its index here.)  The loop runs over
    [i = 2, ..., bestPath_.size() - 3]. *)
Definition findPossibleVariants (p : PoaGraphImpl) (bestPath_ : list VD)
  : list ScoredMutation :=
  flat_map (variants_at p bestPath_) (seq 2 (length bestPath_ - 4)).

End PoaGraph.
End Poa.
(** * Specification vocabulary *)

(** The transcript of an aligned pair, column by column. *)
Fixpoint columns (a q : str) : Result str :=
  match a, q with
  | t :: a', c :: q' =>
      letR tr := Align.column_code t c in
      letR rest := columns a' q' in
      Ok (tr :: rest)
  | _, _ => Ok []
  end.

(** A transcript threads through two unaligned strings: every [M] column
    pairs equal characters, every [R] column pairs different ones, [I]
    consumes a query character, [D] a target character, and both strings
    are consumed exactly. *)
Inductive threads : str -> str -> str -> Prop :=
  | threads_nil : threads [] [] []
  | threads_M x t q T Q :
      t = q -> threads x T Q -> threads ("M"%char :: x) (t :: T) (q :: Q)
  | threads_R x t q T Q :
      t <> q -> threads x T Q -> threads ("R"%char :: x) (t :: T) (q :: Q)
  | threads_I x q T Q :
      threads x T Q -> threads ("I"%char :: x) T (q :: Q)
  | threads_D x t T Q :
      threads x T Q -> threads ("D"%char :: x) (t :: T) Q.

(** The alphabet of aligned sequences. *)
Definition base_or_gap (c : ascii) : Prop :=
  c = "A"%char \/ c = "C"%char \/ c = "G"%char \/ c = "T"%char \/ c = GAP.

Definition has_gap_gap (a q : str) : Prop :=
  exists i, a !! i = Some GAP /\ q !! i = Some GAP.

(** A cell of the score matrix holds the maximum of its three candidates:
    the recurrence of the specification, read in C++ [int] arithmetic. *)
Definition cell_ok (params : Align.AlignParams) (target query : str)
    (S : Align.Matrix) (i j : nat) : Prop :=
  S i j =
  Z.max (int_add (S (i - 1) (j - 1))
           (if Ascii.eqb (char_at query (i - 1)) (char_at target (j - 1))
            then Align.Match params else Align.Mismatch params))
        (Z.max (int_add (S (i - 1) j) (Align.Insert params))
               (int_add (S i (j - 1)) (Align.Delete params))).

(** A column of an aligned pair holds at most one gap. *)
Definition column_not_gap_gap (t c : ascii) : Prop := ~ (t = GAP /\ c = GAP).

(** [v] lies in the span from [start] to [end_] of the sorted vertex list:
    it stands at or after [start], and [end_] stands neither before it nor
    at it. *)
Definition in_span (sortedVertices : list Poa.VD) (start end_ v : Poa.VD) : Prop :=
  exists i j,
    sortedVertices !! i = Some start /\ sortedVertices !! j = Some v /\ i <= j
    /\ forall k, k <= j -> sortedVertices !! k <> Some end_.

(** Whether the loop of [tagSpan], entered with flag [spanning], reaches [v]
    before [end_] with the flag set. *)
Definition reaches_tagged (start end_ : Poa.VD) (l : list Poa.VD) (spanning : bool)
    (v : Poa.VD) : Prop :=
  exists j,
    l !! j = Some v
    /\ (forall k, k <= j -> l !! k <> Some end_)
    /\ (spanning = true \/ exists i, i <= j /\ l !! i = Some start).

(** The order properties of [>] on C++ floats (NaN apart) that the
    consensus dynamic program relies on: a strict weak order. *)
Record FloatOrder {F : Type} (fo : Poa.FloatOps F) : Prop := mkFloatOrder {
  Fgt_irrefl : forall a, Poa.Fgt a a = false;
  Fgt_trans : forall a b c,
    Poa.Fgt a b = true -> Poa.Fgt b c = true -> Poa.Fgt a c = true;
  Fgt_cotrans : forall a b c,
    Poa.Fgt a c = true -> Poa.Fgt a b = true \/ Poa.Fgt b c = true
}.

(** [l] lists vertices of [g] without repetition, every edge leading from
    an earlier to a later vertex of the list: what [boost::topological_sort]
    delivers on a DAG. *)
Definition topological_order (g : Poa.BoostGraph) (l : list Poa.VD) : Prop :=
  NoDup l
  /\ forall u v, (u, v) ∈ Poa.edges g ->
       exists i j, l !! i = Some u /\ l !! j = Some v /\ i < j.

(** A depth-first topological sort, run on concrete graphs in the examples:
    vertices are visited in the order of the vertex list, out-edges in the
    order of their targets, and a vertex is put in front of the result when
    its visit finishes. *)
Fixpoint dfs_visit (fuel : nat) (g : Poa.BoostGraph) (acc : list Poa.VD * list Poa.VD)
    (v : Poa.VD) : list Poa.VD * list Poa.VD :=
  match fuel with
  | O => acc
  | S fuel' =>
      if existsb (Nat.eqb v) (fst acc) then acc
      else
        let targets := merge_sort Nat.le (map Poa.target (Poa.out_edges v g)) in
        let '(visited, finished) :=
          fold_left (dfs_visit fuel' g) targets (v :: fst acc, snd acc) in
        (visited, v :: finished)
  end.

Definition dfs_topological_sort (g : Poa.BoostGraph) : list Poa.VD :=
  snd (fold_left (dfs_visit (S (Poa.num_vertices g)) g) (Poa.vertices g) ([], [])).

(** The candidate reaching score an in-edge [e] of a vertex contributes:
    the vertex's score plus the reaching score of the edge's source. *)
Definition edge_sum {F : Type} {fo : Poa.FloatOps F} (score : F)
    (st : Poa.CPState (F:=F)) (e : Poa.ED) : F :=
  Poa.Fadd score (Poa.ReachingScore (Poa.cp_info st (Poa.source e))).

(** The reaching score the dynamic program leaves on [v]: it is the highest
    of [score] alone (the path starts afresh at [v], no best predecessor)
    and the candidates [score + reaching_score(u)] of the predecessors [u]
    of [v] (the best predecessor being one that attains it). *)
Definition reaching_ok {F : Type} {fo : Poa.FloatOps F} (g : Poa.BoostGraph)
    (st : Poa.CPState (F:=F)) (score : F) (v : Poa.VD) : Prop :=
  let RS := fun x => Poa.ReachingScore (Poa.cp_info st x) in
  Poa.Score (Poa.cp_info st v) = score
  /\ Poa.Fgt score (RS v) = false
  /\ (forall u, (u, v) ∈ Poa.edges g -> Poa.Fgt (Poa.Fadd score (RS u)) (RS v) = false)
  /\ ((RS v = score /\ Poa.bestPrevVertex st !! v = Some None)
      \/ (exists u, (u, v) ∈ Poa.edges g /\ RS v = Poa.Fadd score (RS u)
                    /\ Poa.bestPrevVertex st !! v = Some (Some u))).

(** In the list [l], no vertex has a predecessor that is itself or stands
    after it. *)
Definition preds_before (g : Poa.BoostGraph) (l : list Poa.VD) : Prop :=
  forall l1 v l2, l = l1 ++ v :: l2 ->
    forall u, (u, v) ∈ Poa.edges g -> u <> v /\ u ∉ l2.

(** A decision procedure for [topological_order], run on concrete graphs. *)
Fixpoint index_of (v : Poa.VD) (l : list Poa.VD) : option nat :=
  match l with
  | [] => None
  | x :: rest => if x =? v then Some 0 else option_map S (index_of v rest)
  end.

Definition topological_orderb (g : Poa.BoostGraph) (l : list Poa.VD) : bool :=
  bool_decide (NoDup l)
  && forallb (fun e =>
                match index_of (fst e) l, index_of (snd e) l with
                | Some i, Some j => i <? j
                | _, _ => false
                end) (Poa.edges g).

#[global] Existing Instance Poa.FixedPoint.

(** ** The graphs of the POA tests

    Reads are threaded with the functions above; the alignment columns,
    which the column dynamic program (not among the sources) would compute,
    are written out on the cells the traceback visits.  [numReads_] is set
    as [AddRead] (not among the sources) would leave it. *)
Definition example_column (cells : list (Poa.MoveType * option Poa.VD))
  : Poa.AlignmentColumn (F:=Z) :=
  Poa.mkColumn (map (fun _ => 0%Z) cells) (map fst cells) (map snd cells).

Definition no_cell : Poa.MoveType * option Poa.VD := (Poa.InvalidMove, None).

Definition with_numReads (n : Z) (p : Poa.PoaGraphImpl (F:=Z)) : Poa.PoaGraphImpl :=
  Poa.mkPoa (Poa.g_ p) (Poa.vertexInfoMap_ p) (Poa.enterVertex_ p) (Poa.exitVertex_ p)
            n (Poa.totalVertices_ p).

Definition thread_first (read : string) : Poa.PoaGraphImpl (F:=Z) :=
  default Poa.PoaGraphImpl_new
    (Poa.threadFirstRead dfs_topological_sort (list_ascii_of_string read)
       Poa.PoaGraphImpl_new).

Definition thread_next (read : string) (cols : list (Poa.VD * Poa.AlignmentColumn (F:=Z)))
    (p : Poa.PoaGraphImpl (F:=Z)) : Poa.PoaGraphImpl :=
  default p
    (Poa.tracebackAndThread dfs_topological_sort (2 * Poa.num_vertices (Poa.g_ p) + 20)
       (list_ascii_of_string read) (list_to_map cols) Align.GLOBAL p).

(** Reads [GGG] then [TGGG] (test "extra at beginning"). *)
Definition columns_TGGG : list (Poa.VD * Poa.AlignmentColumn (F:=Z)) :=
  [ (0, example_column [no_cell; (Poa.ExtraMove, Some 0); no_cell; no_cell; no_cell]);
    (2, example_column [no_cell; no_cell; (Poa.MatchMove, Some 0); no_cell; no_cell]);
    (3, example_column [no_cell; no_cell; no_cell; (Poa.MatchMove, Some 2); no_cell]);
    (4, example_column [no_cell; no_cell; no_cell; no_cell; (Poa.MatchMove, Some 3)]);
    (1, example_column [no_cell; no_cell; no_cell; no_cell; (Poa.EndMove, Some 4)]) ].

Definition graph_GGG_TGGG : Poa.PoaGraphImpl (F:=Z) :=
  with_numReads 2 (thread_next "TGGG" columns_TGGG (thread_first "GGG")).

(** Reads [GGG] then [TGG] (test "mismatch at beginning"). *)
Definition columns_TGG : list (Poa.VD * Poa.AlignmentColumn (F:=Z)) :=
  [ (2, example_column [no_cell; (Poa.MismatchMove, Some 0); no_cell; no_cell]);
    (3, example_column [no_cell; no_cell; (Poa.MatchMove, Some 2); no_cell]);
    (4, example_column [no_cell; no_cell; no_cell; (Poa.MatchMove, Some 3)]);
    (1, example_column [no_cell; no_cell; no_cell; (Poa.EndMove, Some 4)]) ].

Definition graph_GGG_TGG : Poa.PoaGraphImpl (F:=Z) :=
  with_numReads 2 (thread_next "TGG" columns_TGG (thread_first "GGG")).

(** Reads [AGT], [CGT], [TG], [GG]: four different first bases, a [G]
    every read passes through, and a last [T] half of them reach. *)
Definition columns_CGT : list (Poa.VD * Poa.AlignmentColumn (F:=Z)) :=
  [ (2, example_column [no_cell; (Poa.MismatchMove, Some 0); no_cell; no_cell]);
    (3, example_column [no_cell; no_cell; (Poa.MatchMove, Some 2); no_cell]);
    (4, example_column [no_cell; no_cell; no_cell; (Poa.MatchMove, Some 3)]);
    (1, example_column [no_cell; no_cell; no_cell; (Poa.EndMove, Some 4)]) ].

Definition columns_xG : list (Poa.VD * Poa.AlignmentColumn (F:=Z)) :=
  [ (2, example_column [no_cell; (Poa.MismatchMove, Some 0); no_cell]);
    (3, example_column [no_cell; no_cell; (Poa.MatchMove, Some 2)]);
    (1, example_column [no_cell; no_cell; (Poa.EndMove, Some 3)]) ].

Definition graph_AGT_CGT_TG_GG : Poa.PoaGraphImpl (F:=Z) :=
  with_numReads 4
    (thread_next "GG" columns_xG
       (thread_next "TG" columns_xG
          (thread_next "CGT" columns_CGT (thread_first "AGT")))).

(** What the verbose GraphViz output of the tests shows of a graph: the
    edges, and per vertex the base, [Reads] and [SpanningReads]. *)
Definition graph_summary (p : Poa.PoaGraphImpl (F:=Z))
  : list Poa.ED * list (Poa.VD * ascii * Z * Z) :=
  (Poa.edges (Poa.g_ p),
   map (fun v => (v, Poa.Base (Poa.vertexInfoMap_ p v),
                  Poa.Reads (Poa.vertexInfoMap_ p v),
                  Poa.SpanningReads (Poa.vertexInfoMap_ p v)))
       (Poa.vertices (Poa.g_ p))).

(** ** Reachability and the invariants of the POA graph *)

Definition edge_rel (g : Poa.BoostGraph) : relation Poa.VD :=
  fun u v => (u, v) ∈ Poa.edges g.

(** [v] can reach [w]: a path of zero or more edges leads from [v] to [w]. *)
Definition reaches (g : Poa.BoostGraph) : relation Poa.VD := rtc (edge_rel g).

(** A directed acyclic graph: no vertex lies on a cycle. *)
Definition acyclic (g : Poa.BoostGraph) : Prop :=
  forall v, ~ tc (edge_rel g) v v.

(** The structural invariants of a POA graph that threading maintains:
    the graph is acyclic, [enter] has no in-edge and [exit] no out-edge, and
    every identifier in use lies below the next fresh one. *)
Record PoaInv {F : Type} (p : Poa.PoaGraphImpl (F:=F)) : Prop := mkPoaInv {
  inv_acyclic : acyclic (Poa.g_ p);
  inv_enter_exit : Poa.enterVertex_ p <> Poa.exitVertex_ p;
  inv_enter : forall u, (u, Poa.enterVertex_ p) ∉ Poa.edges (Poa.g_ p);
  inv_exit : forall v, (Poa.exitVertex_ p, v) ∉ Poa.edges (Poa.g_ p);
  inv_edges : forall u v, (u, v) ∈ Poa.edges (Poa.g_ p) ->
                u < Poa.totalVertices_ p /\ v < Poa.totalVertices_ p;
  inv_enter_lt : Poa.enterVertex_ p < Poa.totalVertices_ p;
  inv_exit_lt : Poa.exitVertex_ p < Poa.totalVertices_ p
}.

(** Modelled from the spec: the alignment columns handed to
    [tracebackAndThread] come from the column dynamic program of
    [PoaGraphImpl.cpp], absent from the sources.  The specification has
    [previous_vertex] be "the graph-predecessor selected" for the moves
    along an edge (Match, Mismatch, Delete), the Extra move stay in its
    column ([C_v[i-1]]), a read Start anywhere (the traceback then goes to
    [enter]) and End at [exit] (coming from a vertex of the graph). *)
Definition move_ok {F : Type} (p : Poa.PoaGraphImpl (F:=F)) (u : Poa.VD)
    (move : Poa.MoveType) (pv : Poa.VD) : Prop :=
  match move with
  | Poa.MatchMove | Poa.MismatchMove | Poa.DeleteMove =>
      (pv, u) ∈ Poa.edges (Poa.g_ p)
  | Poa.ExtraMove => pv = u
  | Poa.StartMove => pv = Poa.enterVertex_ p
  | Poa.EndMove => pv < Poa.totalVertices_ p /\ pv <> Poa.exitVertex_ p
  | Poa.InvalidMove => True
  end.

Definition wf_columns {F : Type} (p : Poa.PoaGraphImpl (F:=F))
    (cols : gmap Poa.VD (Poa.AlignmentColumn (F:=F))) : Prop :=
  forall u col i move pv,
    cols !! u = Some col ->
    Poa.ReachingMove col !! i = Some move ->
    Poa.PreviousVertex col !! i = Some (Some pv) ->
    move_ok p u move pv.

(** The graphs threading produces: the first read threaded linearly into
    the empty graph, each further read threaded by traceback along
    well-formed alignment columns. *)
Inductive threaded {F : Type} {fo : Poa.FloatOps F}
    (topological_sort : Poa.BoostGraph -> list Poa.VD)
  : Poa.PoaGraphImpl (F:=F) -> Prop :=
  | threaded_first sequence p :
      Poa.threadFirstRead topological_sort sequence Poa.PoaGraphImpl_new = Some p ->
      threaded topological_sort p
  | threaded_next p fuel sequence cols alignMode p' :
      threaded topological_sort p ->
      wf_columns p cols ->
      Poa.tracebackAndThread topological_sort fuel sequence cols alignMode p = Some p' ->
      threaded topological_sort p'.

(** The invariant of the traceback loop, [p0] being the graph the read is
    threaded into: the vertex a pending edge will lead to cannot reach the
    current vertex [u]. *)
Definition TBInv {F : Type} (p0 : Poa.PoaGraphImpl (F:=F)) (st : Poa.TBState (F:=F))
  : Prop :=
  let p := Poa.tb_graph st in
  PoaInv p
  /\ Poa.enterVertex_ p = Poa.enterVertex_ p0
  /\ Poa.exitVertex_ p = Poa.exitVertex_ p0
  /\ (forall e, e ∈ Poa.edges (Poa.g_ p0) -> e ∈ Poa.edges (Poa.g_ p))
  /\ Poa.totalVertices_ p0 <= Poa.totalVertices_ p
  /\ Poa.tb_u st < Poa.totalVertices_ p0
  /\ match Poa.or_else (Poa.tb_forkVertex st) (Poa.tb_v st) with
     | Some f =>
         ~ reaches (Poa.g_ p) f (Poa.tb_u st)
         /\ f <> Poa.enterVertex_ p
         /\ f < Poa.totalVertices_ p
         /\ Poa.tb_u st <> Poa.exitVertex_ p
     | None => Poa.tb_u st = Poa.exitVertex_ p
     end.

Definition succeeded {A : Type} (o : option A) : bool :=
  match o with
  | Some _ => true
  | None => false
  end.

(** ** The Needleman-Wunsch recurrence over the integers

    The score matrix of the specification, computed without any bound on
    the size of integers; [fillScore_exact] below shows that the C++ matrix
    coincides with it when no sum can leave the range of [int]. *)
Definition nw_sub (params : Align.AlignParams) (target query : str) (i j : nat) : Z :=
  if Ascii.eqb (char_at query (i - 1)) (char_at target (j - 1))
  then Align.Match params else Align.Mismatch params.

Fixpoint nw_exact (params : Align.AlignParams) (target query : str) (i j : nat) : Z :=
  match i with
  | O => (Z.of_nat j * Align.Delete params)%Z
  | S i' =>
      (fix row (j : nat) : Z :=
         match j with
         | O => (Z.of_nat (S i') * Align.Insert params)%Z
         | S j' =>
             Z.max (nw_exact params target query i' j'
                    + nw_sub params target query (S i') (S j'))%Z
                   (Z.max (nw_exact params target query i' (S j') + Align.Insert params)%Z
                          (row j' + Align.Delete params)%Z)
         end) j
  end.

Definition params_bound (params : Align.AlignParams) (B : Z) : Prop :=
  (Z.abs (Align.Match params) <= B /\ Z.abs (Align.Mismatch params) <= B
   /\ Z.abs (Align.Insert params) <= B /\ Z.abs (Align.Delete params) <= B)%Z.

(** The score of an alignment, read off its transcript: every column
    contributes the parameter of its symbol.  The sum is taken over the
    integers. *)
Definition symbol_score (params : Align.AlignParams) (c : ascii) : Z :=
  if (c =? "M")%char then Align.Match params
  else if (c =? "R")%char then Align.Mismatch params
  else if (c =? "I")%char then Align.Insert params
  else if (c =? "D")%char then Align.Delete params
  else 0%Z.

Definition transcript_score (params : Align.AlignParams) (x : str) : Z :=
  fold_right (fun c acc => (symbol_score params c + acc)%Z) 0%Z x.

(** Two integers that differ by a multiple of [2^32]. *)
Definition cong32 (a b : Z) : Prop := exists k : Z, (a = b + k * 2 ^ 32)%Z.

(** The parameters with the roles of insertion and deletion exchanged. *)
Definition swap_params (params : Align.AlignParams) : Align.AlignParams :=
  Align.mkAlignParams (Align.Match params) (Align.Mismatch params)
                      (Align.Delete params) (Align.Insert params).

(** Consecutive vertices of [path] are joined by edges of [g]. *)
Fixpoint is_path (g : Poa.BoostGraph) (path : list Poa.VD) : Prop :=
  match path with
  | u :: rest =>
      match rest with
      | v :: _ => (u, v) ∈ Poa.edges g /\ is_path g rest
      | [] => True
      end
  | [] => True
  end.

(** Threading the positions [lo .. hi-1] of [sequence] has led from [p] to
    [p']: the vertices of [p'] are those of [p] followed by at most
    [hi - lo] new ones with the next fresh identifiers, each carrying a
    character of those positions; the edges of [p] are still there, in
    their places; the enter and the exit vertex, the number of reads and
    the base of every vertex of [p] are unchanged. *)
Definition grows {F : Type} (sequence : str) (lo hi : nat)
    (p p' : Poa.PoaGraphImpl (F:=F)) : Prop :=
  let T := Poa.totalVertices_ p in
  let T' := Poa.totalVertices_ p' in
  T <= T' /\ T' + lo <= T + hi
  /\ Poa.vertices (Poa.g_ p') = Poa.vertices (Poa.g_ p) ++ seq T (T' - T)
  /\ Poa.edges (Poa.g_ p) `prefix_of` Poa.edges (Poa.g_ p')
  /\ Poa.enterVertex_ p' = Poa.enterVertex_ p
  /\ Poa.exitVertex_ p' = Poa.exitVertex_ p
  /\ Poa.numReads_ p' = Poa.numReads_ p
  /\ (forall v, v < T ->
        Poa.Base (Poa.vertexInfoMap_ p' v) = Poa.Base (Poa.vertexInfoMap_ p v))
  /\ (forall v, T <= v < T' ->
        exists k, lo <= k < hi
                  /\ Poa.Base (Poa.vertexInfoMap_ p' v) = char_at sequence k).

(** The edges that thread the first [k] characters of the first read, in
    the order they are added: from the enter vertex [0] to the first read
    vertex [2], then from each read vertex to the next. *)
Definition first_read_edges (k : nat) : list Poa.ED :=
  (0, 2) :: map (fun i => (i, S i)) (seq 2 (k - 1)).

(** The state of [threadFirstRead], run on the empty graph, after the
    characters [done] (at least one) have been threaded. *)
Definition first_read_state {F : Type} {fo : Poa.FloatOps F} (done : str)
    (st : Poa.FirstReadState (F:=F)) : Prop :=
  let k := length done in
  let p := Poa.fr_graph st in
  Poa.totalVertices_ p = k + 2
  /\ Poa.enterVertex_ p = 0 /\ Poa.exitVertex_ p = 1
  /\ Poa.vertices (Poa.g_ p) = seq 0 (k + 2)
  /\ Poa.edges (Poa.g_ p) = first_read_edges k
  /\ Poa.fr_u st = Some (k + 1)
  /\ Poa.fr_startSpanVertex st = Some 2
  /\ Poa.fr_readPos st = k
  /\ forall i, i < k ->
       Poa.vertexInfoMap_ p (i + 2)
       = Poa.mkPoaNode (char_at done i) 1%Z 0%Z Poa.Fzero Poa.Fzero.

#[global] Existing Instance Poa.FixedPoint_neg.

(** A graph for the candidate variants: the path [^ A C G T A $] through
    the vertices [0 2 3 4 5 6 1], an edge from [3] straight to [5], a
    vertex [7] between [3] and [4], and a vertex [8] between [3] and [5].
    The scores are in units of [0.0001]. *)
Definition graph_variants : Poa.PoaGraphImpl (F:=Z) :=
  Poa.mkPoa
    (Poa.mkGraph [0; 1; 2; 3; 4; 5; 6; 7; 8]
       [(0, 2); (2, 3); (3, 4); (4, 5); (5, 6); (6, 1);
        (3, 5); (3, 7); (7, 4); (3, 8); (8, 5)])
    (fun v =>
       Poa.mkPoaNode (char_at (list_ascii_of_string "^$ACGTATC") v)
         (if v <? 2 then 0%Z else if v <? 7 then 3%Z else 1%Z) 0%Z
         (if v <? 2 then 0%Z else if v <? 7 then 29999%Z else (-10001)%Z) 0%Z)
    0 1 3%Z 9.

Definition path_variants : list Poa.VD := [0; 2; 3; 4; 5; 6; 1].

(** [path] follows the best predecessors from [prev] on: the best
    predecessor of its first vertex is [prev], and that of every further
    vertex is the vertex before it. *)
Fixpoint follows_best_prev (bestPrev : gmap Poa.VD (option Poa.VD))
    (prev : option Poa.VD) (path : list Poa.VD) : Prop :=
  match path with
  | [] => True
  | v :: rest => bestPrev !! v = Some prev /\ follows_best_prev bestPrev (Some v) rest
  end.

(** The total of [Reads] over the vertex identifiers in use, as an integer. *)
Definition total_reads {F : Type} (p : Poa.PoaGraphImpl (F:=F)) : Z :=
  fold_right Z.add 0%Z
    (map (fun v => Poa.Reads (Poa.vertexInfoMap_ p v)) (seq 0 (Poa.totalVertices_ p))).

(** An [EndMove] stands in the column of the exit vertex only (where the
    traceback asserts [u == exitVertex_]). *)
Definition end_at_exit {F : Type} (p : Poa.PoaGraphImpl (F:=F))
    (cols : gmap Poa.VD (Poa.AlignmentColumn (F:=F))) : Prop :=
  forall u col i,
    cols !! u = Some col -> Poa.ReachingMove col !! i = Some Poa.EndMove ->
    u = Poa.exitVertex_ p.

(** The state after [n] iterations of the traceback loop of
    [tracebackAndThread]: the loop condition held before each of them, and
    each of them ran to its end. *)
Fixpoint tb_iter {F : Type} {fo : Poa.FloatOps F} (n : nat) (sequence : str)
    (cols : gmap Poa.VD (Poa.AlignmentColumn (F:=F))) (alignMode : Align.AlignMode)
    (st : Poa.TBState (F:=F)) : option (Poa.TBState (F:=F)) :=
  match n with
  | O => Some st
  | S n' =>
      if (Poa.tb_u st =? Poa.enterVertex_ (Poa.tb_graph st)) && (Poa.tb_i st =? 0)
      then None
      else
        match Poa.tb_body sequence cols alignMode st with
        | Some st' => tb_iter n' sequence cols alignMode st'
        | None => None
        end
  end.

(** The place of a vertex in a list of vertices ([0] when it is absent). *)
Definition vertex_rank (l : list Poa.VD) (v : Poa.VD) : nat :=
  default 0 (index_of v l).

(** * Facts about strings *)

Lemma char_at_app_r (p s : str) (i : nat) :
  char_at (p ++ s) (length p + i) = char_at s i.
Proof.
  unfold char_at. rewrite List.app_nth2 by lia.
  f_equal. lia.
Qed.

Lemma char_at_middle (p s : str) (c : ascii) :
  char_at (p ++ c :: s) (length p) = c.
Proof.
  unfold char_at. apply List.nth_middle.
Qed.

Lemma char_at_lookup (s : str) (i : nat) (c : ascii) :
  s !! i = Some c -> char_at s i = c.
Proof.
  unfold char_at. revert i. induction s as [|x s IH]; intros [|i] H; simpl in *;
    try discriminate; [congruence | now apply IH].
Qed.

Lemma strip_gaps_app (a b : str) :
  strip_gaps (a ++ b) = strip_gaps a ++ strip_gaps b.
Proof. unfold strip_gaps. apply filter_app. Qed.

Lemma strip_gaps_gap (s : str) : strip_gaps (GAP :: s) = strip_gaps s.
Proof. unfold strip_gaps. rewrite filter_cons. now destruct (decide (GAP <> GAP)). Qed.

Lemma strip_gaps_base (c : ascii) (s : str) :
  c <> GAP -> strip_gaps (c :: s) = c :: strip_gaps s.
Proof.
  intros H. unfold strip_gaps. rewrite filter_cons.
  now destruct (decide (c <> GAP)).
Qed.

Lemma strip_gaps_gap_free (s : str) : gap_free s -> strip_gaps s = s.
Proof.
  unfold gap_free. induction s as [|c s IH]; intros H; [reflexivity|].
  rewrite not_elem_of_cons in H. destruct H as [Hc Hs].
  rewrite strip_gaps_base by congruence. now rewrite IH.
Qed.

Lemma gap_free_cons (c : ascii) (s : str) :
  gap_free (c :: s) <-> c <> GAP /\ gap_free s.
Proof.
  unfold gap_free. rewrite not_elem_of_cons. intuition congruence.
Qed.

Lemma no_gap_gap_cons (t c : ascii) (a q : str) :
  no_gap_gap (t :: a) (c :: q) <-> ~ (t = GAP /\ c = GAP) /\ no_gap_gap a q.
Proof.
  unfold no_gap_gap. split.
  - intros H. split.
    + apply (H 0); reflexivity.
    + intros i t' c' Ha Hq. apply (H (S i)); assumption.
  - intros [H0 H] [|i] t' c' Ha Hq; simpl in *.
    + congruence.
    + eapply H; eassumption.
Qed.

(** * The aligned-pair constructor *)

Lemma column_code_throw (t c : ascii) :
  Align.column_code t c = Throw InvalidInputError <-> t = GAP /\ c = GAP.
Proof.
  unfold Align.column_code.
  destruct (Ascii.eqb_spec t GAP), (Ascii.eqb_spec c GAP), (Ascii.eqb_spec t c);
    simpl; intuition congruence.
Qed.

Lemma column_code_cases (t c : ascii) :
  (t = GAP /\ c = GAP /\ Align.column_code t c = Throw InvalidInputError)
  \/ (t = c /\ t <> GAP /\ Align.column_code t c = Ok "M"%char)
  \/ (t = GAP /\ c <> GAP /\ Align.column_code t c = Ok "I"%char)
  \/ (t <> GAP /\ c = GAP /\ Align.column_code t c = Ok "D"%char)
  \/ (t <> GAP /\ c <> GAP /\ t <> c /\ Align.column_code t c = Ok "R"%char).
Proof.
  unfold Align.column_code.
  destruct (Ascii.eqb_spec t GAP), (Ascii.eqb_spec c GAP), (Ascii.eqb_spec t c);
    simpl; subst; intuition congruence.
Qed.

(** The index loop of the constructor computes [columns]. *)
Lemma ctor_loop_columns (st sq pt pq done rest : str) :
  length pt = length pq -> length done = length pt ->
  length rest = length st -> length st = length sq ->
  Align.ctor_loop (pt ++ st) (pq ++ sq) (seq (length pt) (length st)) (done ++ rest)
  = letR tr := columns st sq in Ok (done ++ tr).
Proof.
  revert sq pt pq done rest.
  induction st as [|t st IH]; intros sq pt pq done rest Hp Hd Hr Hs.
  - destruct sq; [|discriminate]. destruct rest; [|discriminate]. reflexivity.
  - destruct sq as [|c sq]; [discriminate|]. destruct rest as [|r rest]; [discriminate|].
    simpl in Hr, Hs. simpl length. simpl seq. simpl Align.ctor_loop.
    rewrite char_at_middle.
    replace (char_at (pq ++ c :: sq) (length pt)) with c
      by (rewrite Hp; now rewrite char_at_middle).
    simpl columns. destruct (Align.column_code t c) as [tr|e]; simpl; [|reflexivity].
    rewrite <- Hd.
    replace (<[length done:=tr]> (done ++ r :: rest)) with ((done ++ [tr]) ++ rest).
    2:{ rewrite <- (Nat.add_0_r (length done)) at 1. rewrite insert_app_r.
        simpl. now rewrite <- app_assoc. }
    replace (pt ++ t :: st) with ((pt ++ [t]) ++ st) by now rewrite <- app_assoc.
    replace (pq ++ c :: sq) with ((pq ++ [c]) ++ sq) by now rewrite <- app_assoc.
    replace (S (length done)) with (length (pt ++ [t]))
      by (rewrite length_app; simpl; lia).
    rewrite IH; try (rewrite ?length_app; simpl; lia).
    destruct (columns st sq); simpl; [|reflexivity].
    now rewrite <- app_assoc.
Qed.

Lemma PairwiseAlignment_new_columns (a q : str) :
  length a = length q ->
  Align.PairwiseAlignment_new a q
  = letR tr := columns a q in Ok (Align.mkPairwiseAlignment a q tr).
Proof.
  intros Hlen. unfold Align.PairwiseAlignment_new.
  rewrite (proj2 (Nat.eqb_eq _ _) Hlen). simpl negb. cbv iota.
  pose proof (ctor_loop_columns a q [] [] [] (replicate (length a) "Z"%char)) as H.
  simpl in H. rewrite H; try rewrite length_replicate; auto.
  destruct (columns a q); reflexivity.
Qed.

Lemma columns_throw (a q : str) :
  length a = length q ->
  (exists e, columns a q = Throw e) <-> has_gap_gap a q.
Proof.
  revert q. induction a as [|t a IH]; intros [|c q] Hlen; try discriminate.
  - split; [intros [e He]; discriminate | intros [i [H _]]; discriminate].
  - simpl in Hlen. injection Hlen as Hlen. specialize (IH q Hlen).
    simpl columns. split.
    + intros [e He].
      destruct (column_code_cases t c)
        as [(-> & -> & _)|[(_ & _ & E)|[(_ & _ & E)|[(_ & _ & E)|(_ & _ & _ & E)]]]].
      * exists 0. split; reflexivity.
      * rewrite E in He. simpl in He.
        destruct (columns a q) eqn:Hc; [discriminate|].
        destruct (proj1 IH (ex_intro _ _ eq_refl)) as [i Hi]. exists (S i). exact Hi.
      * rewrite E in He. simpl in He.
        destruct (columns a q) eqn:Hc; [discriminate|].
        destruct (proj1 IH (ex_intro _ _ eq_refl)) as [i Hi]. exists (S i). exact Hi.
      * rewrite E in He. simpl in He.
        destruct (columns a q) eqn:Hc; [discriminate|].
        destruct (proj1 IH (ex_intro _ _ eq_refl)) as [i Hi]. exists (S i). exact Hi.
      * rewrite E in He. simpl in He.
        destruct (columns a q) eqn:Hc; [discriminate|].
        destruct (proj1 IH (ex_intro _ _ eq_refl)) as [i Hi]. exists (S i). exact Hi.
    + intros [[|i] [Ha Hq]]; simpl in Ha, Hq.
      * injection Ha as ->. injection Hq as ->. exists InvalidInputError. reflexivity.
      * destruct (proj2 IH (ex_intro _ i (conj Ha Hq))) as [e He].
        destruct (Align.column_code t c); simpl; [|eauto].
        rewrite He. simpl. eauto.
Qed.

Lemma columns_only_InvalidInput (a q : str) (e : Exception) :
  columns a q = Throw e -> e = InvalidInputError.
Proof.
  revert q. induction a as [|t a IH]; intros [|c q] H; try discriminate.
  simpl in H.
  destruct (Align.column_code t c) eqn:E; simpl in H.
  - destruct (columns a q) eqn:Hc; simpl in H; [discriminate|].
    injection H as <-. eapply IH; eassumption.
  - injection H as <-. unfold Align.column_code in E.
    repeat match type of E with
           | (if ?b then _ else _) = _ => destruct b
           end; congruence.
Qed.

Lemma columns_length (a q tr : str) :
  length a = length q -> columns a q = Ok tr -> length tr = length a.
Proof.
  revert q tr. induction a as [|t a IH]; intros [|c q] tr Hlen H; try discriminate.
  - injection H as <-. reflexivity.
  - simpl in H. destruct (Align.column_code t c); [|discriminate].
    simpl in H. destruct (columns a q) eqn:Hc; [|discriminate].
    injection H as <-. simpl in *. f_equal. apply (IH q); [lia | exact Hc].
Qed.

Lemma has_gap_gap_not (a q : str) : no_gap_gap a q <-> ~ has_gap_gap a q.
Proof.
  unfold no_gap_gap, has_gap_gap. split.
  - intros H [i [Ha Hq]]. apply (H i GAP GAP Ha Hq). auto.
  - intros H i t c Ha Hq [-> ->]. apply H. eauto.
Qed.

Lemma columns_ok (a q : str) :
  length a = length q -> no_gap_gap a q -> exists tr, columns a q = Ok tr.
Proof.
  intros Hlen Hng. destruct (columns a q) as [tr|e] eqn:E; [eauto|].
  exfalso. apply (proj1 (has_gap_gap_not a q) Hng).
  apply columns_throw; eauto.
Qed.

(** * [FromTranscript] *)

Ltac ltb_true := match goal with
  | |- context [?a <? ?b] => rewrite (proj2 (Nat.ltb_lt a b)) by (rewrite ?length_app; simpl; lia)
  end.
Ltac ltb_false := match goal with
  | |- context [?a <? ?b] => rewrite (proj2 (Nat.ltb_ge a b)) by (rewrite ?length_app; simpl; lia)
  end.

Lemma FT_step_M (UT UQ : str) (st : Align.FTState) :
  Align.FromTranscript_step UT UQ "M"%char st =
  if (length UT <? Align.tPos st) || (length UQ <? Align.qPos st) then None
  else
    let t := if Align.tPos st <? length UT then char_at UT (Align.tPos st) else NUL in
    let q := if Align.qPos st <? length UQ then char_at UQ (Align.qPos st) else NUL in
    if negb (t =? q)%char then None
    else Some (Align.mkFT (Align.alnTarget st ++ [t]) (Align.alnQuery st ++ [q])
                          (S (Align.tPos st)) (S (Align.qPos st))).
Proof. reflexivity. Qed.

Lemma FT_step_R (UT UQ : str) (st : Align.FTState) :
  Align.FromTranscript_step UT UQ "R"%char st =
  if (length UT <? Align.tPos st) || (length UQ <? Align.qPos st) then None
  else
    let t := if Align.tPos st <? length UT then char_at UT (Align.tPos st) else NUL in
    let q := if Align.qPos st <? length UQ then char_at UQ (Align.qPos st) else NUL in
    if (t =? q)%char then None
    else Some (Align.mkFT (Align.alnTarget st ++ [t]) (Align.alnQuery st ++ [q])
                          (S (Align.tPos st)) (S (Align.qPos st))).
Proof. reflexivity. Qed.

Lemma FT_step_I (UT UQ : str) (st : Align.FTState) :
  Align.FromTranscript_step UT UQ "I"%char st =
  if (length UT <? Align.tPos st) || (length UQ <? Align.qPos st) then None
  else
    let q := if Align.qPos st <? length UQ then char_at UQ (Align.qPos st) else NUL in
    Some (Align.mkFT (Align.alnTarget st ++ [GAP]) (Align.alnQuery st ++ [q])
                     (Align.tPos st) (S (Align.qPos st))).
Proof. reflexivity. Qed.

Lemma FT_step_D (UT UQ : str) (st : Align.FTState) :
  Align.FromTranscript_step UT UQ "D"%char st =
  if (length UT <? Align.tPos st) || (length UQ <? Align.qPos st) then None
  else
    let t := if Align.tPos st <? length UT then char_at UT (Align.tPos st) else NUL in
    Some (Align.mkFT (Align.alnTarget st ++ [t]) (Align.alnQuery st ++ [GAP])
                     (S (Align.tPos st)) (Align.qPos st)).
Proof. reflexivity. Qed.

Lemma FT_step_other (UT UQ : str) (x : ascii) (st : Align.FTState) :
  ~ Align.transcript_char x -> Align.FromTranscript_step UT UQ x st = None.
Proof.
  intros Hx. unfold Align.FromTranscript_step, Align.transcript_char in *.
  destruct (_ || _); [reflexivity|].
  destruct (Ascii.eqb_spec x "M"); [tauto|].
  destruct (Ascii.eqb_spec x "R"); [tauto|].
  destruct (Ascii.eqb_spec x "I"); [tauto|].
  destruct (Ascii.eqb_spec x "D"); [tauto|].
  reflexivity.
Qed.

Lemma transcript_char_dec (x : ascii) : {Align.transcript_char x} + {~ Align.transcript_char x}.
Proof.
  unfold Align.transcript_char.
  destruct (ascii_dec x "M"); [auto|].
  destruct (ascii_dec x "R"); [auto|].
  destruct (ascii_dec x "I"); [auto|].
  destruct (ascii_dec x "D"); [auto|].
  right. tauto.
Qed.

(** Threading the transcript of an aligned pair through its gap-stripped
    rows rebuilds the pair, column by column. *)
Lemma FT_loop_columns (sa : str) :
  forall (sq tr UTpre UQpre : str) (st : Align.FTState),
    columns sa sq = Ok tr -> length sa = length sq ->
    Align.tPos st = length UTpre -> Align.qPos st = length UQpre ->
    Align.FromTranscript_loop (UTpre ++ strip_gaps sa) (UQpre ++ strip_gaps sq) tr st
    = Some (Align.mkFT (Align.alnTarget st ++ sa) (Align.alnQuery st ++ sq)
                       (length (UTpre ++ strip_gaps sa))
                       (length (UQpre ++ strip_gaps sq))).
Proof.
  induction sa as [|t sa IH]; intros [|c sq] tr UTpre UQpre st Hcol Hlen Ht Hq;
    try discriminate.
  - injection Hcol as <-. simpl. rewrite !app_nil_r.
    destruct st; simpl in *; subst; reflexivity.
  - simpl in Hlen. injection Hlen as Hlen. simpl in Hcol.
    destruct (columns sa sq) as [tr'|e] eqn:Hc.
    2:{ destruct (Align.column_code t c); discriminate. }
    specialize (IH sq tr').
    destruct (column_code_cases t c)
      as [(-> & -> & E)|[(<- & Hg & E)|[(-> & Hg & E)|[(Hg & -> & E)|(Hg & Hg' & Hne & E)]]]];
      rewrite E in Hcol; simpl in Hcol; try discriminate; injection Hcol as <-;
      simpl Align.FromTranscript_loop.
    + (* M *)
      rewrite !(strip_gaps_base t) by assumption.
      rewrite FT_step_M. rewrite Ht, Hq.
      repeat ltb_false. simpl orb. cbv iota. repeat ltb_true. cbv zeta.
      rewrite !char_at_middle. rewrite Ascii.eqb_refl. simpl negb. cbv iota.
      replace (UTpre ++ t :: strip_gaps sa) with ((UTpre ++ [t]) ++ strip_gaps sa)
        by now rewrite <- app_assoc.
      replace (UQpre ++ t :: strip_gaps sq) with ((UQpre ++ [t]) ++ strip_gaps sq)
        by now rewrite <- app_assoc.
      rewrite (IH (UTpre ++ [t]) (UQpre ++ [t])); auto;
        try (simpl; rewrite length_app; simpl; lia).
      simpl. now rewrite <- !app_assoc.
    + (* I *)
      rewrite strip_gaps_gap. rewrite (strip_gaps_base c) by assumption.
      rewrite FT_step_I. rewrite Ht, Hq.
      repeat ltb_false. simpl orb. cbv iota. repeat ltb_true. cbv zeta.
      rewrite !char_at_middle.
      replace (UQpre ++ c :: strip_gaps sq) with ((UQpre ++ [c]) ++ strip_gaps sq)
        by now rewrite <- app_assoc.
      rewrite (IH UTpre (UQpre ++ [c])); auto;
        try (simpl; rewrite length_app; simpl; lia).
      simpl. now rewrite <- !app_assoc.
    + (* D *)
      rewrite strip_gaps_gap. rewrite (strip_gaps_base t) by assumption.
      rewrite FT_step_D. rewrite Ht, Hq.
      repeat ltb_false. simpl orb. cbv iota. repeat ltb_true. cbv zeta.
      rewrite !char_at_middle.
      replace (UTpre ++ t :: strip_gaps sa) with ((UTpre ++ [t]) ++ strip_gaps sa)
        by now rewrite <- app_assoc.
      rewrite (IH (UTpre ++ [t]) UQpre); auto;
        try (simpl; rewrite length_app; simpl; lia).
      simpl. now rewrite <- !app_assoc.
    + (* R *)
      rewrite (strip_gaps_base t), (strip_gaps_base c) by assumption.
      rewrite FT_step_R. rewrite Ht, Hq.
      repeat ltb_false. simpl orb. cbv iota. repeat ltb_true. cbv zeta.
      rewrite !char_at_middle.
      rewrite (proj2 (Ascii.eqb_neq t c)) by assumption.
      replace (UTpre ++ t :: strip_gaps sa) with ((UTpre ++ [t]) ++ strip_gaps sa)
        by now rewrite <- app_assoc.
      replace (UQpre ++ c :: strip_gaps sq) with ((UQpre ++ [c]) ++ strip_gaps sq)
        by now rewrite <- app_assoc.
      rewrite (IH (UTpre ++ [t]) (UQpre ++ [c])); auto;
        try (simpl; rewrite length_app; simpl; lia).
      simpl. now rewrite <- !app_assoc.
Qed.

(** C3. For every aligned pair [(A, Q)] of equal length with no column
    holding a gap in both rows, the constructor builds an alignment, and
    [FromTranscript] applied to its transcript and to the gap-stripped rows
    succeeds and returns that same alignment, whose rows are [A] and [Q]. *)
Theorem transcript_round_trip (A Q : str) :
  length A = length Q -> no_gap_gap A Q ->
  exists aln,
    Align.PairwiseAlignment_new A Q = Ok aln
    /\ Align.FromTranscript (Align.Transcript aln) (strip_gaps A) (strip_gaps Q)
       = Ok (Some aln)
    /\ Align.Target aln = A /\ Align.Query aln = Q.
Proof.
  intros Hlen Hng.
  destruct (columns_ok A Q Hlen Hng) as [tr Htr].
  exists (Align.mkPairwiseAlignment A Q tr).
  pose proof (PairwiseAlignment_new_columns A Q Hlen) as Hnew.
  rewrite Htr in Hnew. simpl in Hnew.
  split; [exact Hnew|]. split; [|split; reflexivity].
  unfold Align.FromTranscript, Align.Transcript. simpl Align.transcript_.
  pose proof (FT_loop_columns A Q tr [] [] (Align.mkFT [] [] 0 0) Htr Hlen eq_refl eq_refl)
    as Hloop.
  simpl in Hloop. rewrite Hloop. simpl.
  rewrite !Nat.eqb_refl. simpl. rewrite Hnew. reflexivity.
Qed.

Lemma transcript_round_trip_witness :
  exists aln,
    Align.PairwiseAlignment_new
      (list_ascii_of_string "GA-TC") (list_ascii_of_string "G-CTA") = Ok aln
    /\ Align.FromTranscript (Align.Transcript aln)
         (strip_gaps (list_ascii_of_string "GA-TC"))
         (strip_gaps (list_ascii_of_string "G-CTA")) = Ok (Some aln)
    /\ Align.Target aln = list_ascii_of_string "GA-TC"
    /\ Align.Query aln = list_ascii_of_string "G-CTA".
Proof.
  apply (transcript_round_trip (list_ascii_of_string "GA-TC")
                               (list_ascii_of_string "G-CTA")).
  - reflexivity.
  - intros i t c Ha Hq [-> ->].
    do 5 (destruct i as [|i]; [vm_compute in Ha, Hq; congruence|]).
    discriminate.
Defined.

(** C9 (amended). The aligned-pair constructor throws [InvalidInputError]
    exactly when the two rows differ in length or some column holds a gap in
    both rows; on every other input, whatever its characters, it succeeds
    and stores the two rows with the transcript of their columns. *)
Theorem PairwiseAlignment_new_InvalidInput (a q : str) :
  (length a <> length q \/ has_gap_gap a q ->
   Align.PairwiseAlignment_new a q = Throw InvalidInputError)
  /\ (length a = length q -> no_gap_gap a q ->
      exists tr, columns a q = Ok tr
        /\ Align.PairwiseAlignment_new a q = Ok (Align.mkPairwiseAlignment a q tr)).
Proof.
  split.
  - intros H. destruct (Nat.eq_dec (length a) (length q)) as [Hlen|Hlen].
    + destruct H as [H|H]; [contradiction|].
      rewrite PairwiseAlignment_new_columns by assumption.
      destruct (proj2 (columns_throw a q Hlen) H) as [e He].
      rewrite He. simpl. f_equal. eapply columns_only_InvalidInput; eassumption.
    + unfold Align.PairwiseAlignment_new.
      now rewrite (proj2 (Nat.eqb_neq _ _) Hlen).
  - intros Hlen Hng. destruct (columns_ok a q Hlen Hng) as [tr Htr].
    exists tr. split; [assumption|].
    rewrite PairwiseAlignment_new_columns by assumption. now rewrite Htr.
Qed.

Lemma PairwiseAlignment_new_InvalidInput_witness :
  Align.PairwiseAlignment_new (list_ascii_of_string "A-C") (list_ascii_of_string "G-C")
    = Throw InvalidInputError
  /\ exists tr,
       columns (list_ascii_of_string "A-C") (list_ascii_of_string "-GC") = Ok tr
       /\ Align.PairwiseAlignment_new (list_ascii_of_string "A-C")
            (list_ascii_of_string "-GC")
          = Ok (Align.mkPairwiseAlignment (list_ascii_of_string "A-C")
                  (list_ascii_of_string "-GC") tr).
Proof.
  split.
  - apply (proj1 (PairwiseAlignment_new_InvalidInput
                    (list_ascii_of_string "A-C") (list_ascii_of_string "G-C"))).
    right. exists 1. split; reflexivity.
  - apply (proj2 (PairwiseAlignment_new_InvalidInput
                    (list_ascii_of_string "A-C") (list_ascii_of_string "-GC"))).
    + reflexivity.
    + intros i t c Ha Hq [-> ->].
      do 3 (destruct i as [|i]; [vm_compute in Ha, Hq; congruence|]).
      discriminate.
Defined.

(** C9 as stated fails: a pair of equal length without a both-gap column
    is accepted although it holds a character outside [{A,C,G,T,-}]. *)
Lemma PairwiseAlignment_new_accepts_foreign_character :
  let a := list_ascii_of_string "N" in
  (exists c, c ∈ a /\ ~ base_or_gap c)
  /\ Align.PairwiseAlignment_new a a
     = Ok (Align.mkPairwiseAlignment a a (list_ascii_of_string "M")).
Proof.
  split.
  - exists "N"%char. split; [constructor|].
    unfold base_or_gap, GAP. intros [H|[H|[H|[H|H]]]]; discriminate.
  - reflexivity.
Qed.

(** ** Threading *)

Lemma FT_step_pos (UT UQ : str) (x : ascii) (st st' : Align.FTState) :
  Align.FromTranscript_step UT UQ x st = Some st' ->
  Align.tPos st <= Align.tPos st' /\ Align.qPos st <= Align.qPos st'.
Proof.
  unfold Align.FromTranscript_step.
  repeat match goal with
         | |- context [if ?b then _ else _] => destruct b
         end; intros H; try discriminate; injection H as <-; simpl; lia.
Qed.

Lemma FT_loop_pos (UT UQ x : str) :
  forall st st', Align.FromTranscript_loop UT UQ x st = Some st' ->
    Align.tPos st <= Align.tPos st' /\ Align.qPos st <= Align.qPos st'.
Proof.
  induction x as [|c x IH]; intros st st' H; simpl in H.
  - injection H as <-. lia.
  - destruct (Align.FromTranscript_step UT UQ c st) as [st1|] eqn:E; [|discriminate].
    apply FT_step_pos in E. apply IH in H. lia.
Qed.

Lemma drop_char_at (s : str) (i : nat) :
  i < length s -> drop i s = char_at s i :: drop (S i) s.
Proof.
  intros H. destruct (lookup_lt_is_Some_2 s i H) as [c Hc].
  rewrite (char_at_lookup s i c Hc). now apply drop_S.
Qed.

(** A run of the loop that ends with both strings consumed exactly is a
    threading of what was left of them. *)
Lemma FT_loop_threads (UT UQ x : str) :
  forall st st',
    Align.FromTranscript_loop UT UQ x st = Some st' ->
    Align.tPos st' = length UT -> Align.qPos st' = length UQ ->
    threads x (drop (Align.tPos st) UT) (drop (Align.qPos st) UQ).
Proof.
  induction x as [|c x IH]; intros st st' H Ht Hq; simpl in H.
  - injection H as <-. rewrite Ht, Hq, !drop_all. constructor.
  - destruct (Align.FromTranscript_step UT UQ c st) as [st1|] eqn:E; [|discriminate].
    pose proof (FT_loop_pos _ _ _ _ _ H) as [Hp1 Hp2].
    specialize (IH st1 st' H Ht Hq).
    destruct (transcript_char_dec c) as [[-> | [-> | [-> | ->]]] | Hc].
    + rewrite FT_step_M in E. destruct (_ || _); [discriminate|]. cbv zeta in E.
      destruct (negb _) eqn:Eq in E; [discriminate|]. injection E as <-.
      simpl in *. apply negb_false_iff in Eq.
      rewrite (proj2 (Nat.ltb_lt _ _)) in Eq by lia.
      rewrite (proj2 (Nat.ltb_lt (Align.qPos st) _)) in Eq by lia.
      apply Ascii.eqb_eq in Eq.
      rewrite (drop_char_at UT) by lia. rewrite (drop_char_at UQ) by lia.
      now constructor.
    + rewrite FT_step_R in E. destruct (_ || _); [discriminate|]. cbv zeta in E.
      destruct (Ascii.eqb _ _) eqn:Eq in E; [discriminate|]. injection E as <-.
      simpl in *.
      rewrite (proj2 (Nat.ltb_lt _ _)) in Eq by lia.
      rewrite (proj2 (Nat.ltb_lt (Align.qPos st) _)) in Eq by lia.
      apply Ascii.eqb_neq in Eq.
      rewrite (drop_char_at UT) by lia. rewrite (drop_char_at UQ) by lia.
      now constructor.
    + rewrite FT_step_I in E. destruct (_ || _); [discriminate|]. cbv zeta in E.
      injection E as <-. simpl in *.
      rewrite (drop_char_at UQ) by lia. now constructor.
    + rewrite FT_step_D in E. destruct (_ || _); [discriminate|]. cbv zeta in E.
      injection E as <-. simpl in *.
      rewrite (drop_char_at UT) by lia. now constructor.
    + rewrite FT_step_other in E by assumption. discriminate.
Qed.

(** Conversely a threading drives the loop to the end of both strings; for
    gap-free strings the rows it builds strip back to the strings and have
    the threaded transcript as their column transcript. *)
Lemma threads_FT_loop (x T Q : str) :
  threads x T Q ->
  forall (UTpre UQpre : str) (st : Align.FTState),
    Align.tPos st = length UTpre -> Align.qPos st = length UQpre ->
    exists at_ aq,
      Align.FromTranscript_loop (UTpre ++ T) (UQpre ++ Q) x st
      = Some (Align.mkFT (Align.alnTarget st ++ at_) (Align.alnQuery st ++ aq)
                         (length (UTpre ++ T)) (length (UQpre ++ Q)))
      /\ length at_ = length aq
      /\ (gap_free T -> gap_free Q ->
          strip_gaps at_ = T /\ strip_gaps aq = Q /\ columns at_ aq = Ok x).
Proof.
  induction 1 as [|x t q T Q Heq Hth IH|x t q T Q Hne Hth IH|x q T Q Hth IH|x t T Q Hth IH];
    intros UTpre UQpre st Ht Hq.
  - exists [], []. simpl. rewrite !app_nil_r. split; [|split; [reflexivity|]].
    + destruct st; simpl in *; subst; reflexivity.
    + intros _ _. repeat split; reflexivity.
  - subst q. simpl Align.FromTranscript_loop. rewrite FT_step_M. rewrite Ht, Hq.
    repeat ltb_false. simpl orb. cbv iota. repeat ltb_true. cbv zeta.
    rewrite !char_at_middle. rewrite Ascii.eqb_refl. simpl negb. cbv iota.
    destruct (IH (UTpre ++ [t]) (UQpre ++ [t])
                (Align.mkFT (Align.alnTarget st ++ [t]) (Align.alnQuery st ++ [t])
                            (S (length UTpre)) (S (length UQpre))))
      as (at_ & aq & Hl & Hlen & Hgf);
      try (simpl; rewrite length_app; simpl; lia).
    exists (t :: at_), (t :: aq).
    rewrite <- !app_assoc in Hl. simpl in Hl. rewrite Hl.
    split; [now rewrite <- !app_assoc|]. split; [simpl; lia|].
    intros [Hg1 HgT]%gap_free_cons [_ HgQ]%gap_free_cons.
    destruct (Hgf HgT HgQ) as (H1 & H2 & H3).
    rewrite !strip_gaps_base by assumption. rewrite H1, H2. repeat split.
    simpl. rewrite H3.
    destruct (column_code_cases t t)
      as [(-> & _ & _)|[(_ & _ & E)|[(-> & ? & _)|[(? & -> & _)|(_ & _ & ? & _)]]]];
      try congruence.
    now rewrite E.
  - simpl Align.FromTranscript_loop. rewrite FT_step_R. rewrite Ht, Hq.
    repeat ltb_false. simpl orb. cbv iota. repeat ltb_true. cbv zeta.
    rewrite !char_at_middle. rewrite (proj2 (Ascii.eqb_neq t q)) by assumption.
    destruct (IH (UTpre ++ [t]) (UQpre ++ [q])
                (Align.mkFT (Align.alnTarget st ++ [t]) (Align.alnQuery st ++ [q])
                            (S (length UTpre)) (S (length UQpre))))
      as (at_ & aq & Hl & Hlen & Hgf);
      try (simpl; rewrite length_app; simpl; lia).
    exists (t :: at_), (q :: aq).
    rewrite <- !app_assoc in Hl. simpl in Hl. rewrite Hl.
    split; [now rewrite <- !app_assoc|]. split; [simpl; lia|].
    intros [Hg1 HgT]%gap_free_cons [Hg2 HgQ]%gap_free_cons.
    destruct (Hgf HgT HgQ) as (H1 & H2 & H3).
    rewrite !strip_gaps_base by assumption. rewrite H1, H2. repeat split.
    simpl. rewrite H3.
    destruct (column_code_cases t q)
      as [(-> & _ & _)|[(? & _ & _)|[(-> & ? & _)|[(? & -> & _)|(_ & _ & _ & E)]]]];
      try congruence.
    now rewrite E.
  - simpl Align.FromTranscript_loop. rewrite FT_step_I. rewrite Ht, Hq.
    repeat ltb_false. simpl orb. cbv iota. repeat ltb_true. cbv zeta.
    rewrite !char_at_middle.
    destruct (IH UTpre (UQpre ++ [q])
                (Align.mkFT (Align.alnTarget st ++ [GAP]) (Align.alnQuery st ++ [q])
                            (length UTpre) (S (length UQpre))))
      as (at_ & aq & Hl & Hlen & Hgf);
      try (simpl; rewrite ?length_app; simpl; lia).
    exists (GAP :: at_), (q :: aq).
    rewrite <- !app_assoc in Hl. simpl in Hl. rewrite Hl.
    split; [now rewrite <- !app_assoc|]. split; [simpl; lia|].
    intros HgT [Hg2 HgQ]%gap_free_cons.
    destruct (Hgf HgT HgQ) as (H1 & H2 & H3).
    rewrite strip_gaps_gap, strip_gaps_base by assumption. rewrite H1, H2.
    repeat split. simpl. rewrite H3.
    destruct (column_code_cases GAP q)
      as [(_ & -> & _)|[(? & ? & _)|[(_ & _ & E)|[(? & _ & _)|(? & _ & _ & _)]]]];
      try congruence.
    now rewrite E.
  - simpl Align.FromTranscript_loop. rewrite FT_step_D. rewrite Ht, Hq.
    repeat ltb_false. simpl orb. cbv iota. repeat ltb_true. cbv zeta.
    rewrite !char_at_middle.
    destruct (IH (UTpre ++ [t]) UQpre
                (Align.mkFT (Align.alnTarget st ++ [t]) (Align.alnQuery st ++ [GAP])
                            (S (length UTpre)) (length UQpre)))
      as (at_ & aq & Hl & Hlen & Hgf);
      try (simpl; rewrite ?length_app; simpl; lia).
    exists (t :: at_), (GAP :: aq).
    rewrite <- !app_assoc in Hl. simpl in Hl. rewrite Hl.
    split; [now rewrite <- !app_assoc|]. split; [simpl; lia|].
    intros [Hg1 HgT]%gap_free_cons HgQ.
    destruct (Hgf HgT HgQ) as (H1 & H2 & H3).
    rewrite strip_gaps_gap, strip_gaps_base by assumption. rewrite H1, H2.
    repeat split. simpl. rewrite H3.
    destruct (column_code_cases t GAP)
      as [(-> & _ & _)|[(? & ? & _)|[(? & ? & _)|[(_ & _ & E)|(_ & ? & _ & _)]]]];
      try congruence.
    now rewrite E.
Qed.

(** The [NULL] result characterises the transcripts that do not thread,
    whatever characters the two strings hold. *)
Lemma FromTranscript_null_iff (x T Q : str) :
  Align.FromTranscript x T Q = Ok None <-> ~ threads x T Q.
Proof.
  split.
  - intros Hnull Hth.
    destruct (threads_FT_loop x T Q Hth [] [] (Align.mkFT [] [] 0 0) eq_refl eq_refl)
      as (at_ & aq & Hl & _ & _).
    simpl in Hl. unfold Align.FromTranscript in Hnull. rewrite Hl in Hnull.
    simpl in Hnull. rewrite !Nat.eqb_refl in Hnull. simpl in Hnull.
    destruct (Align.PairwiseAlignment_new at_ aq); discriminate.
  - intros Hnth. unfold Align.FromTranscript.
    destruct (Align.FromTranscript_loop T Q x (Align.mkFT [] [] 0 0)) as [st|] eqn:Hl;
      [|reflexivity].
    destruct (Nat.eqb_spec (Align.tPos st) (length T)) as [Ht|Ht]; [|reflexivity].
    destruct (Nat.eqb_spec (Align.qPos st) (length Q)) as [Hq|Hq]; [|reflexivity].
    exfalso. apply Hnth.
    apply (FT_loop_threads T Q x _ _ Hl Ht Hq).
Qed.

(** The call settles the question: either the transcript threads, or the
    result is [NULL]. *)
Lemma FromTranscript_threads_or_null (x T Q : str) :
  threads x T Q \/ Align.FromTranscript x T Q = Ok None.
Proof.
  unfold Align.FromTranscript.
  destruct (Align.FromTranscript_loop T Q x (Align.mkFT [] [] 0 0)) as [st|] eqn:Hl;
    [|right; reflexivity].
  destruct (Nat.eqb_spec (Align.tPos st) (length T)) as [Ht|Ht]; [|right; reflexivity].
  destruct (Nat.eqb_spec (Align.qPos st) (length Q)) as [Hq|Hq]; [|right; reflexivity].
  left. apply (FT_loop_threads T Q x _ _ Hl Ht Hq).
Qed.

(** On unaligned strings a threading transcript gives the alignment back. *)
Lemma FromTranscript_threads_Some (x T Q : str) :
  gap_free T -> gap_free Q -> threads x T Q ->
  exists aln,
    Align.FromTranscript x T Q = Ok (Some aln)
    /\ strip_gaps (Align.Target aln) = T
    /\ strip_gaps (Align.Query aln) = Q
    /\ Align.Transcript aln = x.
Proof.
  intros HgT HgQ Hth.
  destruct (threads_FT_loop x T Q Hth [] [] (Align.mkFT [] [] 0 0) eq_refl eq_refl)
    as (at_ & aq & Hl & Hlen & Hgf).
  destruct (Hgf HgT HgQ) as (H1 & H2 & H3).
  exists (Align.mkPairwiseAlignment at_ aq x).
  simpl in Hl. unfold Align.FromTranscript. rewrite Hl. simpl.
  rewrite !Nat.eqb_refl. simpl.
  rewrite PairwiseAlignment_new_columns by assumption. rewrite H3. simpl.
  auto.
Qed.

(** C8. For every transcript and every pair of unaligned strings (strings
    that hold no gap character), [FromTranscript] returns [NULL] exactly
    when the transcript does not thread through the two strings, it never
    throws, and when the transcript threads it returns an alignment whose
    gap-stripped rows are the two strings and whose transcript is the one
    given. *)
Theorem FromTranscript_threads (x T Q : str) :
  gap_free T -> gap_free Q ->
  (Align.FromTranscript x T Q = Ok None <-> ~ threads x T Q)
  /\ (forall e, Align.FromTranscript x T Q <> Throw e)
  /\ (threads x T Q ->
      exists aln,
        Align.FromTranscript x T Q = Ok (Some aln)
        /\ strip_gaps (Align.Target aln) = T
        /\ strip_gaps (Align.Query aln) = Q
        /\ Align.Transcript aln = x).
Proof.
  intros HgT HgQ.
  split; [exact (FromTranscript_null_iff x T Q)|].
  split; [|exact (FromTranscript_threads_Some x T Q HgT HgQ)].
  intros e He.
  destruct (FromTranscript_threads_or_null x T Q) as [Hth|Hnull].
  - destruct (FromTranscript_threads_Some x T Q HgT HgQ Hth) as (aln & Hs & _).
    rewrite Hs in He. discriminate He.
  - rewrite Hnull in He. discriminate He.
Qed.

Lemma FromTranscript_threads_witness :
  (forall e, Align.FromTranscript (list_ascii_of_string "MRID")
               (list_ascii_of_string "GAT") (list_ascii_of_string "GCC") <> Throw e)
  /\ exists aln,
       Align.FromTranscript (list_ascii_of_string "MRID")
         (list_ascii_of_string "GAT") (list_ascii_of_string "GCC") = Ok (Some aln)
       /\ strip_gaps (Align.Target aln) = list_ascii_of_string "GAT"
       /\ strip_gaps (Align.Query aln) = list_ascii_of_string "GCC"
       /\ Align.Transcript aln = list_ascii_of_string "MRID".
Proof.
  assert (HgT : gap_free (list_ascii_of_string "GAT")).
  { unfold gap_free. apply (bool_decide_unpack _). vm_compute. exact I. }
  assert (HgQ : gap_free (list_ascii_of_string "GCC")).
  { unfold gap_free. apply (bool_decide_unpack _). vm_compute. exact I. }
  destruct (FromTranscript_threads (list_ascii_of_string "MRID")
              (list_ascii_of_string "GAT") (list_ascii_of_string "GCC")
              HgT HgQ) as (_ & Hnothrow & Hsome).
  split; [exact Hnothrow|].
  apply Hsome. simpl. repeat constructor. discriminate.
Defined.

(** The restriction to unaligned strings matters for the last two parts
    only: on strings that hold the gap character a transcript can thread
    and the constructor the call ends with still throws. *)
Lemma FromTranscript_throws_on_gap_input :
  threads (list_ascii_of_string "M") (list_ascii_of_string "-") (list_ascii_of_string "-")
  /\ Align.FromTranscript (list_ascii_of_string "M")
       (list_ascii_of_string "-") (list_ascii_of_string "-")
     = Throw InvalidInputError.
Proof.
  split.
  - simpl. repeat constructor.
  - reflexivity.
Qed.

(** * Coordinate lifting *)

Lemma lift_loop_spec (x : str) :
  Forall Align.transcript_char x ->
  forall st, exists st',
    Align.lift_loop x st = Ok st'
    /\ Align.ntp st' ++ [Align.queryPos st']
       = Align.ntp st ++ Align.spec_positions (Align.queryPos st) x
    /\ Align.targetPos st' = Align.targetPos st + Align.targetLength x
    /\ Align.queryPos st' = Align.queryPos st + Align.queryLength x.
Proof.
  induction 1 as [|c x Hc Hx IH]; intros st.
  - exists st. unfold Align.targetLength, Align.queryLength. simpl.
    repeat split; try reflexivity; lia.
  - destruct Hc as [-> | [-> | [-> | ->]]]; simpl;
      match goal with
      | |- context [Align.lift_loop x ?s] =>
          destruct (IH s) as (st' & Hl & Hn & Ht & Hq)
      end; simpl in Hl, Hn, Ht, Hq; exists st';
      (split; [exact Hl|]); rewrite Hn, Ht, Hq; unfold Align.targetLength, Align.queryLength;
      simpl; rewrite <- ?app_assoc; simpl; repeat split; lia.
Qed.

Lemma spec_positions_length (x : str) (q : nat) :
  length (Align.spec_positions q x) = Align.targetLength x + 1.
Proof.
  revert q. unfold Align.targetLength.
  induction x as [|c x IH]; intros q; [reflexivity|].
  simpl. unfold Align.addsToTarget.
  destruct ((c =? "M")%char || (c =? "R")%char); simpl; [now rewrite IH|].
  destruct (c =? "D")%char; simpl; now rewrite IH.
Qed.

Lemma spec_positions_lower (x : str) :
  forall q i a, Align.spec_positions q x !! i = Some a -> q <= a.
Proof.
  induction x as [|c x IH]; intros q i a H; simpl in H.
  - destruct i; [injection H as <-; lia | discriminate].
  - destruct ((c =? "M")%char || (c =? "R")%char).
    { destruct i; simpl in H; [injection H as <-; lia|]. apply IH in H. lia. }
    destruct (c =? "D")%char.
    { destruct i; simpl in H; [injection H as <-; lia|]. apply IH in H. lia. }
    apply IH in H. lia.
Qed.

Lemma spec_positions_mono (x : str) :
  forall q i j a b,
    i <= j ->
    Align.spec_positions q x !! i = Some a ->
    Align.spec_positions q x !! j = Some b ->
    a <= b.
Proof.
  induction x as [|c x IH]; intros q i j a b Hij Ha Hb; simpl in Ha, Hb.
  - destruct i, j; simpl in *; try discriminate.
    injection Ha as <-; injection Hb as <-; lia.
  - destruct ((c =? "M")%char || (c =? "R")%char).
    { destruct i, j; simpl in *; try lia.
      - injection Ha as <-; injection Hb as <-; lia.
      - injection Ha as <-. apply spec_positions_lower in Hb. lia.
      - eapply (IH (S q) i j); eauto; lia. }
    destruct (c =? "D")%char.
    { destruct i, j; simpl in *; try lia.
      - injection Ha as <-; injection Hb as <-; lia.
      - injection Ha as <-. apply spec_positions_lower in Hb. lia.
      - eapply (IH q i j); eauto; lia. }
    eapply IH; eauto.
Qed.

Lemma spec_positions_last (x : str) :
  Forall Align.transcript_char x ->
  forall q, Align.spec_positions q x !! Align.targetLength x = Some (q + Align.queryLength x).
Proof.
  unfold Align.targetLength, Align.queryLength.
  induction 1 as [|c x Hc Hx IH]; intros q.
  - simpl. f_equal. lia.
  - destruct Hc as [-> | [-> | [-> | ->]]]; simpl; rewrite IH; f_equal; lia.
Qed.

(** C7. For every transcript over [{M,R,I,D}], [TargetToQueryPositions]
    returns the vector the per-symbol rules produce; it has
    [targetLength + 1] entries, its last entry is the query length, and its
    entries never decrease. *)
Theorem TargetToQueryPositions_lifting (x : str) :
  Forall Align.transcript_char x ->
  exists p,
    Align.TargetToQueryPositions x = Ok p
    /\ p = Align.spec_positions 0 x
    /\ length p = Align.targetLength x + 1
    /\ p !! Align.targetLength x = Some (Align.queryLength x)
    /\ (forall i j a b, i <= j -> p !! i = Some a -> p !! j = Some b -> a <= b).
Proof.
  intros Hx.
  destruct (lift_loop_spec x Hx (Align.mkLift [] 0 0)) as (st & Hl & Hn & _ & _).
  simpl in Hn. exists (Align.spec_positions 0 x).
  split; [|split; [reflexivity|split; [|split]]].
  - unfold Align.TargetToQueryPositions. rewrite Hl. simpl. now rewrite Hn.
  - apply spec_positions_length.
  - now rewrite spec_positions_last.
  - apply spec_positions_mono.
Qed.

Lemma TargetToQueryPositions_lifting_witness :
  exists p,
    Align.TargetToQueryPositions (list_ascii_of_string "MIDM") = Ok p
    /\ p = Align.spec_positions 0 (list_ascii_of_string "MIDM")
    /\ length p = Align.targetLength (list_ascii_of_string "MIDM") + 1
    /\ p !! Align.targetLength (list_ascii_of_string "MIDM")
       = Some (Align.queryLength (list_ascii_of_string "MIDM"))
    /\ (forall i j a b, i <= j -> p !! i = Some a -> p !! j = Some b -> a <= b).
Proof.
  apply (TargetToQueryPositions_lifting (list_ascii_of_string "MIDM")).
  simpl. unfold Align.transcript_char.
  repeat (apply Forall_cons; split; [tauto|]). apply Forall_nil_2.
Defined.

(** The examples of the source comment, evaluated.  (For [MIDM] the
    comment announces 0123; the loop emits the query position reached after
    the insertion for the deleted target base, hence 0223.) *)
Example lifting_examples :
  Align.TargetToQueryPositions (list_ascii_of_string "MMM") = Ok [0; 1; 2; 3]
  /\ Align.TargetToQueryPositions (list_ascii_of_string "DMM") = Ok [0; 0; 1; 2]
  /\ Align.TargetToQueryPositions (list_ascii_of_string "MDM") = Ok [0; 1; 1; 2]
  /\ Align.TargetToQueryPositions (list_ascii_of_string "IMM") = Ok [1; 2; 3]
  /\ Align.TargetToQueryPositions (list_ascii_of_string "MIM") = Ok [0; 2; 3]
  /\ Align.TargetToQueryPositions (list_ascii_of_string "MDIM") = Ok [0; 1; 2; 3]
  /\ Align.TargetToQueryPositions (list_ascii_of_string "MIDM") = Ok [0; 2; 2; 3]
  /\ Align.TargetToQueryPositions (list_ascii_of_string "MXM") = Throw InternalError.
Proof. repeat split; reflexivity. Qed.


(** * Needleman-Wunsch *)

Lemma mset_eq (m : Align.Matrix) (i j : nat) (v : Z) : Align.mset m i j v i j = v.
Proof. unfold Align.mset. now rewrite !Nat.eqb_refl. Qed.

Lemma mset_ne (m : Align.Matrix) (i j i' j' : nat) (v : Z) :
  i' <> i \/ j' <> j -> Align.mset m i j v i' j' = m i' j'.
Proof.
  intros H. unfold Align.mset.
  destruct (Nat.eqb_spec i' i), (Nat.eqb_spec j' j); simpl; try reflexivity.
  lia.
Qed.

(** A loop that stores [f k] in cell [(r k, c k)] for [k = 1 .. n], the
    cells being pairwise distinct. *)
Lemma init_loop_spec (r c : nat -> nat) (f : nat -> Z) (n : nat) (S0 : Align.Matrix) :
  (forall k k', r k = r k' -> c k = c k' -> k = k') ->
  (forall k, 1 <= k <= n ->
     fold_left (fun S k => Align.mset S (r k) (c k) (f k)) (seq 1 n) S0 (r k) (c k) = f k)
  /\ (forall i j, (forall k, 1 <= k <= n -> i <> r k \/ j <> c k) ->
     fold_left (fun S k => Align.mset S (r k) (c k) (f k)) (seq 1 n) S0 i j = S0 i j).
Proof.
  intros Hinj. induction n as [|n IH].
  - split; [intros k Hk; lia | reflexivity].
  - rewrite seq_S, fold_left_app. simpl. destruct IH as [IH1 IH2]. split.
    + intros k Hk. destruct (Nat.eq_dec k (S n)) as [->|Hne].
      * apply mset_eq.
      * rewrite mset_ne.
        -- apply IH1. lia.
        -- destruct (Nat.eq_dec (r k) (r (S n))) as [Hr|Hr]; [|auto].
           destruct (Nat.eq_dec (c k) (c (S n))) as [Hc|Hc]; [|auto].
           exfalso. apply Hne. now apply Hinj.
    + intros i j Hij. rewrite mset_ne by (apply Hij; lia).
      apply IH2. intros k Hk. apply Hij. lia.
Qed.

Section NeedlemanWunsch.
Variable params : Align.AlignParams.
Variables target query : str.

Lemma cell_ok_ext (S S' : Align.Matrix) (i j : nat) :
  S' i j = S i j -> S' (i - 1) (j - 1) = S (i - 1) (j - 1) ->
  S' (i - 1) j = S (i - 1) j -> S' i (j - 1) = S i (j - 1) ->
  cell_ok params target query S i j -> cell_ok params target query S' i j.
Proof. unfold cell_ok. intros -> -> -> ->. auto. Qed.

Lemma fill_row_spec (J i : nat) (S : Align.Matrix) :
  1 <= i ->
  (forall i' j', i' <> i \/ j' = 0 \/ J < j' ->
     Align.fill_row params target query J S i i' j' = S i' j')
  /\ (forall j, 1 <= j <= J ->
     cell_ok params target query (Align.fill_row params target query J S i) i j).
Proof.
  intros Hi. unfold Align.fill_row. induction J as [|J IH].
  - split; [reflexivity | intros j Hj; lia].
  - rewrite seq_S, fold_left_app. simpl.
    set (S1 := fold_left (Align.fill_cell params target query i) (seq 1 J) S) in *.
    destruct IH as [IH1 IH2]. split.
    + intros i' j' H. unfold Align.fill_cell. rewrite mset_ne by lia.
      apply IH1. lia.
    + intros j Hj. destruct (Nat.eq_dec j (Datatypes.S J)) as [->|Hne].
      * unfold cell_ok. unfold Align.fill_cell at 1. rewrite mset_eq.
        unfold Align.Max3, Align.diag_score, Align.ins_score, Align.del_score,
          Align.fill_cell.
        rewrite !mset_ne by lia. reflexivity.
      * apply (cell_ok_ext S1); [| | | |apply IH2; lia];
          unfold Align.fill_cell; rewrite mset_ne by lia; reflexivity.
Qed.

Lemma fill_rows_spec (I J : nat) (S : Align.Matrix) :
  (forall i' j', i' = 0 \/ I < i' \/ j' = 0 \/ J < j' ->
     fold_left (Align.fill_row params target query J) (seq 1 I) S i' j' = S i' j')
  /\ (forall i j, 1 <= i <= I -> 1 <= j <= J ->
     cell_ok params target query
       (fold_left (Align.fill_row params target query J) (seq 1 I) S) i j).
Proof.
  induction I as [|I IH].
  - split; [reflexivity | intros i j Hi; lia].
  - rewrite seq_S, fold_left_app. simpl.
    set (S1 := fold_left (Align.fill_row params target query J) (seq 1 I) S) in *.
    destruct IH as [IH1 IH2].
    destruct (fill_row_spec J (Datatypes.S I) S1) as [R1 R2]; [lia|].
    split.
    + intros i' j' H. rewrite R1 by lia. apply IH1. lia.
    + intros i j Hi Hj. destruct (Nat.eq_dec i (Datatypes.S I)) as [->|Hne].
      * apply R2. lia.
      * apply (cell_ok_ext S1); [| | | |apply IH2; lia]; apply R1; lia.
Qed.

(** The matrix [Align] works on once its four loops have run. *)
Lemma fillScore_spec (Score0 : Align.Matrix) :
  (forall j, j <= length target ->
     Align.fillScore params target query Score0 0 j
     = int_mul (Z.of_nat j) (Align.Delete params))
  /\ (forall i, i <= length query ->
     Align.fillScore params target query Score0 i 0
     = int_mul (Z.of_nat i) (Align.Insert params))
  /\ (forall i j, 1 <= i <= length query -> 1 <= j <= length target ->
     cell_ok params target query (Align.fillScore params target query Score0) i j).
Proof.
  unfold Align.fillScore.
  set (I := length query). set (J := length target).
  set (S0 := Align.mset Score0 0 0 0%Z).
  destruct (init_loop_spec (fun k => k) (fun _ => 0)
              (fun i => int_mul (Z.of_nat i) (Align.Insert params)) I S0)
    as [A1 A2]; [auto|].
  set (S1 := fold_left _ (seq 1 I) S0) in *.
  destruct (init_loop_spec (fun _ => 0) (fun k => k)
              (fun j => int_mul (Z.of_nat j) (Align.Delete params)) J S1)
    as [B1 B2]; [auto|].
  set (S2 := fold_left _ (seq 1 J) S1) in *.
  destruct (fill_rows_spec I J S2) as [C1 C2].
  split; [|split].
  - intros j Hj. rewrite C1 by lia. destruct j as [|j].
    + rewrite B2 by (intros k Hk; lia). rewrite A2 by (intros k Hk; lia).
      unfold S0. now rewrite mset_eq.
    + apply (B1 (Datatypes.S j)). lia.
  - intros i Hi. rewrite C1 by lia. destruct i as [|i].
    + rewrite B2 by (intros k Hk; lia). rewrite A2 by (intros k Hk; lia).
      unfold S0. now rewrite mset_eq.
    + rewrite B2 by (intros k Hk; lia). apply (A1 (Datatypes.S i)). lia.
  - exact C2.
Qed.

End NeedlemanWunsch.

(** ** The traceback *)

Lemma ArgMax3_cases (a b c : Z) :
  Align.ArgMax3 a b c = 0%Z \/ Align.ArgMax3 a b c = 1%Z \/ Align.ArgMax3 a b c = 2%Z.
Proof.
  unfold Align.ArgMax3.
  destruct ((b <=? a)%Z && (c <=? a)%Z); [auto|].
  destruct (c <=? b)%Z; auto.
Qed.

Lemma gap_free_char_at (s : str) (i : nat) :
  gap_free s -> i < length s -> char_at s i <> GAP.
Proof.
  intros Hg Hi Heq. destruct (lookup_lt_is_Some_2 s i Hi) as [c Hc].
  rewrite (char_at_lookup s i c Hc) in Heq. subst c.
  apply Hg. eapply list_elem_of_lookup_2. eassumption.
Qed.

Lemma take_char_at (s : str) (i : nat) :
  i < length s -> take (S i) s = take i s ++ [char_at s i].
Proof.
  intros Hi. destruct (lookup_lt_is_Some_2 s i Hi) as [c Hc].
  rewrite (char_at_lookup s i c Hc). now apply take_S_r.
Qed.

Lemma strip_gaps_snoc_base (s : str) (c : ascii) :
  c <> GAP -> strip_gaps (s ++ [c]) = strip_gaps s ++ [c].
Proof.
  intros H. rewrite strip_gaps_app. f_equal. now rewrite strip_gaps_base.
Qed.

Lemma strip_gaps_snoc_gap (s : str) : strip_gaps (s ++ [GAP]) = strip_gaps s.
Proof. rewrite strip_gaps_app, strip_gaps_gap. apply app_nil_r. Qed.

Lemma traceback_step_diag params target query fuel S i j raQ raT :
  Align.ArgMax3 (Align.diag_score params target query S (Datatypes.S i) (Datatypes.S j))
                (Align.ins_score params S (Datatypes.S i) (Datatypes.S j))
                (Align.del_score params S (Datatypes.S i) (Datatypes.S j)) = 0%Z ->
  Align.traceback params target query (Datatypes.S fuel) S (Datatypes.S i) (Datatypes.S j) raQ raT
  = Align.traceback params target query fuel S i j
      (raQ ++ [char_at query i]) (raT ++ [char_at target j]).
Proof. intros H. simpl. rewrite H. simpl. now rewrite !Nat.sub_0_r. Qed.

Lemma traceback_step_ins params target query fuel S i j raQ raT :
  j = 0 \/
  Align.ArgMax3 (Align.diag_score params target query S (Datatypes.S i) j)
                (Align.ins_score params S (Datatypes.S i) j)
                (Align.del_score params S (Datatypes.S i) j) = 1%Z ->
  Align.traceback params target query (Datatypes.S fuel) S (Datatypes.S i) j raQ raT
  = Align.traceback params target query fuel S i j
      (raQ ++ [char_at query i]) (raT ++ [GAP]).
Proof.
  intros [-> | H]; simpl.
  - now rewrite !Nat.sub_0_r.
  - destruct j as [|j]; simpl; [now rewrite !Nat.sub_0_r|].
    simpl in H. rewrite H. simpl. now rewrite !Nat.sub_0_r.
Qed.

Lemma traceback_step_del params target query fuel S i j raQ raT :
  i = 0 \/
  Align.ArgMax3 (Align.diag_score params target query S i (Datatypes.S j))
                (Align.ins_score params S i (Datatypes.S j))
                (Align.del_score params S i (Datatypes.S j)) = 2%Z ->
  Align.traceback params target query (Datatypes.S fuel) S i (Datatypes.S j) raQ raT
  = Align.traceback params target query fuel S i j
      (raQ ++ [GAP]) (raT ++ [char_at target j]).
Proof.
  intros [-> | H]; simpl.
  - now rewrite !Nat.sub_0_r.
  - destruct i as [|i]; simpl; [now rewrite !Nat.sub_0_r|].
    simpl in H. rewrite H. simpl. now rewrite !Nat.sub_0_r.
Qed.

(** The loop ends within [i + j] iterations; what it appends, read back to
    front, strips to the prefixes of the two strings still to align, and no
    column it appends holds two gaps. *)
Lemma traceback_spec params target query S :
  forall fuel i j raQ raT,
    i + j <= fuel -> i <= length query -> j <= length target ->
    exists cq ct,
      Align.traceback params target query fuel S i j raQ raT
      = Some (raQ ++ cq, raT ++ ct)
      /\ length cq = length ct
      /\ (gap_free target -> strip_gaps (rev ct) = take j target)
      /\ (gap_free query -> strip_gaps (rev cq) = take i query)
      /\ (gap_free target -> gap_free query -> Forall2 column_not_gap_gap ct cq).
Proof.
  induction fuel as [|fuel IH]; intros i j raQ raT Hf Hi Hj.
  - assert (i = 0) as -> by lia. assert (j = 0) as -> by lia.
    exists [], []. simpl. rewrite !app_nil_r. repeat split; auto; constructor.
  - destruct i as [|i], j as [|j].
    + exists [], []. simpl. rewrite !app_nil_r. repeat split; auto; constructor.
    + rewrite traceback_step_del by auto.
      destruct (IH 0 j (raQ ++ [GAP]) (raT ++ [char_at target j]))
        as (cq & ct & Hr & Hl & Ht & Hq & Hc); try lia.
      exists (GAP :: cq), (char_at target j :: ct). rewrite Hr, <- !app_assoc.
      split; [reflexivity|]. split; [simpl; lia|].
      split; [|split].
      * intros Hg. simpl rev. rewrite strip_gaps_snoc_base, Ht, take_char_at; auto.
        apply gap_free_char_at; auto.
      * intros Hg. simpl rev. rewrite strip_gaps_snoc_gap. auto.
      * intros Hg1 Hg2. constructor; [|auto].
        intros [H _]. revert H. apply gap_free_char_at; auto.
    + rewrite traceback_step_ins by auto.
      destruct (IH i 0 (raQ ++ [char_at query i]) (raT ++ [GAP]))
        as (cq & ct & Hr & Hl & Ht & Hq & Hc); try lia.
      exists (char_at query i :: cq), (GAP :: ct). rewrite Hr, <- !app_assoc.
      split; [reflexivity|]. split; [simpl; lia|].
      split; [|split].
      * intros Hg. simpl rev. rewrite strip_gaps_snoc_gap. auto.
      * intros Hg. simpl rev. rewrite strip_gaps_snoc_base, Hq, take_char_at; auto.
        apply gap_free_char_at; auto.
      * intros Hg1 Hg2. constructor; [|auto].
        intros [_ H]. revert H. apply gap_free_char_at; auto.
    + destruct (ArgMax3_cases
                  (Align.diag_score params target query S (Datatypes.S i) (Datatypes.S j))
                  (Align.ins_score params S (Datatypes.S i) (Datatypes.S j))
                  (Align.del_score params S (Datatypes.S i) (Datatypes.S j)))
        as [Hm | [Hm | Hm]].
      * rewrite traceback_step_diag by assumption.
        destruct (IH i j (raQ ++ [char_at query i]) (raT ++ [char_at target j]))
          as (cq & ct & Hr & Hl & Ht & Hq & Hc); try lia.
        exists (char_at query i :: cq), (char_at target j :: ct).
        rewrite Hr, <- !app_assoc.
        split; [reflexivity|]. split; [simpl; lia|].
        split; [|split].
        -- intros Hg. simpl rev. rewrite strip_gaps_snoc_base, Ht, take_char_at; auto.
           apply gap_free_char_at; auto.
        -- intros Hg. simpl rev. rewrite strip_gaps_snoc_base, Hq, take_char_at; auto.
           apply gap_free_char_at; auto.
        -- intros Hg1 Hg2. constructor; [|auto].
           intros [H _]. revert H. apply gap_free_char_at; auto.
      * rewrite traceback_step_ins by auto.
        destruct (IH i (Datatypes.S j) (raQ ++ [char_at query i]) (raT ++ [GAP]))
          as (cq & ct & Hr & Hl & Ht & Hq & Hc); try lia.
        exists (char_at query i :: cq), (GAP :: ct). rewrite Hr, <- !app_assoc.
        split; [reflexivity|]. split; [simpl; lia|].
        split; [|split].
        -- intros Hg. simpl rev. rewrite strip_gaps_snoc_gap. auto.
        -- intros Hg. simpl rev. rewrite strip_gaps_snoc_base, Hq, take_char_at; auto.
           apply gap_free_char_at; auto.
        -- intros Hg1 Hg2. constructor; [|auto].
           intros [_ H]. revert H. apply gap_free_char_at; auto.
      * rewrite traceback_step_del by auto.
        destruct (IH (Datatypes.S i) j (raQ ++ [GAP]) (raT ++ [char_at target j]))
          as (cq & ct & Hr & Hl & Ht & Hq & Hc); try lia.
        exists (GAP :: cq), (char_at target j :: ct). rewrite Hr, <- !app_assoc.
        split; [reflexivity|]. split; [simpl; lia|].
        split; [|split].
        -- intros Hg. simpl rev. rewrite strip_gaps_snoc_base, Ht, take_char_at; auto.
           apply gap_free_char_at; auto.
        -- intros Hg. simpl rev. rewrite strip_gaps_snoc_gap. auto.
        -- intros Hg1 Hg2. constructor; [|auto].
           intros [H _]. revert H. apply gap_free_char_at; auto.
Qed.

(** C2. In GLOBAL mode [Align] fills its score matrix so that row 0 holds
    [j * Delete], column 0 holds [i * Insert], and every interior cell
    [(i, j)] holds the maximum of the diagonal candidate (plus [Match] when
    [query[i-1] = target[j-1]], [Mismatch] otherwise), the insert candidate
    and the delete candidate; the score it reports is the cell
    [(|query|, |target|)].  Sums and products are those of C++ [int]. *)
Theorem Align_score_matrix (params : Align.AlignParams) (target query : str)
    (Score0 : Align.Matrix) :
  let S := Align.fillScore params target query Score0 in
  (forall j, j <= length target ->
     S 0 j = int_mul (Z.of_nat j) (Align.Delete params))
  /\ (forall i, i <= length query ->
     S i 0 = int_mul (Z.of_nat i) (Align.Insert params))
  /\ (forall i j, 1 <= i <= length query -> 1 <= j <= length target ->
     cell_ok params target query S i j)
  /\ (forall fuel, length target + length query <= fuel ->
     exists out,
       Align.Align fuel Score0 target query true (Align.mkAlignConfig params Align.GLOBAL)
       = Some out
       /\ Align.score_out out = Some (S (length query) (length target))).
Proof.
  cbv zeta. destruct (fillScore_spec params target query Score0) as (H1 & H2 & H3).
  repeat split; auto.
  intros fuel Hfuel. unfold Align.Align. simpl.
  destruct (traceback_spec params target query
              (Align.fillScore params target query Score0)
              fuel (length query) (length target) [] [])
    as (cq & ct & Hr & _); try lia.
  rewrite Hr. simpl. eexists. split; reflexivity.
Qed.

Lemma Align_score_matrix_witness :
  exists out,
    Align.Align 5 (fun _ _ => 7%Z) (list_ascii_of_string "GAT") (list_ascii_of_string "GT")
      true (Align.mkAlignConfig (Align.mkAlignParams 0 (-1) (-1) (-1)) Align.GLOBAL)
    = Some out
    /\ Align.score_out out
       = Some (Align.fillScore (Align.mkAlignParams 0 (-1) (-1) (-1))
                 (list_ascii_of_string "GAT") (list_ascii_of_string "GT")
                 (fun _ _ => 7%Z) 2 3).
Proof.
  apply (proj2 (proj2 (proj2
    (Align_score_matrix (Align.mkAlignParams 0 (-1) (-1) (-1))
       (list_ascii_of_string "GAT") (list_ascii_of_string "GT") (fun _ _ => 7%Z))))).
  simpl. lia.
Defined.

Example Align_GAT_GT :
  Align.Align 5 (fun _ _ => 7%Z) (list_ascii_of_string "GAT") (list_ascii_of_string "GT")
    true (Align.mkAlignConfig (Align.mkAlignParams 0 (-1) (-1) (-1)) Align.GLOBAL)
  = Some (Align.mkOutcome (Some (-1)%Z)
            (Ok (Align.mkPairwiseAlignment (list_ascii_of_string "GAT")
                   (list_ascii_of_string "G-T") (list_ascii_of_string "MDM")))).
Proof. vm_compute. reflexivity. Qed.

Lemma Forall2_no_gap_gap (a q : str) :
  Forall2 column_not_gap_gap a q -> no_gap_gap a q.
Proof.
  intros H i t c Ha Hq. exact (Forall2_lookup_lr _ _ _ _ _ _ H Ha Hq).
Qed.

(** C10 (amended). For every target and query that hold no ['-'], of any
    lengths, [Align] in GLOBAL mode returns an alignment: its two rows have
    equal length, stripping the gaps of the aligned target gives the target,
    stripping those of the aligned query gives the query, and no column
    holds ['-'] in both rows. *)
Theorem Align_global_alignment (params : Align.AlignParams) (target query : str)
    (Score0 : Align.Matrix) (want_score : bool) (fuel : nat) :
  gap_free target -> gap_free query -> length target + length query <= fuel ->
  exists aln score,
    Align.Align fuel Score0 target query want_score
      (Align.mkAlignConfig params Align.GLOBAL)
    = Some (Align.mkOutcome score (Ok aln))
    /\ length (Align.Target aln) = length (Align.Query aln)
    /\ strip_gaps (Align.Target aln) = target
    /\ strip_gaps (Align.Query aln) = query
    /\ no_gap_gap (Align.Target aln) (Align.Query aln).
Proof.
  intros Hgt Hgq Hfuel. unfold Align.Align. simpl.
  destruct (traceback_spec params target query
              (Align.fillScore params target query Score0)
              fuel (length query) (length target) [] [])
    as (cq & ct & Hr & Hl & Ht & Hq & Hc); try lia.
  rewrite Hr. simpl. unfold Align.Reverse.
  assert (Hlen : length (rev ct) = length (rev cq)) by (rewrite !length_rev; lia).
  assert (Hng : no_gap_gap (rev ct) (rev cq)).
  { apply Forall2_no_gap_gap. rewrite !rev_alt. apply Forall2_reverse, Hc; assumption. }
  destruct (columns_ok _ _ Hlen Hng) as [tr Htr].
  rewrite PairwiseAlignment_new_columns by assumption. rewrite Htr. simpl.
  eexists. eexists. split; [reflexivity|]. simpl.
  rewrite (Ht Hgt), (Hq Hgq), !take_ge by lia. auto.
Qed.

Lemma Align_global_alignment_witness :
  exists aln score,
    Align.Align 5 (fun _ _ => 0%Z) (list_ascii_of_string "GAT") (list_ascii_of_string "GT")
      true (Align.mkAlignConfig (Align.mkAlignParams 0 (-1) (-1) (-1)) Align.GLOBAL)
    = Some (Align.mkOutcome score (Ok aln))
    /\ length (Align.Target aln) = length (Align.Query aln)
    /\ strip_gaps (Align.Target aln) = list_ascii_of_string "GAT"
    /\ strip_gaps (Align.Query aln) = list_ascii_of_string "GT"
    /\ no_gap_gap (Align.Target aln) (Align.Query aln).
Proof.
  apply (Align_global_alignment (Align.mkAlignParams 0 (-1) (-1) (-1))
           (list_ascii_of_string "GAT") (list_ascii_of_string "GT")).
  - unfold gap_free. apply (bool_decide_unpack _). vm_compute. exact I.
  - unfold gap_free. apply (bool_decide_unpack _). vm_compute. exact I.
  - simpl. lia.
Defined.

(** C10 as stated ("any characters") fails: aligning ["-"] with ["-"] pairs
    the two characters in one column, which the constructor rejects. *)
Lemma Align_gap_characters_throw :
  Align.Align 2 (fun _ _ => 0%Z) (list_ascii_of_string "-") (list_ascii_of_string "-")
    false (Align.mkAlignConfig (Align.mkAlignParams 0 (-1) (-1) (-1)) Align.GLOBAL)
  = Some (Align.mkOutcome None (Throw InvalidInputError)).
Proof. vm_compute. reflexivity. Qed.

(** ** The score matrix when no sum overflows *)

Lemma int_wrap_small (z : Z) : (- 2 ^ 31 <= z < 2 ^ 31)%Z -> int_wrap z = z.
Proof. intros H. unfold int_wrap. rewrite Z.mod_small; lia. Qed.

Lemma nw_exact_S (params : Align.AlignParams) (target query : str) (i j : nat) :
  nw_exact params target query (S i) (S j)
  = Z.max (nw_exact params target query i j + nw_sub params target query (S i) (S j))%Z
          (Z.max (nw_exact params target query i (S j) + Align.Insert params)%Z
                 (nw_exact params target query (S i) j + Align.Delete params)%Z).
Proof. reflexivity. Qed.

Lemma nw_sub_bound (params : Align.AlignParams) (target query : str) (B : Z) (i j : nat) :
  params_bound params B -> (Z.abs (nw_sub params target query i j) <= B)%Z.
Proof.
  intros (H1 & H2 & _). unfold nw_sub. destruct (Ascii.eqb _ _); assumption.
Qed.

Lemma nw_exact_bound (params : Align.AlignParams) (target query : str) (B : Z) :
  params_bound params B ->
  forall i j, (Z.abs (nw_exact params target query i j) <= Z.of_nat (i + j) * B)%Z.
Proof.
  intros HB. pose proof HB as (H1 & H2 & H3 & H4).
  assert (HB0 : (0 <= B)%Z) by lia.
  induction i as [|i IHi]; intros j.
  - simpl nw_exact. rewrite Z.abs_mul. simpl Nat.add.
    rewrite (Z.abs_eq (Z.of_nat j)) by lia. nia.
  - induction j as [|j IHj].
    + simpl nw_exact. rewrite Z.abs_mul.
      rewrite (Z.abs_eq (Z.of_nat (S i))) by lia.
      replace (S i + 0) with (S i) by lia. nia.
    + rewrite nw_exact_S.
      pose proof (IHi j) as A1. pose proof (IHi (S j)) as A2.
      pose proof (nw_sub_bound params target query B (S i) (S j) HB) as A3.
      replace (Z.of_nat (S i + S j)) with (Z.of_nat (i + j) + 2)%Z by lia.
      replace (Z.of_nat (i + S j)) with (Z.of_nat (i + j) + 1)%Z in A2 by lia.
      replace (Z.of_nat (S i + j)) with (Z.of_nat (i + j) + 1)%Z in IHj by lia.
      nia.
Qed.

(** When the scores are bounded by [B] and [(|query| + |target|) * B]
    fits an [int], the matrix [Align] fills is the recurrence of the
    specification over the integers. *)
Lemma fillScore_exact (params : Align.AlignParams) (target query : str)
    (Score0 : Align.Matrix) (B : Z) :
  params_bound params B ->
  (Z.of_nat (length query + length target) * B < 2 ^ 31)%Z ->
  forall i j, i <= length query -> j <= length target ->
    Align.fillScore params target query Score0 i j = nw_exact params target query i j.
Proof.
  intros HB Hfit. pose proof HB as (H1 & H2 & H3 & H4).
  assert (HB0 : (0 <= B)%Z) by lia.
  destruct (fillScore_spec params target query Score0) as (R0 & C0 & Hcell).
  assert (Hsmall : forall i j z, i <= length query -> j <= length target ->
            (Z.abs z <= Z.of_nat (i + j) * B)%Z -> int_wrap z = z).
  { intros i j z Hi Hj Hz. apply int_wrap_small.
    assert (Z.of_nat (i + j) * B <= Z.of_nat (length query + length target) * B)%Z by nia.
    lia. }
  induction i as [|i IHi]; intros j Hi Hj.
  - rewrite R0 by assumption. unfold int_mul. simpl nw_exact.
    apply (Hsmall 0 j); [lia | assumption |].
    exact (nw_exact_bound params target query B HB 0 j).
  - induction j as [|j IHj].
    + rewrite C0 by assumption. unfold int_mul. simpl nw_exact.
      apply (Hsmall (S i) 0); [assumption | lia |].
      exact (nw_exact_bound params target query B HB (S i) 0).
    + rewrite (Hcell (S i) (S j)) by lia. rewrite nw_exact_S.
      pose proof (nw_exact_bound params target query B HB i j) as A1.
      pose proof (nw_exact_bound params target query B HB i (S j)) as A2.
      pose proof (nw_exact_bound params target query B HB (S i) j) as A3.
      pose proof (nw_sub_bound params target query B (S i) (S j) HB) as A4.
      unfold nw_sub in *.
      replace (S i - 1) with i in * by lia. replace (S j - 1) with j in * by lia.
      rewrite (IHi j), (IHi (S j)), IHj by lia.
      set (sub := if Ascii.eqb (char_at query i) (char_at target j)
                  then Align.Match params else Align.Mismatch params) in *.
      replace (Z.of_nat (i + S j)) with (Z.of_nat (i + j) + 1)%Z in A2 by lia.
      replace (Z.of_nat (S i + j)) with (Z.of_nat (i + j) + 1)%Z in A3 by lia.
      assert (E : Z.of_nat (S i + S j) = (Z.of_nat (i + j) + 2)%Z) by lia.
      unfold int_add.
      rewrite (Hsmall (S i) (S j) (nw_exact params target query i j + sub)%Z),
              (Hsmall (S i) (S j) (nw_exact params target query i (S j) + _)%Z),
              (Hsmall (S i) (S j) (nw_exact params target query (S i) j + _)%Z);
        try assumption; try reflexivity; rewrite E; nia.
Qed.

(** * Spanning-read tagging *)

Section TagSpan.
Context {F : Type} {fo : Poa.FloatOps F}.
Variables start end_ : Poa.VD.

Lemma info_update_same (m : Poa.VertexInfoMap) (v : Poa.VD)
    (f : Poa.PoaNode (F:=F) -> Poa.PoaNode) :
  Poa.info_update m v f v = f (m v).
Proof. unfold Poa.info_update. now rewrite Nat.eqb_refl. Qed.

Lemma info_update_other (m : Poa.VertexInfoMap) (v w : Poa.VD)
    (f : Poa.PoaNode (F:=F) -> Poa.PoaNode) :
  w <> v -> Poa.info_update m v f w = m w.
Proof.
  intros H. unfold Poa.info_update.
  now rewrite (proj2 (Nat.eqb_neq w v) H).
Qed.

Lemma tagSpan_loop_spec (l : list Poa.VD) :
  forall (spanning : bool) (info : Poa.VertexInfoMap (F:=F)) (v : Poa.VD),
    NoDup l ->
    (reaches_tagged start end_ l spanning v ->
     Poa.tagSpan_loop (Some start) (Some end_) l spanning info v
     = Poa.set_SpanningReads (int_add (Poa.SpanningReads (info v)) 1) (info v))
    /\ (~ reaches_tagged start end_ l spanning v ->
        Poa.tagSpan_loop (Some start) (Some end_) l spanning info v = info v).
Proof.
  induction l as [|w rest IH]; intros spanning info v Hnd.
  - split; [intros (j & Hj & _); discriminate | reflexivity].
  - apply NoDup_cons in Hnd as [Hw Hnd]. simpl Poa.tagSpan_loop.
    set (spanning' := if w =? start then true else spanning).
    assert (Hsp : spanning' = true <-> (spanning = true \/ w = start)).
    { unfold spanning'. destruct (Nat.eqb_spec w start); intuition congruence. }
    destruct (Nat.eqb_spec w end_) as [->|Hwe].
    + split; [|reflexivity].
      intros (j & _ & Hk & _). exfalso. apply (Hk 0); [lia | reflexivity].
    + set (info' := if spanning'
                    then Poa.info_update info w
                           (fun n => Poa.set_SpanningReads
                                       (int_add (Poa.SpanningReads n) 1) n)
                    else info).
      destruct (IH spanning' info' v Hnd) as [IH1 IH2].
      split.
      * intros (j & Hj & Hk & Hs). destruct j as [|j].
        -- injection Hj as <-.
           assert (Htrue : spanning' = true).
           { apply Hsp. destruct Hs as [Hs | (i & Hi & Hs)]; [auto|].
             assert (i = 0) as -> by lia. injection Hs as ->. auto. }
           rewrite IH2.
           ++ unfold info'. rewrite Htrue. now rewrite info_update_same.
           ++ intros (j & Hj & _). apply Hw. eapply list_elem_of_lookup_2. exact Hj.
        -- simpl in Hj.
           assert (Hvw : v <> w).
           { intros ->. apply Hw. eapply list_elem_of_lookup_2. exact Hj. }
           rewrite IH1.
           ++ unfold info'. destruct spanning'; [|reflexivity].
              now rewrite info_update_other.
           ++ exists j. split; [exact Hj|]. split.
              ** intros k Hkj. apply (Hk (S k)). lia.
              ** destruct Hs as [Hs | (i & Hi & Hs)].
                 --- left. apply Hsp. auto.
                 --- destruct i as [|i].
                     +++ injection Hs as ->. left. apply Hsp. auto.
                     +++ right. exists i. split; [lia | exact Hs].
      * intros Hnot. rewrite IH2.
        -- unfold info'. destruct spanning' eqn:Esp; [|reflexivity].
           apply info_update_other. intros ->. apply Hnot.
           exists 0. split; [reflexivity|]. split.
           ++ intros k Hk0. assert (k = 0) as -> by lia. simpl. congruence.
           ++ destruct (proj1 Hsp eq_refl) as [Hs | Hs]; [auto|].
              right. exists 0. split; [lia | simpl; congruence].
        -- intros (j & Hj & Hk & Hs). apply Hnot.
           exists (S j). split; [exact Hj|]. split.
           ++ intros [|k] Hkj; simpl; [congruence | apply Hk; lia].
           ++ destruct Hs as [Hs | (i & Hi & Hs)].
              ** destruct (proj1 Hsp Hs) as [Hs' | Hs']; [auto|].
                 right. exists 0. split; [lia | simpl; congruence].
              ** right. exists (S i). split; [lia | exact Hs].
Qed.

Lemma reaches_tagged_in_span (l : list Poa.VD) (v : Poa.VD) :
  reaches_tagged start end_ l false v <-> in_span l start end_ v.
Proof.
  unfold reaches_tagged, in_span. split.
  - intros (j & Hj & Hk & [Hs | (i & Hi & Hs)]); [discriminate|].
    exists i, j. auto.
  - intros (i & j & Hs & Hj & Hi & Hk). exists j. eauto 6.
Qed.

End TagSpan.


(** * The consensus path *)

Section ConsensusPath.
Context {F : Type} {fo : Poa.FloatOps F}.
Hypothesis Hord : FloatOrder fo.

Lemma Fgt_false_trans (a b c : F) :
  Poa.Fgt a b = false -> Poa.Fgt b c = false -> Poa.Fgt a c = false.
Proof.
  intros Hab Hbc. destruct (Poa.Fgt a c) eqn:Hac; [|reflexivity].
  destruct (Fgt_cotrans fo Hord a b c Hac); congruence.
Qed.

Lemma Fgt_true_false (a b c : F) :
  Poa.Fgt a b = true -> Poa.Fgt a c = false -> Poa.Fgt b c = false.
Proof.
  intros Hab Hac. destruct (Poa.Fgt b c) eqn:Hbc; [|reflexivity].
  rewrite (Fgt_trans fo Hord a b c Hab Hbc) in Hac. discriminate.
Qed.

Lemma Fgt_asym (a b : F) : Poa.Fgt a b = true -> Poa.Fgt b a = false.
Proof.
  intros Hab. destruct (Poa.Fgt b a) eqn:Hba; [|reflexivity].
  rewrite <- (Fgt_irrefl fo Hord a). symmetry. eapply Fgt_trans; eauto.
Qed.

Lemma set_ReachingScore_same (n : Poa.PoaNode (F:=F)) :
  Poa.set_ReachingScore (Poa.ReachingScore n) n = n.
Proof. now destruct n. Qed.

Lemma cp_edge_step (v : Poa.VD) (score : F) (st : Poa.CPState) (e : Poa.ED) :
  let rsc := edge_sum score st e in
  let st1 := Poa.cp_edge v score st e in
  (forall w, w <> v -> Poa.cp_info st1 w = Poa.cp_info st w)
  /\ (forall w, w <> v -> Poa.bestPrevVertex st1 !! w = Poa.bestPrevVertex st !! w)
  /\ ((Poa.Fgt rsc (Poa.ReachingScore (Poa.cp_info st v)) = true
       /\ Poa.cp_info st1 v = Poa.set_ReachingScore rsc (Poa.cp_info st v)
       /\ Poa.bestPrevVertex st1 !! v = Some (Some (Poa.source e)))
      \/ (Poa.Fgt rsc (Poa.ReachingScore (Poa.cp_info st v)) = false
          /\ Poa.cp_info st1 v = Poa.cp_info st v
          /\ Poa.bestPrevVertex st1 !! v = Poa.bestPrevVertex st !! v))
  /\ ((Poa.Fgt rsc (Poa.bestReachingScore st) = true
       /\ Poa.bestVertex st1 = Some v /\ Poa.bestReachingScore st1 = rsc)
      \/ (Poa.Fgt rsc (Poa.bestReachingScore st) = false
          /\ Poa.bestVertex st1 = Poa.bestVertex st
          /\ Poa.bestReachingScore st1 = Poa.bestReachingScore st)).
Proof.
  cbv zeta. unfold Poa.cp_edge, edge_sum.
  set (rsc := Poa.Fadd score (Poa.ReachingScore (Poa.cp_info st (Poa.source e)))).
  destruct (Poa.Fgt rsc (Poa.ReachingScore (Poa.cp_info st v))) eqn:E1;
    simpl; destruct (Poa.Fgt rsc (Poa.bestReachingScore st)) eqn:E2; simpl;
    (split; [intros w Hw; rewrite ?info_update_other by assumption; reflexivity|]);
    (split; [intros w Hw; rewrite ?lookup_insert_ne by congruence; reflexivity|]);
    split; try (left; split; [reflexivity|]); try (right; split; [reflexivity|]);
    rewrite ?info_update_same, ?lookup_insert_eq; auto.
Qed.

Lemma set_ReachingScore_twice (x y : F) (n : Poa.PoaNode (F:=F)) :
  Poa.set_ReachingScore x (Poa.set_ReachingScore y n) = Poa.set_ReachingScore x n.
Proof. reflexivity. Qed.

(** The loop over the in-edges of [v]: the reaching score of [v] ends as the
    highest of its initial value and the candidates of the edges, and the
    best reaching score seen so far as the highest of its initial value and
    those candidates. *)
Lemma cp_edges_spec (v : Poa.VD) (score : F) (es : list Poa.ED) :
  forall st : Poa.CPState,
    (forall e, e ∈ es -> Poa.source e <> v) ->
    let st' := fold_left (Poa.cp_edge v score) es st in
    let RS := fun s => Poa.ReachingScore (Poa.cp_info s v) in
    (forall w, w <> v -> Poa.cp_info st' w = Poa.cp_info st w)
    /\ (forall w, w <> v -> Poa.bestPrevVertex st' !! w = Poa.bestPrevVertex st !! w)
    /\ Poa.cp_info st' v = Poa.set_ReachingScore (RS st') (Poa.cp_info st v)
    /\ Poa.Fgt (RS st) (RS st') = false
    /\ (forall e, e ∈ es -> Poa.Fgt (edge_sum score st e) (RS st') = false)
    /\ ((RS st' = RS st /\ Poa.bestPrevVertex st' !! v = Poa.bestPrevVertex st !! v)
        \/ (exists e, e ∈ es /\ RS st' = edge_sum score st e
                      /\ Poa.bestPrevVertex st' !! v = Some (Some (Poa.source e))))
    /\ Poa.Fgt (Poa.bestReachingScore st) (Poa.bestReachingScore st') = false
    /\ (forall e, e ∈ es ->
          Poa.Fgt (edge_sum score st e) (Poa.bestReachingScore st') = false)
    /\ ((Poa.bestVertex st' = Poa.bestVertex st
         /\ Poa.bestReachingScore st' = Poa.bestReachingScore st)
        \/ (Poa.bestVertex st' = Some v
            /\ exists e, e ∈ es /\ Poa.bestReachingScore st' = edge_sum score st e)).
Proof.
  induction es as [|e es IH]; intros st Hsrc; cbv zeta.
  - simpl. split; [auto|]. split; [auto|].
    split; [now rewrite set_ReachingScore_same|].
    split; [apply (Fgt_irrefl fo Hord)|].
    split; [intros e He; inversion He|].
    split; [left; auto|].
    split; [apply (Fgt_irrefl fo Hord)|].
    split; [intros e He; inversion He|].
    left; auto.
  - simpl fold_left.
    destruct (cp_edge_step v score st e) as (A1 & A2 & A3 & A4).
    set (st1 := Poa.cp_edge v score st e) in *.
    assert (Hsrc' : forall e', e' ∈ es -> Poa.source e' <> v).
    { intros e' He'. apply Hsrc. now right. }
    destruct (IH st1 Hsrc') as (I1 & I2 & I3 & I4 & I5 & I6 & I7 & I8 & I9).
    set (st' := fold_left (Poa.cp_edge v score) es st1) in *.
    assert (Hsum : forall e', e' ∈ es -> edge_sum score st1 e' = edge_sum score st e').
    { intros e' He'. unfold edge_sum. rewrite A1; [reflexivity|]. now apply Hsrc'. }
    split; [intros w Hw; rewrite I1, A1 by assumption; reflexivity|].
    split; [intros w Hw; rewrite I2, A2 by assumption; reflexivity|].
    split.
    { rewrite I3. destruct A3 as [(_ & -> & _) | (_ & -> & _)]; reflexivity. }
    split.
    { destruct A3 as [(G & E & _) | (G & E & _)]; rewrite E in I4.
      - simpl in I4. eapply Fgt_true_false; eassumption.
      - exact I4. }
    split.
    { intros e' [-> | He']%elem_of_cons.
      - destruct A3 as [(G & E & _) | (G & E & _)]; rewrite E in I4.
        + exact I4.
        + eapply Fgt_false_trans; eassumption.
      - rewrite <- Hsum by assumption. now apply I5. }
    split.
    { destruct I6 as [(R & P) | (e' & He' & R & P)].
      - destruct A3 as [(G & E & P1) | (G & E & P1)].
        + right. exists e. split; [now left|]. rewrite R, E, P, P1. auto.
        + left. rewrite R, E, P, P1. auto.
      - right. exists e'. split; [now right|]. rewrite R, P, Hsum by assumption. auto. }
    split.
    { destruct A4 as [(G & _ & E) | (G & _ & E)]; rewrite E in I7.
      - eapply Fgt_true_false; eassumption.
      - exact I7. }
    split.
    { intros e' [-> | He']%elem_of_cons.
      - destruct A4 as [(G & _ & E) | (G & _ & E)]; rewrite E in I7.
        + exact I7.
        + eapply Fgt_false_trans; eassumption.
      - rewrite <- Hsum by assumption. now apply I8. }
    destruct I9 as [(V & B) | (V & e' & He' & B)].
    + destruct A4 as [(G & V1 & B1) | (G & V1 & B1)].
      * right. split; [congruence|]. exists e. split; [now left|]. congruence.
      * left. split; congruence.
    + right. split; [assumption|]. exists e'. split; [now right|].
      rewrite B. now apply Hsum.
Qed.

Lemma elem_of_in_edges (g : Poa.BoostGraph) (v : Poa.VD) (e : Poa.ED) :
  e ∈ Poa.in_edges v g <-> e ∈ Poa.edges g /\ Poa.target e = v.
Proof.
  unfold Poa.in_edges. rewrite !list_elem_of_In, List.filter_In, Nat.eqb_eq.
  reflexivity.
Qed.

Lemma node_score_fields (mode : Align.AlignMode) (minCoverage totalReads : Z)
    (n n' : Poa.PoaNode (F:=F)) :
  Poa.Reads n' = Poa.Reads n -> Poa.SpanningReads n' = Poa.SpanningReads n ->
  Poa.node_score mode minCoverage totalReads n'
  = Poa.node_score mode minCoverage totalReads n.
Proof. unfold Poa.node_score. now intros -> ->. Qed.

(** One vertex of the dynamic program. *)
Lemma cp_vertex_spec (g : Poa.BoostGraph) (mode : Align.AlignMode)
    (minCoverage totalReads : Z) (st : Poa.CPState) (v : Poa.VD) :
  (v, v) ∉ Poa.edges g ->
  let st' := Poa.cp_vertex g mode minCoverage totalReads st v in
  let score := Poa.node_score mode minCoverage totalReads (Poa.cp_info st v) in
  let RS0 := fun x => Poa.ReachingScore (Poa.cp_info st x) in
  let RS := fun x => Poa.ReachingScore (Poa.cp_info st' x) in
  (forall w, w <> v -> Poa.cp_info st' w = Poa.cp_info st w)
  /\ (forall w, w <> v -> Poa.bestPrevVertex st' !! w = Poa.bestPrevVertex st !! w)
  /\ Poa.cp_info st' v
     = Poa.set_ReachingScore (RS v) (Poa.set_Score score (Poa.cp_info st v))
  /\ Poa.Fgt score (RS v) = false
  /\ (forall u, (u, v) ∈ Poa.edges g -> Poa.Fgt (Poa.Fadd score (RS0 u)) (RS v) = false)
  /\ ((RS v = score /\ Poa.bestPrevVertex st' !! v = Some None)
      \/ (exists u, (u, v) ∈ Poa.edges g /\ RS v = Poa.Fadd score (RS0 u)
                    /\ Poa.bestPrevVertex st' !! v = Some (Some u)))
  /\ Poa.Fgt (Poa.bestReachingScore st) (Poa.bestReachingScore st') = false
  /\ (forall u, (u, v) ∈ Poa.edges g ->
        Poa.Fgt (Poa.Fadd score (RS0 u)) (Poa.bestReachingScore st') = false)
  /\ ((Poa.bestVertex st' = Poa.bestVertex st
       /\ Poa.bestReachingScore st' = Poa.bestReachingScore st)
      \/ (Poa.bestVertex st' = Some v
          /\ exists u, (u, v) ∈ Poa.edges g
                       /\ Poa.bestReachingScore st' = Poa.Fadd score (RS0 u))).
Proof.
  intros Hself. cbv zeta. unfold Poa.cp_vertex.
  set (score := Poa.node_score mode minCoverage totalReads (Poa.cp_info st v)).
  set (st0 := Poa.mkCP _ _ _ _).
  assert (Hsrc : forall e, e ∈ Poa.in_edges v g -> Poa.source e <> v).
  { intros [a b] [He Ht]%elem_of_in_edges Hs. simpl in *. subst. contradiction. }
  destruct (cp_edges_spec v score (Poa.in_edges v g) st0 Hsrc)
    as (E1 & E2 & E3 & E4 & E5 & E6 & E7 & E8 & E9).
  set (st' := fold_left (Poa.cp_edge v score) (Poa.in_edges v g) st0) in *.
  assert (Hinfo0 : forall w, w <> v -> Poa.cp_info st0 w = Poa.cp_info st w).
  { intros w Hw. unfold st0. simpl. now rewrite info_update_other. }
  assert (Hsum : forall u, (u, v) ∈ Poa.edges g ->
            (u, v) ∈ Poa.in_edges v g
            /\ edge_sum score st0 (u, v)
               = Poa.Fadd score (Poa.ReachingScore (Poa.cp_info st u))).
  { intros u Hu. assert (Hin : (u, v) ∈ Poa.in_edges v g)
      by (apply elem_of_in_edges; auto).
    split; [exact Hin|]. unfold edge_sum. rewrite Hinfo0; [reflexivity|].
    exact (Hsrc _ Hin). }
  assert (HRS0 : Poa.ReachingScore (Poa.cp_info st0 v) = score).
  { unfold st0. simpl. now rewrite info_update_same. }
  split; [intros w Hw; rewrite E1, Hinfo0 by assumption; reflexivity|].
  split.
  { intros w Hw. rewrite E2 by assumption. unfold st0. simpl.
    now rewrite lookup_insert_ne by congruence. }
  split.
  { rewrite E3. unfold st0. simpl. now rewrite info_update_same. }
  split; [now rewrite <- HRS0 at 1|].
  split.
  { intros u Hu. destruct (Hsum u Hu) as [Hin <-]. now apply E5. }
  split.
  { destruct E6 as [(R & P) | ([a b] & He & R & P)].
    - left. rewrite R, P, HRS0. unfold st0. simpl. now rewrite lookup_insert_eq.
    - right. pose proof He as [He1 Hb]%elem_of_in_edges. simpl in Hb. subst b.
      exists a. destruct (Hsum a He1) as [_ <-]. auto. }
  split; [exact E7|].
  split.
  { intros u Hu. destruct (Hsum u Hu) as [Hin <-]. now apply E8. }
  destruct E9 as [(V & B) | (V & [a b] & He & B)].
  - left. auto.
  - right. split; [exact V|].
    pose proof He as [He1 Hb]%elem_of_in_edges. simpl in Hb. subst b.
    exists a. destruct (Hsum a He1) as [_ <-]. auto.
Qed.

Lemma preds_before_cons (g : Poa.BoostGraph) (v : Poa.VD) (l : list Poa.VD) :
  preds_before g (v :: l) ->
  (forall u, (u, v) ∈ Poa.edges g -> u <> v /\ u ∉ l) /\ preds_before g l.
Proof.
  intros H. split.
  - intros u Hu. exact (H [] v l eq_refl u Hu).
  - intros l1 w l2 -> u Hu. exact (H (v :: l1) w l2 eq_refl u Hu).
Qed.

(** The loop over the sorted vertices. *)
Lemma cp_vertices_spec (g : Poa.BoostGraph) (mode : Align.AlignMode)
    (minCoverage totalReads : Z) (l : list Poa.VD) :
  forall st0 : Poa.CPState,
    NoDup l -> preds_before g l ->
    let stf := fold_left (Poa.cp_vertex g mode minCoverage totalReads) l st0 in
    let sc := fun x => Poa.node_score mode minCoverage totalReads (Poa.cp_info st0 x) in
    let RS := fun x => Poa.ReachingScore (Poa.cp_info stf x) in
    (forall w, w ∉ l -> Poa.cp_info stf w = Poa.cp_info st0 w)
    /\ (forall w, w ∉ l -> Poa.bestPrevVertex stf !! w = Poa.bestPrevVertex st0 !! w)
    /\ (forall w, Poa.node_score mode minCoverage totalReads (Poa.cp_info stf w) = sc w)
    /\ (forall v, v ∈ l -> reaching_ok g stf (sc v) v)
    /\ Poa.Fgt (Poa.bestReachingScore st0) (Poa.bestReachingScore stf) = false
    /\ (forall v u, v ∈ l -> (u, v) ∈ Poa.edges g ->
          Poa.Fgt (Poa.Fadd (sc v) (RS u)) (Poa.bestReachingScore stf) = false)
    /\ ((Poa.bestVertex stf = Poa.bestVertex st0
         /\ Poa.bestReachingScore stf = Poa.bestReachingScore st0)
        \/ (exists w u, w ∈ l /\ (u, w) ∈ Poa.edges g
              /\ Poa.bestVertex stf = Some w
              /\ Poa.bestReachingScore stf = Poa.Fadd (sc w) (RS u))).
Proof.
  induction l as [|v l IH]; intros st0 Hnd Hpb; cbv zeta.
  - simpl. split; [auto|]. split; [auto|]. split; [auto|].
    split; [intros v Hv; inversion Hv|].
    split; [apply (Fgt_irrefl fo Hord)|].
    split; [intros v u Hv; inversion Hv|]. left; auto.
  - apply NoDup_cons in Hnd as [Hv Hnd].
    apply preds_before_cons in Hpb as [Hpv Hpb].
    simpl fold_left.
    assert (Hself : (v, v) ∉ Poa.edges g).
    { intros H. destruct (Hpv v H) as [Hne _]. congruence. }
    destruct (cp_vertex_spec g mode minCoverage totalReads st0 v Hself)
      as (V1 & V2 & V3 & V4 & V5 & V6 & V7 & V8 & V9).
    set (st1 := Poa.cp_vertex g mode minCoverage totalReads st0 v) in *.
    destruct (IH st1 Hnd Hpb) as (L1 & L1' & L2 & L3 & L4 & L5 & L6).
    set (stf := fold_left (Poa.cp_vertex g mode minCoverage totalReads) l st1) in *.
    assert (Hsc : forall w,
              Poa.node_score mode minCoverage totalReads (Poa.cp_info st1 w)
              = Poa.node_score mode minCoverage totalReads (Poa.cp_info st0 w)).
    { intros w. destruct (Nat.eq_dec w v) as [->|Hw].
      - rewrite V3. now apply node_score_fields.
      - now rewrite V1. }
    assert (Hpred : forall u, (u, v) ∈ Poa.edges g ->
              Poa.cp_info stf u = Poa.cp_info st0 u).
    { intros u Hu. destruct (Hpv u Hu) as [Hne Hnl].
      rewrite L1 by assumption. now apply V1. }
    assert (Hfv : Poa.cp_info stf v = Poa.cp_info st1 v) by now apply L1.
    split.
    { intros w Hw. apply not_elem_of_cons in Hw as [Hwv Hwl].
      rewrite L1 by assumption. now apply V1. }
    split.
    { intros w Hw. apply not_elem_of_cons in Hw as [Hwv Hwl].
      rewrite L1' by assumption. now apply V2. }
    split; [intros w; rewrite L2; apply Hsc|].
    split.
    { intros w [-> | Hw]%elem_of_cons.
      - unfold reaching_ok. cbv zeta. rewrite Hfv.
        split; [rewrite V3; reflexivity|]. split; [exact V4|]. split.
        + intros u Hu. rewrite (Hpred u Hu). now apply V5.
        + destruct V6 as [(R & P) | (u & Hu & R & P)].
          * left. split; [exact R|]. rewrite L1' by assumption. exact P.
          * right. exists u. rewrite (Hpred u Hu).
            split; [exact Hu|]. split; [exact R|].
            rewrite L1' by assumption. exact P.
      - rewrite <- (Hsc w). now apply L3. }
    split; [eapply Fgt_false_trans; eassumption|].
    split.
    { intros w u [-> | Hw]%elem_of_cons Hu.
      - rewrite (Hpred u Hu). eapply Fgt_false_trans; [apply V8|]; eassumption.
      - rewrite <- (Hsc w). now apply L5. }
    destruct L6 as [(BV & B) | (w & u & Hw & Hu & BV & B)].
    + destruct V9 as [(BV1 & B1) | (BV1 & u & Hu & B1)].
      * left. split; congruence.
      * right. exists v, u. split; [now left|]. split; [exact Hu|].
        split; [congruence|]. rewrite (Hpred u Hu). congruence.
    + right. exists w, u. split; [now right|]. split; [exact Hu|].
      split; [exact BV|]. rewrite B. now rewrite (Hsc w).
Qed.

Lemma topological_order_middle (g : Poa.BoostGraph) (pre mid post : list Poa.VD) :
  topological_order g (pre ++ mid ++ post) ->
  NoDup mid /\ preds_before g mid /\ (forall x, x ∈ pre -> x ∉ mid).
Proof.
  intros [Hnd Hord']. split; [|split].
  - apply NoDup_app in Hnd as (_ & _ & Hnd). now apply NoDup_app in Hnd as (Hnd & _).
  - intros l1 v l2 -> u Hu.
    destruct (Hord' u v Hu) as (i & j & Hi & Hj & Hij).
    assert (Hv : (pre ++ (l1 ++ v :: l2) ++ post) !! (length pre + length l1) = Some v).
    { rewrite lookup_app_r by lia.
      replace (length pre + length l1 - length pre) with (length l1) by lia.
      rewrite <- app_assoc. rewrite lookup_app_r by lia.
      now rewrite Nat.sub_diag. }
    assert (j = length pre + length l1) as -> by (eapply NoDup_lookup; eassumption).
    split.
    + intros ->. assert (i = length pre + length l1) by (eapply NoDup_lookup; eassumption).
      lia.
    + intros [k Hk]%list_elem_of_lookup.
      assert (Hu2 : (pre ++ (l1 ++ v :: l2) ++ post) !! (length pre + length l1 + 1 + k)
                    = Some u).
      { rewrite lookup_app_r by lia.
        replace (length pre + length l1 + 1 + k - length pre) with (length l1 + (1 + k))
          by lia.
        rewrite <- app_assoc. rewrite lookup_app_r by lia.
        replace (length l1 + (1 + k) - length l1) with (S k) by lia.
        simpl. now apply lookup_app_l_Some. }
      assert (i = length pre + length l1 + 1 + k) by (eapply NoDup_lookup; eassumption).
      lia.
  - intros x Hx Hm. apply NoDup_app in Hnd as (_ & Hdis & _).
    apply (Hdis x Hx). apply elem_of_app. now left.
Qed.

Lemma pop_both_split (l : list Poa.VD) :
  l <> [] ->
  exists front post, l = [front] ++ Poa.pop_both l ++ post /\ head l = Some front.
Proof.
  destruct l as [|a rest]; [congruence|]. intros _.
  unfold Poa.pop_both. simpl tl.
  destruct rest as [|b rest'].
  - exists a, []. auto.
  - exists a, [List.last (b :: rest') 0]. split; [|reflexivity].
    change (a :: b :: rest'
            = a :: (removelast (b :: rest') ++ [List.last (b :: rest') 0])).
    f_equal. apply app_removelast_last. discriminate.
Qed.

End ConsensusPath.


(** ** The dynamic program on the graphs of the tests *)

Lemma FixedPoint_order : FloatOrder Poa.FixedPoint.
Proof.
  split; simpl.
  - intros a. rewrite Z.gtb_ltb. apply Z.ltb_irrefl.
  - intros a b c. rewrite !Z.gtb_ltb, !Z.ltb_lt. lia.
  - intros a b c. rewrite !Z.gtb_ltb, !Z.ltb_lt. lia.
Qed.

Lemma index_of_lookup (v : Poa.VD) (l : list Poa.VD) (i : nat) :
  index_of v l = Some i -> l !! i = Some v.
Proof.
  revert i. induction l as [|x l IH]; intros i H; simpl in H; [discriminate|].
  destruct (Nat.eqb_spec x v) as [->|Hne].
  - injection H as <-. reflexivity.
  - destruct (index_of v l) as [k|]; [|discriminate].
    injection H as <-. simpl. now apply IH.
Qed.

Lemma topological_orderb_sound (g : Poa.BoostGraph) (l : list Poa.VD) :
  topological_orderb g l = true -> topological_order g l.
Proof.
  unfold topological_orderb, topological_order.
  intros [Hnd Hall]%andb_true_iff. split; [now apply bool_decide_eq_true in Hnd|].
  intros u v Huv. rewrite forallb_forall in Hall.
  apply list_elem_of_In in Huv. specialize (Hall _ Huv). simpl in Hall.
  destruct (index_of u l) as [i|] eqn:Ei; [|discriminate].
  destruct (index_of v l) as [j|] eqn:Ej; [|discriminate].
  exists i, j. split; [now apply index_of_lookup|]. split; [now apply index_of_lookup|].
  now apply Nat.ltb_lt.
Qed.

(** The graphs agree with what the tests expect ([SmallExtraTests],
    [SmallMismatchTests], [TestVerboseGraphVizOutput]). *)
Example graph_GGG_TGGG_summary :
  graph_summary graph_GGG_TGGG
  = ([(0, 2); (2, 3); (3, 4); (4, 1); (5, 2); (0, 5)],
     [(0, "^"%char, 0%Z, 1%Z); (1, "$"%char, 0%Z, 0%Z); (2, "G"%char, 2%Z, 2%Z);
      (3, "G"%char, 2%Z, 2%Z); (4, "G"%char, 2%Z, 0%Z); (5, "T"%char, 1%Z, 0%Z)]).
Proof. vm_compute. reflexivity. Qed.

Example graph_GGG_TGG_summary :
  graph_summary graph_GGG_TGG
  = ([(0, 2); (2, 3); (3, 4); (4, 1); (5, 3); (0, 5)],
     [(0, "^"%char, 0%Z, 0%Z); (1, "$"%char, 0%Z, 0%Z); (2, "G"%char, 1%Z, 2%Z);
      (3, "G"%char, 2%Z, 2%Z); (4, "G"%char, 2%Z, 0%Z); (5, "T"%char, 1%Z, 0%Z)]).
Proof. vm_compute. reflexivity. Qed.

Example consensus_GGG_TGGG :
  option_map (Poa.sequenceAlongPath (Poa.vertexInfoMap_ graph_GGG_TGGG))
    (Poa.consensusPath dfs_topological_sort 10 Align.GLOBAL 0 graph_GGG_TGGG)
  = Some (list_ascii_of_string "GGG").
Proof. vm_compute. reflexivity. Qed.

Example consensus_GGG_TGG :
  option_map (Poa.sequenceAlongPath (Poa.vertexInfoMap_ graph_GGG_TGG))
    (Poa.consensusPath dfs_topological_sort 10 Align.GLOBAL 0 graph_GGG_TGG)
  = Some (list_ascii_of_string "GG").
Proof. vm_compute. reflexivity. Qed.



(** On the graph of reads [AGT], [CGT], [TG], [GG] the vertex of highest
    reaching score is the shared [G] (vertex 3, [3.9999], the path starting
    afresh there); the traceback nevertheless starts at the [T] after it
    (vertex 4, [3.9998]), whose reaching score comes from a predecessor. *)
Example consensusPath_start_not_highest :
  option_map
    (fun st => (Poa.bestVertex st, Poa.ReachingScore (Poa.cp_info st 4),
                Poa.ReachingScore (Poa.cp_info st 3)))
    (Poa.consensusPath_dp dfs_topological_sort Align.GLOBAL 0 graph_AGT_CGT_TG_GG)
  = Some (Some 4, 39998%Z, 39999%Z)
  /\ Poa.consensusPath dfs_topological_sort 10 Align.GLOBAL 0 graph_AGT_CGT_TG_GG
     = Some [3; 4].
Proof. split; vm_compute; reflexivity. Qed.


(** * Threading keeps the graph acyclic *)

Lemma edges_add_edge (g : Poa.BoostGraph) (u v a b : Poa.VD) :
  (a, b) ∈ Poa.edges (Poa.add_edge u v g)
  <-> (a, b) ∈ Poa.edges g \/ (a = u /\ b = v).
Proof.
  unfold Poa.add_edge. destruct (bool_decide_reflect ((u, v) ∈ Poa.edges g)) as [H|H].
  - split; [auto|]. intros [?|[-> ->]]; assumption.
  - simpl. rewrite elem_of_app, list_elem_of_singleton. split.
    + intros [?|[= -> ->]]; auto.
    + intros [?|[-> ->]]; auto.
Qed.

Lemma reaches_add_edge (g : Poa.BoostGraph) (u v a b : Poa.VD) :
  reaches (Poa.add_edge u v g) a b ->
  reaches g a b \/ (reaches g a u /\ reaches g v b).
Proof.
  unfold reaches. induction 1 as [a|a c b Hac Hcb IH].
  - left. constructor.
  - apply edges_add_edge in Hac as [Hac|[-> ->]].
    + destruct IH as [IH|[IH1 IH2]].
      * left. econstructor; eassumption.
      * right. split; [econstructor; eassumption | assumption].
    + right. split; [constructor|]. destruct IH as [IH|[_ IH]]; assumption.
Qed.

Lemma reaches_mono (g g' : Poa.BoostGraph) (a b : Poa.VD) :
  (forall e, e ∈ Poa.edges g -> e ∈ Poa.edges g') ->
  reaches g a b -> reaches g' a b.
Proof.
  intros Hsub. unfold reaches. apply rtc_subrel. intros x y. apply Hsub.
Qed.

Lemma tc_add_edge (g : Poa.BoostGraph) (u v a b : Poa.VD) :
  tc (edge_rel (Poa.add_edge u v g)) a b ->
  tc (edge_rel g) a b \/ (reaches g a u /\ reaches g v b).
Proof.
  induction 1 as [a b Hab|a c b Hac Hcb IH].
  - apply edges_add_edge in Hab as [Hab|[-> ->]].
    + left. now constructor.
    + right. split; constructor.
  - apply edges_add_edge in Hac as [Hac|[-> ->]].
    + destruct IH as [IH|[IH1 IH2]].
      * left. eapply tc_l; eassumption.
      * right. split; [|assumption]. eapply rtc_l; eassumption.
    + right. split; [constructor|].
      destruct IH as [IH|[_ IH]]; [now apply tc_rtc | assumption].
Qed.

(** An edge into a vertex that cannot reach its source closes no cycle. *)
Lemma acyclic_add_edge (g : Poa.BoostGraph) (u v : Poa.VD) :
  acyclic g -> ~ reaches g v u -> acyclic (Poa.add_edge u v g).
Proof.
  intros Hac Hvu x Hx. apply tc_add_edge in Hx as [Hx|[H1 H2]].
  - exact (Hac x Hx).
  - apply Hvu. unfold reaches in *. etrans; eassumption.
Qed.

Lemma reaches_no_in_edge (g : Poa.BoostGraph) (a n : Poa.VD) :
  (forall x, (x, n) ∉ Poa.edges g) -> reaches g a n -> a = n.
Proof.
  intros Hn H. apply rtc_inv_r in H as [H|(c & _ & Hc)]; [assumption|].
  exfalso. exact (Hn c Hc).
Qed.

Lemma reaches_no_out_edge (g : Poa.BoostGraph) (n b : Poa.VD) :
  (forall x, (n, x) ∉ Poa.edges g) -> reaches g n b -> b = n.
Proof.
  intros Hn H. apply rtc_inv in H as [H|(c & Hc & _)]; [auto|].
  exfalso. exact (Hn c Hc).
Qed.

Lemma acyclic_edge_back (g : Poa.BoostGraph) (a b : Poa.VD) :
  acyclic g -> (a, b) ∈ Poa.edges g -> ~ reaches g b a.
Proof.
  intros Hac Hab Hba. apply (Hac a). eapply tc_rtc_r; [|exact Hba].
  now constructor.
Qed.

Lemma reaches_edge_r (g : Poa.BoostGraph) (a b c : Poa.VD) :
  reaches g a b -> (b, c) ∈ Poa.edges g -> reaches g a c.
Proof. intros H Hbc. eapply rtc_r; eassumption. Qed.

Section Threading.
Context {F : Type} {fo : Poa.FloatOps F}.
Variable topological_sort : Poa.BoostGraph -> list Poa.VD.

Lemma PoaInv_ext (p p' : Poa.PoaGraphImpl (F:=F)) :
  Poa.edges (Poa.g_ p') = Poa.edges (Poa.g_ p) ->
  Poa.enterVertex_ p' = Poa.enterVertex_ p ->
  Poa.exitVertex_ p' = Poa.exitVertex_ p ->
  Poa.totalVertices_ p' = Poa.totalVertices_ p ->
  PoaInv p -> PoaInv p'.
Proof.
  intros He Hen Hex Ht [H1 H2 H3 H4 H5 H6 H7].
  split; rewrite ?He, ?Hen, ?Hex, ?Ht; auto.
  unfold acyclic, edge_rel in *. now rewrite He.
Qed.

(** Adding an edge between existing vertices, into a vertex that cannot
    reach the source. *)
Lemma PoaInv_add_edge (p : Poa.PoaGraphImpl (F:=F)) (u f : Poa.VD) :
  PoaInv p ->
  u < Poa.totalVertices_ p -> f < Poa.totalVertices_ p ->
  u <> Poa.exitVertex_ p -> f <> Poa.enterVertex_ p ->
  ~ reaches (Poa.g_ p) f u ->
  PoaInv (Poa.with_graph p (Poa.add_edge u f (Poa.g_ p))).
Proof.
  intros [H1 H2 H3 H4 H5 H6 H7] Hu Hf Hue Hfe Hr.
  split; simpl; auto.
  - now apply acyclic_add_edge.
  - intros x [Hx|[-> Hx]]%edges_add_edge; [exact (H3 x Hx) | congruence].
  - intros x [Hx|[Hx ->]]%edges_add_edge; [exact (H4 x Hx) | congruence].
  - intros a b [Hab|[-> ->]]%edges_add_edge; auto.
Qed.

(** Threading one base as a fresh vertex in front of [f]. *)
Lemma thread_one_inv (p : Poa.PoaGraphImpl (F:=F)) (c : ascii) (r : Z) (f : Poa.VD) :
  PoaInv p -> f < Poa.totalVertices_ p -> f <> Poa.enterVertex_ p ->
  let n := Poa.totalVertices_ p in
  let p1 := snd (Poa.addVertex c r p) in
  let p2 := Poa.with_graph p1 (Poa.add_edge n f (Poa.g_ p1)) in
  fst (Poa.addVertex c r p) = n
  /\ PoaInv p2
  /\ Poa.enterVertex_ p2 = Poa.enterVertex_ p
  /\ Poa.exitVertex_ p2 = Poa.exitVertex_ p
  /\ (forall e, e ∈ Poa.edges (Poa.g_ p) -> e ∈ Poa.edges (Poa.g_ p2))
  /\ Poa.totalVertices_ p2 = S (Poa.totalVertices_ p)
  /\ (forall x, x <> n -> reaches (Poa.g_ p2) n x -> reaches (Poa.g_ p) f x).
Proof.
  intros [H1 H2 H3 H4 H5 H6 H7] Hf Hfe. cbv zeta. simpl.
  set (n := Poa.totalVertices_ p).
  set (g1 := Poa.add_vertex n (Poa.g_ p)).
  assert (Hin : forall x, (x, n) ∉ Poa.edges g1).
  { intros x Hx. apply H5 in Hx. unfold n in Hx. lia. }
  assert (Hout : forall x, (n, x) ∉ Poa.edges g1).
  { intros x Hx. apply H5 in Hx. unfold n in Hx. lia. }
  split; [reflexivity|]. split; [|split; [reflexivity|split; [reflexivity|split; [|split]]]].
  - split; simpl; auto.
    + apply acyclic_add_edge; [exact H1|].
      intros Hr. apply (reaches_no_in_edge g1 f n Hin) in Hr. unfold n in Hr. lia.
    + intros x [Hx|[-> Hx]]%edges_add_edge; [exact (H3 x Hx) | congruence].
    + intros x [Hx|[Hx ->]]%edges_add_edge; [exact (H4 x Hx)|]. unfold n in Hx. lia.
    + intros a b [Hab|[-> ->]]%edges_add_edge.
      * apply H5 in Hab. lia.
      * unfold n. lia.
  - intros [a b] He. apply edges_add_edge. now left.
  - reflexivity.
  - intros x Hx Hr. apply reaches_add_edge in Hr as [Hr|[_ Hr]].
    + apply (reaches_no_out_edge g1 n x Hout) in Hr. congruence.
    + exact Hr.
Qed.

Lemma thread_bases_inv (n : nat) :
  forall (sequence : str) (i : nat) (f : Poa.VD) (p : Poa.PoaGraphImpl (F:=F))
         (i1 : nat) (f1 : Poa.VD) (p1 : Poa.PoaGraphImpl),
    PoaInv p -> f < Poa.totalVertices_ p -> f <> Poa.enterVertex_ p ->
    Poa.thread_bases n sequence i f p = (i1, f1, p1) ->
    PoaInv p1
    /\ Poa.enterVertex_ p1 = Poa.enterVertex_ p
    /\ Poa.exitVertex_ p1 = Poa.exitVertex_ p
    /\ (forall e, e ∈ Poa.edges (Poa.g_ p) -> e ∈ Poa.edges (Poa.g_ p1))
    /\ Poa.totalVertices_ p <= Poa.totalVertices_ p1
    /\ f1 < Poa.totalVertices_ p1
    /\ f1 <> Poa.enterVertex_ p1
    /\ (forall x, x < Poa.totalVertices_ p ->
          reaches (Poa.g_ p1) f1 x -> reaches (Poa.g_ p) f x).
Proof.
  induction n as [|n IH]; intros sequence i f p i1 f1 p1 Hinv Hf Hfe Heq.
  - simpl in Heq. injection Heq as <- <- <-.
    split; [exact Hinv|]. repeat split; auto.
  - simpl in Heq.
    destruct (thread_one_inv p (char_at sequence (i - 1)) 1%Z f Hinv Hf Hfe)
      as (_ & T2 & T3 & T4 & T5 & T6 & T7).
    cbv zeta in T2, T3, T4, T5, T6, T7. simpl in T2, T3, T4, T5, T6, T7.
    apply IH in Heq as (I1 & I2 & I3 & I4 & I5 & I6 & I7 & I8).
    + simpl in I2, I3, I4, I5, I8.
      split; [exact I1|]. split; [exact I2|]. split; [exact I3|].
      split; [intros e He; apply I4, T5, He|].
      split; [lia|]. split; [exact I6|]. split; [exact I7|].
      intros x Hx Hr. apply T7; [lia|]. apply I8; [lia | exact Hr].
    + exact T2.
    + simpl. lia.
    + simpl. pose proof (inv_enter_lt p Hinv). lia.
Qed.

Lemma or_else_Some (x y : option Poa.VD) (f : Poa.VD) :
  x = Some f -> Poa.or_else x y = Some f.
Proof. now intros ->. Qed.

(** Every branch of the traceback body re-establishes the loop invariant
    for the predecessor the column names. *)
Lemma tb_move_inv (p0 : Poa.PoaGraphImpl (F:=F)) (sequence : str)
    (cols : gmap Poa.VD Poa.AlignmentColumn) (alignMode : Align.AlignMode)
    (st : Poa.TBState) (move : Poa.MoveType) (pv : Poa.VD)
    (p' : Poa.PoaGraphImpl) (i' : nat) (fork' : option Poa.VD) :
  PoaInv p0 -> TBInv p0 st ->
  move_ok p0 (Poa.tb_u st) move pv ->
  Poa.tb_move sequence cols alignMode st (Some pv) move = Some (p', i', fork') ->
  TBInv p0 (Poa.mkTB p' i' pv (Some (Poa.tb_u st)) fork').
Proof.
  intros Hinv0 (Hinv & Hen & Hex & Hsub & Htot & Hu & HF) Hok Hmove.
  destruct st as [p i u v fork]. simpl in *.
  assert (Hup : u < Poa.totalVertices_ p) by lia.
  assert (Hedge : (pv, u) ∈ Poa.edges (Poa.g_ p0) ->
            (pv, u) ∈ Poa.edges (Poa.g_ p) /\ pv < Poa.totalVertices_ p0
            /\ pv <> Poa.exitVertex_ p /\ u <> Poa.enterVertex_ p).
  { intros He. pose proof (Hsub _ He) as He'.
    split; [exact He'|]. split; [apply (inv_edges p0 Hinv0) in He; lia|].
    split.
    - intros ->. exact (inv_exit p Hinv _ He').
    - intros ->. exact (inv_enter p Hinv _ He'). }
  unfold TBInv. simpl.
  destruct move; simpl in Hok, Hmove.
  - (* InvalidMove *) discriminate.
  - (* StartMove *)
    subst pv. assert (Hpv : Poa.enterVertex_ p0 < Poa.totalVertices_ p0)
      by apply (inv_enter_lt p0 Hinv0).
    destruct (i =? 0).
    + injection Hmove as <- <- <-.
      split; [exact Hinv|]. do 4 (split; [assumption|]). split; [exact Hpv|].
      destruct (Poa.or_else fork v) as [f|] eqn:EF; simpl.
      * destruct HF as (HF1 & HF2 & HF3 & HF4).
        split; [|split; [exact HF2|split; [exact HF3|rewrite <- Hen; apply (inv_enter_exit p Hinv)]]].
        intros Hr. apply HF2. rewrite <- Hen in Hr.
        exact (reaches_no_in_edge _ _ _ (inv_enter p Hinv) Hr).
      * subst u. pose proof (inv_enter_exit p Hinv) as Hne.
        split; [|split; [congruence|split; [exact Hup|congruence]]].
        intros Hr. rewrite <- Hen in Hr.
        apply (reaches_no_in_edge _ _ _ (inv_enter p Hinv)) in Hr. congruence.
    + destruct (Poa.or_else fork v) as [f|] eqn:EF; [|discriminate]. simpl in Hmove.
      destruct HF as (HF1 & HF2 & HF3 & HF4).
      destruct (Poa.thread_bases i sequence i f p) as [[i1 f1] p1] eqn:ET.
      injection Hmove as <- <- <-.
      destruct (thread_bases_inv _ _ _ _ _ _ _ _ Hinv HF3 HF2 ET)
        as (T1 & T2 & T3 & T4 & T5 & T6 & T7 & T8).
      split; [exact T1|]. split; [congruence|]. split; [congruence|].
      split; [intros e He; apply T4, Hsub, He|]. split; [lia|]. split; [exact Hpv|].
      simpl. split; [|split; [exact T7|split; [exact T6|]]].
      * intros Hr. apply T7. rewrite <- Hen, <- T2 in Hr.
        exact (reaches_no_in_edge _ _ _ (inv_enter p1 T1) Hr).
      * rewrite <- Hen, <- T2. apply (inv_enter_exit p1 T1).
  - (* EndMove *)
    destruct Hok as [Hpv Hpve].
    assert (Hexit : ~ reaches (Poa.g_ p) (Poa.exitVertex_ p) pv).
    { intros Hr. apply (reaches_no_out_edge _ _ _ (inv_exit p Hinv)) in Hr. congruence. }
    destruct (Poa.is_LOCAL alignMode).
    + simpl in Hmove. destruct (cols !! pv) as [prevCol|]; [|discriminate].
      simpl in Hmove.
      destruct (Poa.thread_bases _ sequence i (Poa.exitVertex_ p) p)
        as [[i1 f1] p1] eqn:ET.
      injection Hmove as <- <- <-.
      assert (Hne : Poa.exitVertex_ p <> Poa.enterVertex_ p).
      { intros E. apply (inv_enter_exit p Hinv). auto. }
      destruct (thread_bases_inv _ _ _ _ _ _ _ _ Hinv (inv_exit_lt p Hinv) Hne ET)
        as (T1 & T2 & T3 & T4 & T5 & T6 & T7 & T8).
      split; [exact T1|]. split; [congruence|]. split; [congruence|].
      split; [intros e He; apply T4, Hsub, He|]. split; [lia|]. split; [exact Hpv|].
      simpl. split; [|split; [exact T7|split; [exact T6|congruence]]].
      intros Hr. apply Hexit. apply T8; [lia | exact Hr].
    + injection Hmove as <- <- <-.
      split; [exact Hinv|]. do 4 (split; [assumption|]). split; [exact Hpv|].
      simpl. split; [exact Hexit|]. split.
      * intros E. apply (inv_enter_exit p Hinv). auto.
      * split; [apply (inv_exit_lt p Hinv) | congruence].
  - (* MatchMove *)
    destruct (Hedge Hok) as (He & Hpv & Hpve & Hue).
    destruct (i =? 0); [discriminate|]. injection Hmove as <- <- <-.
    destruct fork as [f|]; simpl in HF.
    + destruct HF as (HF1 & HF2 & HF3 & HF4).
      assert (Hinv1 : PoaInv (Poa.with_graph p (Poa.add_edge u f (Poa.g_ p))))
        by (apply PoaInv_add_edge; assumption).
      split; [eapply PoaInv_ext; [| | | |exact Hinv1]; reflexivity|].
      simpl. split; [assumption|]. split; [assumption|].
      split; [intros [a b] Hab; apply edges_add_edge; left; apply Hsub, Hab|].
      split; [assumption|]. split; [exact Hpv|].
      split; [|split; [exact Hue|split; [exact Hup|exact Hpve]]].
      apply acyclic_edge_back; [apply (inv_acyclic _ Hinv1)|].
      simpl. apply edges_add_edge. now left.
    + split; [eapply PoaInv_ext; [| | | |exact Hinv]; reflexivity|].
      simpl. do 4 (split; [assumption|]). split; [exact Hpv|].
      split; [|split; [exact Hue|split; [exact Hup|exact Hpve]]].
      apply acyclic_edge_back; [apply (inv_acyclic _ Hinv) | exact He].
  - (* MismatchMove *)
    destruct (Hedge Hok) as (He & Hpv & Hpve & Hue).
    destruct (i =? 0); [discriminate|].
    destruct (Poa.or_else fork v) as [f|] eqn:EF; [|discriminate]. simpl in Hmove.
    injection Hmove as <- <- <-.
    destruct HF as (HF1 & HF2 & HF3 & HF4).
    destruct (thread_one_inv p (char_at sequence (i - 1)) 1%Z f Hinv HF3 HF2)
      as (_ & T2 & T3 & T4 & T5 & T6 & T7).
    cbv zeta in T2, T3, T4, T5, T6, T7. simpl in T2, T3, T4, T5, T6, T7.
    split; [exact T2|]. simpl. split; [assumption|]. split; [assumption|].
    split; [intros e0 He0; apply T5, Hsub, He0|]. split; [lia|]. split; [exact Hpv|].
    split; [|split; [|split; [lia|exact Hpve]]].
    * intros Hr. apply HF1. eapply reaches_edge_r; [|exact He].
      apply T7; [lia | exact Hr].
    * pose proof (inv_enter_lt p Hinv). lia.
  - (* DeleteMove *)
    destruct (Hedge Hok) as (He & Hpv & Hpve & Hue).
    injection Hmove as <- <- <-.
    split; [exact Hinv|]. do 4 (split; [assumption|]). split; [exact Hpv|].
    destruct (Poa.or_else fork v) as [f|] eqn:EF; simpl.
    + destruct HF as (HF1 & HF2 & HF3 & HF4).
      split; [|split; [exact HF2|split; [exact HF3|exact Hpve]]].
      intros Hr. apply HF1. eapply reaches_edge_r; eassumption.
    + split; [|split; [exact Hue|split; [exact Hup|exact Hpve]]].
      apply acyclic_edge_back; [apply (inv_acyclic _ Hinv) | exact He].
  - (* ExtraMove *)
    subst pv.
    destruct (i =? 0); [discriminate|].
    destruct (Poa.or_else fork v) as [f|] eqn:EF; [|discriminate]. simpl in Hmove.
    injection Hmove as <- <- <-.
    destruct HF as (HF1 & HF2 & HF3 & HF4).
    destruct (thread_one_inv p (char_at sequence (i - 1)) 1%Z f Hinv HF3 HF2)
      as (_ & T2 & T3 & T4 & T5 & T6 & T7).
    cbv zeta in T2, T3, T4, T5, T6, T7. simpl in T2, T3, T4, T5, T6, T7.
    split; [exact T2|]. simpl. split; [assumption|]. split; [assumption|].
    split; [intros e0 He0; apply T5, Hsub, He0|]. split; [lia|]. split; [exact Hu|].
    split; [|split; [|split; [lia|exact HF4]]].
    * intros Hr. apply HF1. apply T7; [lia | exact Hr].
    * pose proof (inv_enter_lt p Hinv). lia.
Qed.

Lemma tb_body_inv (p0 : Poa.PoaGraphImpl (F:=F)) (sequence : str)
    (cols : gmap Poa.VD Poa.AlignmentColumn) (alignMode : Align.AlignMode)
    (st st' : Poa.TBState) :
  PoaInv p0 -> wf_columns p0 cols -> TBInv p0 st ->
  Poa.tb_body sequence cols alignMode st = Some st' ->
  TBInv p0 st'.
Proof.
  intros Hinv0 Hwf Hst Hbody. unfold Poa.tb_body in Hbody.
  destruct (cols !! Poa.tb_u st) as [curCol|] eqn:Ecol; [|discriminate].
  simpl in Hbody.
  destruct (Poa.PreviousVertex curCol !! Poa.tb_i st) as [prevVertex|] eqn:Epv;
    [|discriminate].
  simpl in Hbody.
  destruct (Poa.ReachingMove curCol !! Poa.tb_i st) as [move|] eqn:Emv; [|discriminate].
  simpl in Hbody.
  destruct (Poa.tb_move sequence cols alignMode st prevVertex move)
    as [[[p' i'] fork']|] eqn:Em; [|discriminate].
  simpl in Hbody.
  destruct prevVertex as [pv|]; [|discriminate].
  simpl in Hbody. injection Hbody as <-.
  eapply tb_move_inv; eauto.
Qed.

Lemma tb_loop_inv (p0 : Poa.PoaGraphImpl (F:=F)) (sequence : str)
    (cols : gmap Poa.VD Poa.AlignmentColumn) (alignMode : Align.AlignMode)
    (fuel : nat) :
  forall st st' : Poa.TBState,
    PoaInv p0 -> wf_columns p0 cols -> TBInv p0 st ->
    Poa.tb_loop fuel sequence cols alignMode st = Some st' ->
    TBInv p0 st'
    /\ Poa.tb_u st' = Poa.enterVertex_ (Poa.tb_graph st') /\ Poa.tb_i st' = 0.
Proof.
  induction fuel as [|fuel IH]; intros st st' Hinv0 Hwf Hst Hloop; simpl in Hloop.
  - destruct (Nat.eqb_spec (Poa.tb_u st) (Poa.enterVertex_ (Poa.tb_graph st)));
      destruct (Nat.eqb_spec (Poa.tb_i st) 0); simpl in Hloop; try discriminate.
    injection Hloop as <-. auto.
  - destruct (Nat.eqb_spec (Poa.tb_u st) (Poa.enterVertex_ (Poa.tb_graph st)));
      destruct (Nat.eqb_spec (Poa.tb_i st) 0); simpl in Hloop;
      try (injection Hloop as <-; auto; fail);
      (destruct (Poa.tb_body sequence cols alignMode st) as [st1|] eqn:Eb;
       [|discriminate]; simpl in Hloop;
       apply (IH st1 st' Hinv0 Hwf); [eapply tb_body_inv; eauto | exact Hloop]).
Qed.

(** Threading a read by traceback keeps the invariants of the graph. *)
Lemma tracebackAndThread_inv (fuel : nat) (sequence : str)
    (cols : gmap Poa.VD Poa.AlignmentColumn) (alignMode : Align.AlignMode)
    (p p' : Poa.PoaGraphImpl (F:=F)) :
  PoaInv p -> wf_columns p cols ->
  Poa.tracebackAndThread topological_sort fuel sequence cols alignMode p = Some p' ->
  PoaInv p'.
Proof.
  intros Hinv Hwf Hrun. unfold Poa.tracebackAndThread in Hrun.
  destruct (cols !! Poa.exitVertex_ p) as [exitCol|]; [|discriminate].
  simpl in Hrun.
  destruct (Poa.PreviousVertex exitCol !! length sequence) as [endSpanVertex|];
    [|discriminate].
  simpl in Hrun.
  destruct (Poa.tb_loop fuel sequence cols alignMode _) as [st|] eqn:El; [|discriminate].
  simpl in Hrun.
  apply tb_loop_inv with (p0 := p) in El as ((Hst & Hen & Hex & Hsub & Htot & Hu & HF) & Hue & Hi);
    [|assumption|assumption|].
  2:{ unfold TBInv. simpl. split; [exact Hinv|]. repeat split; auto.
      apply (inv_exit_lt p Hinv). }
  set (p1 := if negb _ then _ else _) in Hrun.
  assert (Hp1 : PoaInv p1
                /\ Poa.g_ p1 = Poa.g_ (Poa.tb_graph st)
                /\ Poa.enterVertex_ p1 = Poa.enterVertex_ (Poa.tb_graph st)).
  { unfold p1. destruct (negb _); auto.
    split; [|split; reflexivity]. eapply PoaInv_ext; [| | | |exact Hst]; reflexivity. }
  destruct Hp1 as (Hinv1 & Hg1 & Hen1).
  destruct (Poa.tb_forkVertex st) as [f|] eqn:Ef.
  - injection Hrun as <-. simpl in HF. destruct HF as (HF1 & HF2 & HF3 & HF4).
    apply PoaInv_add_edge; try assumption.
    + apply (inv_enter_lt p1 Hinv1).
    + pose proof (inv_edges p1 Hinv1). unfold p1 in *.
      destruct (negb _); simpl; exact HF3.
    + apply (inv_enter_exit p1 Hinv1).
    + congruence.
    + rewrite Hg1, Hen1, <- Hue. exact HF1.
  - injection Hrun as <-. exact Hinv1.
Qed.

(** Threading the first read. *)
Lemma PoaInv_add_fresh_target (p : Poa.PoaGraphImpl (F:=F)) (c : ascii) (r : Z)
    (a : Poa.VD) :
  PoaInv p -> a < Poa.totalVertices_ p -> a <> Poa.exitVertex_ p ->
  let p1 := snd (Poa.addVertex c r p) in
  PoaInv (Poa.with_graph p1 (Poa.add_edge a (Poa.totalVertices_ p) (Poa.g_ p1))).
Proof.
  intros [H1 H2 H3 H4 H5 H6 H7] Ha Hae. cbv zeta. simpl.
  set (n := Poa.totalVertices_ p).
  set (g1 := Poa.add_vertex n (Poa.g_ p)).
  assert (Hout : forall x, (n, x) ∉ Poa.edges g1).
  { intros x Hx. apply H5 in Hx. unfold n in Hx. lia. }
  split; simpl; auto.
  - apply acyclic_add_edge; [exact H1|].
    intros Hr. apply (reaches_no_out_edge g1 n a Hout) in Hr. unfold n in Hr. lia.
  - intros x [Hx|[-> Hx]]%edges_add_edge; [exact (H3 x Hx)|]. unfold n in Hx. lia.
  - intros x [Hx|[Hx ->]]%edges_add_edge; [exact (H4 x Hx) | congruence].
  - intros x y [Hab|[-> ->]]%edges_add_edge.
    + apply H5 in Hab. lia.
    + unfold n. lia.
Qed.

Lemma threadFirstRead_loop_inv (sequence : str) :
  forall st st' : Poa.FirstReadState (F:=F),
    PoaInv (Poa.fr_graph st) ->
    (forall u, Poa.fr_u st = Some u ->
       u < Poa.totalVertices_ (Poa.fr_graph st) /\ u <> Poa.exitVertex_ (Poa.fr_graph st)) ->
    Poa.threadFirstRead_loop sequence st = Some st' ->
    PoaInv (Poa.fr_graph st')
    /\ (forall u, Poa.fr_u st' = Some u ->
          u < Poa.totalVertices_ (Poa.fr_graph st')
          /\ u <> Poa.exitVertex_ (Poa.fr_graph st')).
Proof.
  induction sequence as [|base rest IH]; intros st st' Hinv Hu Hloop; simpl in Hloop.
  - injection Hloop as <-. auto.
  - destruct (Poa.threadFirstRead_step st base) as [st1|] eqn:Es; [|discriminate].
    simpl in Hloop. apply (IH st1 st'); [| |exact Hloop].
    + unfold Poa.threadFirstRead_step in Es. simpl in Es.
      destruct (Poa.fr_readPos st =? 0).
      * injection Es as <-. simpl.
        apply (PoaInv_add_fresh_target (Poa.fr_graph st) base 1%Z
                 (Poa.enterVertex_ (Poa.fr_graph st)) Hinv).
        -- apply (inv_enter_lt _ Hinv).
        -- apply (inv_enter_exit _ Hinv).
      * destruct (Poa.fr_u st) as [u|] eqn:Eu; [|discriminate]. simpl in Es.
        injection Es as <-. simpl. destruct (Hu u eq_refl) as [Hu1 Hu2].
        apply (PoaInv_add_fresh_target (Poa.fr_graph st) base 1%Z u Hinv Hu1 Hu2).
    + unfold Poa.threadFirstRead_step in Es. simpl in Es.
      pose proof (inv_exit_lt _ Hinv) as Hex.
      destruct (Poa.fr_readPos st =? 0).
      * injection Es as <-. simpl. intros u [= <-]. lia.
      * destruct (Poa.fr_u st) as [u0|]; [|discriminate]. simpl in Es.
        injection Es as <-. simpl. intros u [= <-]. lia.
Qed.

Lemma threadFirstRead_inv (sequence : str) (p p' : Poa.PoaGraphImpl (F:=F)) :
  PoaInv p ->
  Poa.threadFirstRead topological_sort sequence p = Some p' ->
  PoaInv p'.
Proof.
  intros Hinv Hrun. unfold Poa.threadFirstRead in Hrun.
  destruct (Poa.threadFirstRead_loop sequence _) as [st|] eqn:El; [|discriminate].
  simpl in Hrun.
  apply threadFirstRead_loop_inv in El as [Hst Hu]; [|exact Hinv|intros u [=]].
  destruct (Poa.fr_u st) as [u|] eqn:Eu; [|discriminate]. simpl in Hrun.
  injection Hrun as <-. destruct (Hu u eq_refl) as [Hu1 Hu2].
  eapply PoaInv_ext;
    [| | | |apply (PoaInv_add_edge (Poa.fr_graph st) u
                     (Poa.exitVertex_ (Poa.fr_graph st)) Hst Hu1)];
    try reflexivity; auto.
  - apply (inv_exit_lt _ Hst).
  - intros E. apply (inv_enter_exit _ Hst). auto.
  - intros Hr. apply (reaches_no_out_edge _ _ _ (inv_exit _ Hst)) in Hr. auto.
Qed.

Lemma PoaGraphImpl_new_inv : PoaInv (Poa.PoaGraphImpl_new (F:=F)).
Proof.
  split; simpl; try lia.
  - intros v Hv. destruct Hv as [x y H|x y z H _]; inversion H.
  - intros u H. inversion H.
  - intros v H. inversion H.
  - intros u v H. inversion H.
Qed.

End Threading.

(** C4. After any sequence of read threadings, the first read threaded
    linearly into the empty graph and each further read threaded by
    traceback along alignment columns that name graph predecessors, the POA
    graph is a directed acyclic graph (and [enter] has no in-edge, [exit] no
    out-edge): every edge threading adds leads into a vertex that cannot
    reach the edge's source. *)
Theorem threading_keeps_dag {F : Type} {fo : Poa.FloatOps F}
    (topological_sort : Poa.BoostGraph -> list Poa.VD)
    (p : Poa.PoaGraphImpl (F:=F)) :
  threaded topological_sort p -> acyclic (Poa.g_ p) /\ PoaInv p.
Proof.
  intros H. assert (Hinv : PoaInv p).
  { induction H as [sequence p Hrun | p fuel sequence cols alignMode p' _ IH Hwf Hrun].
    - eapply threadFirstRead_inv; [apply PoaGraphImpl_new_inv | exact Hrun].
    - eapply tracebackAndThread_inv; eassumption. }
  split; [apply (inv_acyclic p Hinv) | exact Hinv].
Qed.

Lemma default_succeeded {A : Type} (d : A) (o : option A) :
  succeeded o = true -> o = Some (default d o).
Proof. destruct o; [reflexivity | discriminate]. Qed.

Lemma edge_check (g : Poa.BoostGraph) (a b : Poa.VD) :
  existsb (fun e => (fst e =? a) && (snd e =? b)) (Poa.edges g) = true ->
  (a, b) ∈ Poa.edges g.
Proof.
  intros H. apply existsb_exists in H as ([x y] & Hin & Hxy).
  simpl in Hxy. apply andb_true_iff in Hxy as [->%Nat.eqb_eq ->%Nat.eqb_eq].
  now apply list_elem_of_In.
Qed.

Ltac check_move_ok :=
  unfold move_ok;
  first [ apply edge_check; vm_compute; reflexivity
        | split; [apply Nat.ltb_lt; vm_compute; reflexivity
                 | vm_compute; let E := fresh in intros E; discriminate E]
        | vm_compute; reflexivity ].

Ltac check_rows Hm Hp i :=
  do 8 (destruct i as [|i];
        [vm_compute in Hm, Hp;
         first [ discriminate Hm
               | discriminate Hp
               | injection Hm as <-; injection Hp as <-; check_move_ok ]|]);
  vm_compute in Hm; discriminate Hm.

Ltac check_wf_columns :=
  let u := fresh "u" in let col := fresh "col" in let i := fresh "i" in
  let move := fresh "move" in let pv := fresh "pv" in
  let Hu := fresh "Hu" in let Hm := fresh "Hm" in let Hp := fresh "Hp" in
  intros u col i move pv Hu Hm Hp; apply elem_of_list_to_map_2 in Hu;
  repeat (apply elem_of_cons in Hu as [Hu|Hu];
          [injection Hu as -> ->; check_rows Hm Hp i|]);
  inversion Hu.

Lemma columns_TGG_wf : wf_columns (thread_first "GGG") (list_to_map columns_TGG).
Proof. unfold columns_TGG. check_wf_columns. Qed.

Lemma threading_keeps_dag_witness :
  acyclic (Poa.g_ (thread_next "TGG" columns_TGG (thread_first "GGG")))
  /\ PoaInv (thread_next "TGG" columns_TGG (thread_first "GGG")).
Proof.
  apply (threading_keeps_dag dfs_topological_sort).
  apply (threaded_next dfs_topological_sort (thread_first "GGG")
           (2 * Poa.num_vertices (Poa.g_ (thread_first "GGG")) + 20)
           (list_ascii_of_string "TGG") (list_to_map columns_TGG) Align.GLOBAL).
  - apply (threaded_first dfs_topological_sort (list_ascii_of_string "GGG")).
    apply (default_succeeded Poa.PoaGraphImpl_new
             (Poa.threadFirstRead dfs_topological_sort (list_ascii_of_string "GGG")
                Poa.PoaGraphImpl_new)).
    vm_compute. reflexivity.
  - apply columns_TGG_wf.
  - apply (default_succeeded (thread_first "GGG")
             (Poa.tracebackAndThread dfs_topological_sort
                (2 * Poa.num_vertices (Poa.g_ (thread_first "GGG")) + 20)
                (list_ascii_of_string "TGG") (list_to_map columns_TGG) Align.GLOBAL
                (thread_first "GGG"))).
    vm_compute. reflexivity.
Defined.

(** * Further properties of the alignment object *)

(** ** Transcripts built by the constructor *)

Lemma columns_cons (t c : ascii) (a q tr : str) :
  columns (t :: a) (c :: q) = Ok tr ->
  exists x rest,
    Align.column_code t c = Ok x /\ columns a q = Ok rest /\ tr = x :: rest.
Proof.
  simpl. destruct (Align.column_code t c) as [x|e]; simpl; [|discriminate].
  destruct (columns a q) as [rest|e]; simpl; [|discriminate].
  intros [= <-]. eauto.
Qed.

Lemma column_code_symbol (t c x : ascii) :
  Align.column_code t c = Ok x ->
  (x = "M"%char /\ t = c /\ t <> GAP)
  \/ (x = "I"%char /\ t = GAP /\ c <> GAP)
  \/ (x = "D"%char /\ t <> GAP /\ c = GAP)
  \/ (x = "R"%char /\ t <> GAP /\ c <> GAP /\ t <> c).
Proof.
  intros H.
  destruct (column_code_cases t c)
    as [(_ & _ & E)|[(? & ? & E)|[(? & ? & E)|[(? & ? & E)|(? & ? & ? & E)]]]];
    rewrite E in H; inversion H; subst; auto 10.
Qed.

Lemma columns_transcript_chars (a : str) :
  forall q tr, columns a q = Ok tr -> Forall Align.transcript_char tr.
Proof.
  induction a as [|t a IH]; intros [|c q] tr H; try (inversion H; constructor).
  apply columns_cons in H as (x & rest & Hx & Hr & ->).
  constructor; [|eauto].
  apply column_code_symbol in Hx as [(-> & _)|[(-> & _)|[(-> & _)|(-> & _)]]];
    unfold Align.transcript_char; auto.
Qed.

Lemma std_count_cons (c x : ascii) (s : str) :
  Align.std_count (x :: s) c
  = (if Ascii.eqb c x then 1 else 0) + Align.std_count s c.
Proof.
  unfold Align.std_count. simpl. now destruct (Ascii.eqb c x).
Qed.

Lemma std_count_total (x : str) :
  Forall Align.transcript_char x ->
  Align.std_count x "M"%char + Align.std_count x "R"%char
  + Align.std_count x "I"%char + Align.std_count x "D"%char = length x.
Proof.
  induction 1 as [|c x Hc _ IH]; [reflexivity|].
  rewrite !std_count_cons. simpl length.
  destruct Hc as [-> | [-> | [-> | ->]]]; simpl; lia.
Qed.

Lemma PairwiseAlignment_new_Ok (a q : str) (aln : Align.PairwiseAlignment) :
  Align.PairwiseAlignment_new a q = Ok aln ->
  length a = length q
  /\ exists tr, columns a q = Ok tr /\ aln = Align.mkPairwiseAlignment a q tr.
Proof.
  intros H.
  assert (Hlen : length a = length q).
  { unfold Align.PairwiseAlignment_new in H.
    destruct (length a =? length q) eqn:E; [now apply Nat.eqb_eq in E|].
    discriminate H. }
  split; [exact Hlen|].
  rewrite (PairwiseAlignment_new_columns _ _ Hlen) in H.
  destruct (columns a q) as [tr|e]; simpl in H; [|discriminate H].
  exists tr. split; [reflexivity|]. now inversion H.
Qed.

(** X1. On every alignment the constructor builds, the four symbol counts
    add up to the length, and [Errors] is the number of mismatches,
    insertions and deletions (so it is never negative). *)
Theorem transcript_counts (a q : str) (aln : Align.PairwiseAlignment) :
  Align.PairwiseAlignment_new a q = Ok aln ->
  Align.Matches aln + Align.Mismatches aln + Align.Insertions aln + Align.Deletions aln
  = Align.Length aln
  /\ Align.Errors aln
     = Z.of_nat (Align.Mismatches aln + Align.Insertions aln + Align.Deletions aln).
Proof.
  intros H. apply PairwiseAlignment_new_Ok in H as (Hlen & tr & Htr & ->).
  pose proof (columns_length _ _ _ Hlen Htr) as Hl.
  pose proof (std_count_total tr (columns_transcript_chars _ _ _ Htr)) as Hc.
  unfold Align.Errors, Align.Matches, Align.Mismatches, Align.Insertions,
    Align.Deletions, Align.Length. simpl. lia.
Qed.

Lemma transcript_counts_witness :
  let aln := Align.mkPairwiseAlignment (list_ascii_of_string "GA-TC")
               (list_ascii_of_string "G-CTA") (list_ascii_of_string "MDIMR") in
  Align.Matches aln + Align.Mismatches aln + Align.Insertions aln + Align.Deletions aln
  = Align.Length aln
  /\ Align.Errors aln
     = Z.of_nat (Align.Mismatches aln + Align.Insertions aln + Align.Deletions aln).
Proof.
  apply (transcript_counts (list_ascii_of_string "GA-TC") (list_ascii_of_string "G-CTA")).
  reflexivity.
Defined.

Lemma columns_lengths (a : str) :
  forall q tr, length a = length q -> columns a q = Ok tr ->
    Align.targetLength tr = length (strip_gaps a)
    /\ Align.queryLength tr = length (strip_gaps q).
Proof.
  induction a as [|t a IH]; intros [|c q] tr Hlen H; try discriminate Hlen.
  - inversion H. auto.
  - apply columns_cons in H as (x & rest & Hx & Hr & ->).
    injection Hlen as Hlen. destruct (IH _ _ Hlen Hr) as [IHt IHq].
    unfold Align.targetLength, Align.queryLength in *.
    apply column_code_symbol in Hx
      as [(-> & -> & Hc)|[(-> & -> & Hc)|[(-> & Ht & ->)|(-> & Ht & Hc & _)]]];
      simpl List.filter; simpl length;
      rewrite ?strip_gaps_gap, ?(strip_gaps_base _ _ Hc), ?(strip_gaps_base _ _ Ht);
      simpl length; auto.
Qed.

(** X2. The transcript the constructor derives has one symbol per column,
    all of them in [{M, R, I, D}], as many target-consuming symbols as the
    target row has characters other than the gap, and as many
    query-consuming symbols as the query row has. *)
Theorem constructed_transcript_lengths (a q : str) (aln : Align.PairwiseAlignment) :
  Align.PairwiseAlignment_new a q = Ok aln ->
  length (Align.Transcript aln) = Align.Length aln
  /\ Forall Align.transcript_char (Align.Transcript aln)
  /\ Align.targetLength (Align.Transcript aln) = length (strip_gaps (Align.Target aln))
  /\ Align.queryLength (Align.Transcript aln) = length (strip_gaps (Align.Query aln)).
Proof.
  intros H. apply PairwiseAlignment_new_Ok in H as (Hlen & tr & Htr & ->).
  unfold Align.Transcript, Align.Length, Align.Target, Align.Query. simpl.
  destruct (columns_lengths _ _ _ Hlen Htr) as [Ht Hq].
  split; [exact (columns_length _ _ _ Hlen Htr)|].
  split; [exact (columns_transcript_chars _ _ _ Htr)|].
  split; assumption.
Qed.

Lemma constructed_transcript_lengths_witness :
  let aln := Align.mkPairwiseAlignment (list_ascii_of_string "GA-TC")
               (list_ascii_of_string "G-CTA") (list_ascii_of_string "MDIMR") in
  length (Align.Transcript aln) = Align.Length aln
  /\ Forall Align.transcript_char (Align.Transcript aln)
  /\ Align.targetLength (Align.Transcript aln) = length (strip_gaps (Align.Target aln))
  /\ Align.queryLength (Align.Transcript aln) = length (strip_gaps (Align.Query aln)).
Proof.
  apply (constructed_transcript_lengths
           (list_ascii_of_string "GA-TC") (list_ascii_of_string "G-CTA")).
  reflexivity.
Defined.

(** ** Lifting the coordinates of a constructed alignment *)

Lemma spec_positions_columns (a : str) :
  forall q tr qpos k,
    columns a q = Ok tr -> length a = length q ->
    k < length a -> char_at a k <> GAP ->
    Align.spec_positions qpos tr !! length (strip_gaps (take k a))
    = Some (qpos + length (strip_gaps (take k q))).
Proof.
  induction a as [|t a IH]; intros [|c q] tr qpos k H Hlen Hk Hg;
    try discriminate Hlen; [simpl in Hk; lia|].
  apply columns_cons in H as (x & rest & Hx & Hr & ->).
  injection Hlen as Hlen.
  destruct k as [|k].
  - simpl in Hg. simpl take. simpl.
    apply column_code_symbol in Hx
      as [(-> & _)|[(-> & Ht & _)|[(-> & _)|(-> & _)]]];
      try (simpl; f_equal; lia).
    contradiction.
  - assert (Hk' : k < length a) by (simpl in Hk; lia).
    assert (Hg' : char_at a k <> GAP) by exact Hg.
    simpl take.
    apply column_code_symbol in Hx
      as [(-> & -> & Hc)|[(-> & -> & Hc)|[(-> & Ht & ->)|(-> & Ht & Hc & _)]]];
      rewrite ?strip_gaps_gap, ?(strip_gaps_base _ _ Hc), ?(strip_gaps_base _ _ Ht);
      simpl; rewrite (IH _ _ _ _ Hr Hlen Hk' Hg'); f_equal; lia.
Qed.

(** X3. Lifting the coordinates of a constructed alignment succeeds; the
    vector has one entry per target character and one more; the entry of a
    target character is the number of query characters in the columns before
    its own, and the last entry is the number of query characters. *)
Theorem lifting_of_alignment (a q : str) (aln : Align.PairwiseAlignment) :
  Align.PairwiseAlignment_new a q = Ok aln ->
  exists p,
    Align.TargetToQueryPositions_aln aln = Ok p
    /\ length p = length (strip_gaps a) + 1
    /\ (forall k, k < length a -> char_at a k <> GAP ->
          p !! length (strip_gaps (take k a)) = Some (length (strip_gaps (take k q))))
    /\ p !! length (strip_gaps a) = Some (length (strip_gaps q)).
Proof.
  intros H. apply PairwiseAlignment_new_Ok in H as (Hlen & tr & Htr & ->).
  pose proof (columns_transcript_chars _ _ _ Htr) as Hchars.
  destruct (columns_lengths _ _ _ Hlen Htr) as [Ht Hq].
  destruct (lift_loop_spec tr Hchars (Align.mkLift [] 0 0)) as (st' & Hl & Hp & _ & _).
  simpl in Hp.
  exists (Align.spec_positions 0 tr).
  unfold Align.TargetToQueryPositions_aln, Align.TargetToQueryPositions,
    Align.Transcript. simpl.
  rewrite Hl. simpl. rewrite Hp.
  split; [reflexivity|].
  split; [rewrite spec_positions_length; lia|].
  split.
  - intros k Hk Hg. now rewrite (spec_positions_columns _ _ _ 0 k Htr Hlen Hk Hg).
  - rewrite <- Ht, <- Hq. apply (spec_positions_last tr Hchars 0).
Qed.

Lemma lifting_of_alignment_witness :
  exists p,
    Align.TargetToQueryPositions_aln
      (Align.mkPairwiseAlignment (list_ascii_of_string "GA-TC")
         (list_ascii_of_string "G-CTA") (list_ascii_of_string "MDIMR")) = Ok p
    /\ length p = length (strip_gaps (list_ascii_of_string "GA-TC")) + 1
    /\ (forall k, k < length (list_ascii_of_string "GA-TC") ->
          char_at (list_ascii_of_string "GA-TC") k <> GAP ->
          p !! length (strip_gaps (take k (list_ascii_of_string "GA-TC")))
          = Some (length (strip_gaps (take k (list_ascii_of_string "G-CTA")))))
    /\ p !! length (strip_gaps (list_ascii_of_string "GA-TC"))
       = Some (length (strip_gaps (list_ascii_of_string "G-CTA"))).
Proof.
  apply (lifting_of_alignment (list_ascii_of_string "GA-TC")
           (list_ascii_of_string "G-CTA")).
  reflexivity.
Defined.

(** ** Transcripts that cannot be lifted *)

Lemma lift_step_cases (c : ascii) (st : Align.LiftState) :
  (Align.transcript_char c /\ exists st', Align.lift_step c st = Ok st')
  \/ (~ Align.transcript_char c /\ Align.lift_step c st = Throw InternalError).
Proof.
  destruct (transcript_char_dec c) as [H | H].
  - left. split; [exact H|].
    destruct H as [-> | [-> | [-> | ->]]]; eexists; reflexivity.
  - right. split; [exact H|].
    unfold Align.lift_step.
    assert (HM : (c =? "M")%char = false)
      by (apply Ascii.eqb_neq; intros ->; apply H; unfold Align.transcript_char; auto).
    assert (HR : (c =? "R")%char = false)
      by (apply Ascii.eqb_neq; intros ->; apply H; unfold Align.transcript_char; auto).
    assert (HI : (c =? "I")%char = false)
      by (apply Ascii.eqb_neq; intros ->; apply H; unfold Align.transcript_char; auto).
    assert (HD : (c =? "D")%char = false)
      by (apply Ascii.eqb_neq; intros ->; apply H; unfold Align.transcript_char; auto).
    now rewrite HM, HR, HI, HD.
Qed.

Lemma lift_loop_throw (x : str) :
  ~ Forall Align.transcript_char x ->
  forall st, Align.lift_loop x st = Throw InternalError.
Proof.
  induction x as [|c x IH]; intros Hn st.
  - destruct Hn. constructor.
  - simpl. destruct (lift_step_cases c st) as [(Hc & st' & ->) | (_ & ->)];
      [|reflexivity].
    simpl. apply IH. intros Hx. apply Hn. now constructor.
Qed.

(** X4. [TargetToQueryPositions] returns a vector exactly for the
    transcripts over [{M, R, I, D}]; on any other string it ends in
    [ShouldNotReachHere()], whatever precedes or follows the foreign
    symbol. *)
Theorem TargetToQueryPositions_foreign_symbol (x : str) :
  ((exists p, Align.TargetToQueryPositions x = Ok p) <-> Forall Align.transcript_char x)
  /\ (Align.TargetToQueryPositions x = Throw InternalError
      <-> ~ Forall Align.transcript_char x).
Proof.
  assert (Hok : Forall Align.transcript_char x ->
                exists p, Align.TargetToQueryPositions x = Ok p).
  { intros H. destruct (lift_loop_spec x H (Align.mkLift [] 0 0)) as (st' & Hl & _).
    unfold Align.TargetToQueryPositions. rewrite Hl. simpl. eauto. }
  assert (Hthrow : ~ Forall Align.transcript_char x ->
                   Align.TargetToQueryPositions x = Throw InternalError).
  { intros H. unfold Align.TargetToQueryPositions.
    now rewrite (lift_loop_throw x H). }
  assert (Hdec : Forall Align.transcript_char x \/ ~ Forall Align.transcript_char x).
  { destruct (@Forall_dec _ _ transcript_char_dec x); auto. }
  split; split; auto.
  - intros [p Hp]. destruct Hdec as [H | H]; [exact H|].
    rewrite (Hthrow H) in Hp. discriminate Hp.
  - intros Ht H. destruct (Hok H) as [p Hp]. rewrite Hp in Ht. discriminate Ht.
Qed.

(** * Further properties of [Align] *)

(** ** The [int] arithmetic of the scores *)

Lemma int_wrap_range (z : Z) : (- 2 ^ 31 <= int_wrap z < 2 ^ 31)%Z.
Proof.
  unfold int_wrap.
  pose proof (Z.mod_pos_bound (z + 2 ^ 31) (2 ^ 32) ltac:(lia)). lia.
Qed.

Lemma int_wrap_cong32 (z : Z) : cong32 (int_wrap z) z.
Proof.
  exists (- ((z + 2 ^ 31) / 2 ^ 32))%Z. unfold int_wrap.
  pose proof (Z.div_mod (z + 2 ^ 31) (2 ^ 32) ltac:(lia)). lia.
Qed.

Lemma cong32_int_wrap (a b : Z) : cong32 a b -> int_wrap a = int_wrap b.
Proof.
  intros [k ->]. unfold int_wrap.
  replace (b + k * 2 ^ 32 + 2 ^ 31)%Z with (b + 2 ^ 31 + k * 2 ^ 32)%Z by lia.
  now rewrite Z.mod_add by lia.
Qed.

Lemma cong32_refl (a : Z) : cong32 a a.
Proof. exists 0%Z. lia. Qed.

Lemma cong32_trans (a b c : Z) : cong32 a b -> cong32 b c -> cong32 a c.
Proof. intros [k ->] [l ->]. exists (k + l)%Z. lia. Qed.

Lemma cong32_add (a b c : Z) : cong32 a b -> cong32 (int_add a c) (c + b).
Proof.
  intros [k ->]. unfold int_add.
  destruct (int_wrap_cong32 (b + k * 2 ^ 32 + c)) as [l ->].
  exists (k + l)%Z. lia.
Qed.

Lemma ArgMax3_Max3 (a b c : Z) :
  (Align.ArgMax3 a b c = 0%Z -> Align.Max3 a b c = a)
  /\ (Align.ArgMax3 a b c = 1%Z -> Align.Max3 a b c = b)
  /\ (Align.ArgMax3 a b c = 2%Z -> Align.Max3 a b c = c).
Proof.
  unfold Align.ArgMax3, Align.Max3.
  destruct (b <=? a)%Z eqn:E1, (c <=? a)%Z eqn:E2, (c <=? b)%Z eqn:E3; simpl;
    repeat split; intros H; try discriminate H; lia.
Qed.

(** ** The score of the alignment the traceback builds *)

Lemma transcript_score_cons (params : Align.AlignParams) (c : ascii) (x : str) :
  transcript_score params (c :: x)
  = (symbol_score params c + transcript_score params x)%Z.
Proof. reflexivity. Qed.

Lemma transcript_score_app (params : Align.AlignParams) (x y : str) :
  transcript_score params (x ++ y)
  = (transcript_score params x + transcript_score params y)%Z.
Proof.
  induction x as [|c x IH]; simpl; [reflexivity|].
  unfold transcript_score in *. simpl. rewrite IH. lia.
Qed.

Lemma transcript_score_rev (params : Align.AlignParams) (x : str) :
  transcript_score params (rev x) = transcript_score params x.
Proof.
  induction x as [|c x IH]; [reflexivity|].
  simpl rev. rewrite transcript_score_app, IH.
  unfold transcript_score. simpl. lia.
Qed.

Lemma columns_snoc (a : str) :
  forall q tr t c x,
    length a = length q -> columns a q = Ok tr -> Align.column_code t c = Ok x ->
    columns (a ++ [t]) (q ++ [c]) = Ok (tr ++ [x]).
Proof.
  induction a as [|t0 a IH]; intros [|c0 q] tr t c x Hlen H Hx; try discriminate Hlen.
  - inversion H. simpl. now rewrite Hx.
  - apply columns_cons in H as (x0 & rest & Hx0 & Hr & ->).
    injection Hlen as Hlen. simpl. rewrite Hx0. simpl.
    now rewrite (IH _ _ _ _ _ Hlen Hr Hx).
Qed.

Lemma columns_rev (a : str) :
  forall q tr, length a = length q -> columns a q = Ok tr ->
    columns (rev a) (rev q) = Ok (rev tr).
Proof.
  induction a as [|t a IH]; intros [|c q] tr Hlen H; try discriminate Hlen.
  - inversion H. reflexivity.
  - apply columns_cons in H as (x & rest & Hx & Hr & ->).
    injection Hlen as Hlen. simpl rev.
    apply columns_snoc; auto. now rewrite !length_rev.
Qed.

Lemma column_code_bases (t c : ascii) :
  t <> GAP -> c <> GAP ->
  Align.column_code t c = Ok (if Ascii.eqb c t then "M"%char else "R"%char).
Proof.
  intros Ht Hc.
  destruct (column_code_cases t c)
    as [(? & _)|[(-> & _ & E)|[(? & _)|[(_ & ? & _)|(_ & _ & Hn & E)]]]];
    try contradiction.
  - now rewrite Ascii.eqb_refl.
  - rewrite E. destruct (Ascii.eqb c t) eqn:Eq; [|reflexivity].
    apply Ascii.eqb_eq in Eq. congruence.
Qed.

Lemma column_code_ins (c : ascii) :
  c <> GAP -> Align.column_code GAP c = Ok "I"%char.
Proof.
  intros Hc.
  destruct (column_code_cases GAP c)
    as [(_ & ? & _)|[(_ & ? & _)|[(_ & _ & E)|[(? & _)|(? & _)]]]];
    try contradiction; try congruence.
Qed.

Lemma column_code_del (t : ascii) :
  t <> GAP -> Align.column_code t GAP = Ok "D"%char.
Proof.
  intros Ht.
  destruct (column_code_cases t GAP)
    as [(? & _)|[(? & ? & _)|[(? & _)|[(_ & _ & E)|(_ & ? & _)]]]];
    try contradiction; try congruence.
Qed.

Section TracebackScore.
Variable params : Align.AlignParams.
Variables target query : str.
Variable S : Align.Matrix.
Hypothesis Hrow : forall j, j <= length target ->
  S 0 j = int_mul (Z.of_nat j) (Align.Delete params).
Hypothesis Hcol : forall i, i <= length query ->
  S i 0 = int_mul (Z.of_nat i) (Align.Insert params).
Hypothesis Hcell : forall i j, 1 <= i <= length query -> 1 <= j <= length target ->
  cell_ok params target query S i j.
Hypothesis Hgt : gap_free target.
Hypothesis Hgq : gap_free query.

Lemma cell_max (i j : nat) :
  i < length query -> j < length target ->
  S (Datatypes.S i) (Datatypes.S j)
  = Align.Max3 (Align.diag_score params target query S (Datatypes.S i) (Datatypes.S j))
               (Align.ins_score params S (Datatypes.S i) (Datatypes.S j))
               (Align.del_score params S (Datatypes.S i) (Datatypes.S j)).
Proof.
  intros Hi Hj. apply (Hcell (Datatypes.S i) (Datatypes.S j)); lia.
Qed.

Lemma row_step (j : nat) :
  j < length target -> cong32 (S 0 (Datatypes.S j)) (Align.Delete params + S 0 j).
Proof.
  intros Hj. rewrite !Hrow by lia. unfold int_mul.
  destruct (int_wrap_cong32 (Z.of_nat (Datatypes.S j) * Align.Delete params)) as [k ->].
  destruct (int_wrap_cong32 (Z.of_nat j * Align.Delete params)) as [l ->].
  exists (k - l)%Z. lia.
Qed.

Lemma col_step (i : nat) :
  i < length query -> cong32 (S (Datatypes.S i) 0) (Align.Insert params + S i 0).
Proof.
  intros Hi. rewrite !Hcol by lia. unfold int_mul.
  destruct (int_wrap_cong32 (Z.of_nat (Datatypes.S i) * Align.Insert params)) as [k ->].
  destruct (int_wrap_cong32 (Z.of_nat i * Align.Insert params)) as [l ->].
  exists (k - l)%Z. lia.
Qed.

Lemma traceback_score :
  forall fuel i j raQ raT,
    i + j <= fuel -> i <= length query -> j <= length target ->
    exists cq ct tr,
      Align.traceback params target query fuel S i j raQ raT
      = Some (raQ ++ cq, raT ++ ct)
      /\ length ct = length cq
      /\ columns ct cq = Ok tr
      /\ cong32 (S i j) (transcript_score params tr).
Proof.
  induction fuel as [|fuel IH]; intros i j raQ raT Hf Hi Hj.
  - assert (i = 0) as -> by lia. assert (j = 0) as -> by lia.
    exists [], [], []. simpl. rewrite !app_nil_r. repeat split; auto.
    rewrite Hrow by lia. apply int_wrap_cong32.
  - assert (Hdel : forall i', i' <= length query -> i' + j <= Datatypes.S fuel ->
              forall j', j = Datatypes.S j' ->
              Align.traceback params target query (Datatypes.S fuel) S i' j raQ raT
              = Align.traceback params target query fuel S i' j'
                  (raQ ++ [GAP]) (raT ++ [char_at target j']) ->
              cong32 (S i' j) (Align.Delete params + S i' j') ->
              exists cq ct tr,
                Align.traceback params target query (Datatypes.S fuel) S i' j raQ raT
                = Some (raQ ++ cq, raT ++ ct)
                /\ length ct = length cq
                /\ columns ct cq = Ok tr
                /\ cong32 (S i' j) (transcript_score params tr)).
    { intros i' Hi' Hf' j' -> Hstep Hc.
      destruct (IH i' j' (raQ ++ [GAP]) (raT ++ [char_at target j']))
        as (cq & ct & tr & Hr & Hl & Htr & Hs); try lia.
      exists (GAP :: cq), (char_at target j' :: ct), ("D"%char :: tr).
      rewrite Hstep, Hr, <- !app_assoc.
      split; [reflexivity|]. split; [simpl; lia|]. split.
      - simpl. rewrite column_code_del by (apply gap_free_char_at; auto; lia).
        simpl. now rewrite Htr.
      - eapply cong32_trans; [exact Hc|].
        destruct Hs as [k ->]. exists k. rewrite transcript_score_cons.
        change (symbol_score params "D"%char) with (Align.Delete params). lia. }
    assert (Hins : forall j', j' <= length target -> i + j' <= Datatypes.S fuel ->
              forall i', i = Datatypes.S i' ->
              Align.traceback params target query (Datatypes.S fuel) S i j' raQ raT
              = Align.traceback params target query fuel S i' j'
                  (raQ ++ [char_at query i']) (raT ++ [GAP]) ->
              cong32 (S i j') (Align.Insert params + S i' j') ->
              exists cq ct tr,
                Align.traceback params target query (Datatypes.S fuel) S i j' raQ raT
                = Some (raQ ++ cq, raT ++ ct)
                /\ length ct = length cq
                /\ columns ct cq = Ok tr
                /\ cong32 (S i j') (transcript_score params tr)).
    { intros j' Hj' Hf' i' -> Hstep Hc.
      destruct (IH i' j' (raQ ++ [char_at query i']) (raT ++ [GAP]))
        as (cq & ct & tr & Hr & Hl & Htr & Hs); try lia.
      exists (char_at query i' :: cq), (GAP :: ct), ("I"%char :: tr).
      rewrite Hstep, Hr, <- !app_assoc.
      split; [reflexivity|]. split; [simpl; lia|]. split.
      - simpl. rewrite column_code_ins by (apply gap_free_char_at; auto; lia).
        simpl. now rewrite Htr.
      - eapply cong32_trans; [exact Hc|].
        destruct Hs as [k ->]. exists k. rewrite transcript_score_cons.
        change (symbol_score params "I"%char) with (Align.Insert params). lia. }
    destruct i as [|i], j as [|j].
    + exists [], [], []. simpl. rewrite !app_nil_r. repeat split; auto.
      rewrite Hrow by lia. apply int_wrap_cong32.
    + apply (Hdel 0 Hi Hf j eq_refl).
      * apply traceback_step_del. auto.
      * apply row_step. lia.
    + apply (Hins 0 Hj Hf i eq_refl).
      * apply traceback_step_ins. auto.
      * apply col_step. lia.
    + pose proof (cell_max i j ltac:(lia) ltac:(lia)) as Hmax.
      destruct (ArgMax3_Max3
                  (Align.diag_score params target query S (Datatypes.S i) (Datatypes.S j))
                  (Align.ins_score params S (Datatypes.S i) (Datatypes.S j))
                  (Align.del_score params S (Datatypes.S i) (Datatypes.S j)))
        as (M0 & M1 & M2).
      destruct (ArgMax3_cases
                  (Align.diag_score params target query S (Datatypes.S i) (Datatypes.S j))
                  (Align.ins_score params S (Datatypes.S i) (Datatypes.S j))
                  (Align.del_score params S (Datatypes.S i) (Datatypes.S j)))
        as [Hm | [Hm | Hm]].
      * rewrite traceback_step_diag by assumption.
        destruct (IH i j (raQ ++ [char_at query i]) (raT ++ [char_at target j]))
          as (cq & ct & tr & Hr & Hl & Htr & Hs); try lia.
        exists (char_at query i :: cq), (char_at target j :: ct),
          ((if Ascii.eqb (char_at query i) (char_at target j)
            then "M"%char else "R"%char) :: tr).
        rewrite Hr, <- !app_assoc.
        split; [reflexivity|]. split; [simpl; lia|]. split.
        -- simpl. rewrite column_code_bases by (apply gap_free_char_at; auto; lia).
           simpl. now rewrite Htr.
        -- rewrite Hmax, (M0 Hm). unfold Align.diag_score.
           replace (Datatypes.S i - 1) with i by lia.
           replace (Datatypes.S j - 1) with j by lia.
           eapply cong32_trans; [apply cong32_add, Hs|].
           rewrite transcript_score_cons.
           destruct (Ascii.eqb (char_at query i) (char_at target j));
             apply cong32_refl.
      * apply (Hins (Datatypes.S j) Hj Hf i eq_refl).
        -- apply traceback_step_ins. auto.
        -- rewrite Hmax, (M1 Hm). unfold Align.ins_score.
           replace (Datatypes.S i - 1) with i by lia.
           apply cong32_add, cong32_refl.
      * apply (Hdel (Datatypes.S i) Hi Hf j eq_refl).
        -- apply traceback_step_del. auto.
        -- rewrite Hmax, (M2 Hm). unfold Align.del_score.
           replace (Datatypes.S j - 1) with j by lia.
           apply cong32_add, cong32_refl.
Qed.

Lemma cell_range (i j : nat) :
  i <= length query -> j <= length target -> (- 2 ^ 31 <= S i j < 2 ^ 31)%Z.
Proof.
  intros Hi Hj. destruct i as [|i].
  - rewrite Hrow by lia. apply int_wrap_range.
  - destruct j as [|j].
    + rewrite Hcol by lia. apply int_wrap_range.
    + rewrite cell_max by lia. unfold Align.Max3, Align.diag_score, Align.ins_score,
        Align.del_score, int_add.
      pose proof (int_wrap_range) as R.
      repeat match goal with
      | |- context [int_wrap ?z] =>
          let H := fresh "R" in
          pose proof (R z) as H; generalize dependent (int_wrap z); intros
      end.
      lia.
Qed.

End TracebackScore.

Lemma FromTranscript_columns (A Q tr : str) :
  length A = length Q -> columns A Q = Ok tr ->
  Align.FromTranscript tr (strip_gaps A) (strip_gaps Q)
  = Ok (Some (Align.mkPairwiseAlignment A Q tr)).
Proof.
  intros Hlen Htr.
  pose proof (PairwiseAlignment_new_columns A Q Hlen) as Hnew.
  rewrite Htr in Hnew. simpl in Hnew.
  unfold Align.FromTranscript.
  pose proof (FT_loop_columns A Q tr [] [] (Align.mkFT [] [] 0 0) Htr Hlen eq_refl eq_refl)
    as Hloop.
  simpl in Hloop. rewrite Hloop. simpl.
  rewrite !Nat.eqb_refl. simpl. rewrite Hnew. reflexivity.
Qed.

(** What [Align] returns on gap-free strings, in terms of the rows the
    traceback builds. *)
Lemma Align_outcome (params : Align.AlignParams) (target query : str)
    (Score0 : Align.Matrix) (want_score : bool) (fuel : nat) :
  gap_free target -> gap_free query -> length target + length query <= fuel ->
  let S := Align.fillScore params target query Score0 in
  exists A Q tr,
    Align.Align fuel Score0 target query want_score
      (Align.mkAlignConfig params Align.GLOBAL)
    = Some (Align.mkOutcome
              (if want_score then Some (S (length query) (length target)) else None)
              (Ok (Align.mkPairwiseAlignment A Q tr)))
    /\ length A = length Q
    /\ columns A Q = Ok tr
    /\ strip_gaps A = target
    /\ strip_gaps Q = query
    /\ S (length query) (length target) = int_wrap (transcript_score params tr).
Proof.
  intros Hgt Hgq Hfuel S.
  destruct (fillScore_spec params target query Score0) as (Hrow & Hcol & Hcell).
  fold S in Hrow, Hcol, Hcell.
  destruct (traceback_score params target query S Hrow Hcol Hcell Hgt Hgq
              fuel (length query) (length target) [] [])
    as (cq & ct & tr & Hr & Hl & Htr & Hs); try lia.
  destruct (traceback_spec params target query S
              fuel (length query) (length target) [] [])
    as (cq' & ct' & Hr' & _ & Ht & Hq & _); try lia.
  rewrite Hr in Hr'. simpl in Hr'. injection Hr' as <- <-.
  exists (rev ct), (rev cq), (rev tr).
  pose proof (columns_rev _ _ _ Hl Htr) as Hrev.
  assert (Hlen : length (rev ct) = length (rev cq)) by (now rewrite !length_rev).
  split.
  - unfold Align.Align. simpl. fold S. rewrite Hr. simpl. unfold Align.Reverse.
    rewrite PairwiseAlignment_new_columns by assumption. rewrite Hrev. reflexivity.
  - split; [exact Hlen|]. split; [exact Hrev|].
    rewrite (Ht Hgt), (Hq Hgq), !take_ge by lia.
    split; [reflexivity|]. split; [reflexivity|].
    rewrite transcript_score_rev.
    rewrite <- (cong32_int_wrap _ _ Hs).
    symmetry. apply int_wrap_small.
    apply (cell_range params target query S Hrow Hcol Hcell); lia.
Qed.

(** X5. On gap-free strings, the score [Align] reports is the score of the
    alignment it returns: the sum, in [int] arithmetic, of the parameters
    of the symbols of the returned transcript. *)
Theorem Align_score_of_transcript (params : Align.AlignParams) (target query : str)
    (Score0 : Align.Matrix) (fuel : nat) :
  gap_free target -> gap_free query -> length target + length query <= fuel ->
  exists aln,
    Align.Align fuel Score0 target query true (Align.mkAlignConfig params Align.GLOBAL)
    = Some (Align.mkOutcome
              (Some (int_wrap (transcript_score params (Align.Transcript aln))))
              (Ok aln)).
Proof.
  intros Hgt Hgq Hfuel.
  destruct (Align_outcome params target query Score0 true fuel Hgt Hgq Hfuel)
    as (A & Q & tr & HA & _ & _ & _ & _ & Hs).
  exists (Align.mkPairwiseAlignment A Q tr). rewrite HA. simpl.
  now rewrite Hs.
Qed.

Lemma Align_score_of_transcript_witness :
  exists aln,
    Align.Align 5 (fun _ _ => 7%Z) (list_ascii_of_string "GAT") (list_ascii_of_string "GT")
      true (Align.mkAlignConfig (Align.mkAlignParams 0 (-1) (-1) (-1)) Align.GLOBAL)
    = Some (Align.mkOutcome
              (Some (int_wrap (transcript_score (Align.mkAlignParams 0 (-1) (-1) (-1))
                                 (Align.Transcript aln))))
              (Ok aln)).
Proof.
  apply (Align_score_of_transcript (Align.mkAlignParams 0 (-1) (-1) (-1))
           (list_ascii_of_string "GAT") (list_ascii_of_string "GT")
           (fun _ _ => 7%Z) 5).
  - unfold gap_free. apply (bool_decide_unpack _). vm_compute. exact I.
  - unfold gap_free. apply (bool_decide_unpack _). vm_compute. exact I.
  - simpl. lia.
Defined.

(** X6. On gap-free strings, rebuilding an alignment with [FromTranscript]
    from the transcript of the alignment [Align] returned and the two
    strings [Align] was given yields that same alignment; in particular the
    transcript threads through the two strings. *)
Theorem Align_FromTranscript (params : Align.AlignParams) (target query : str)
    (Score0 : Align.Matrix) (want_score : bool) (fuel : nat) :
  gap_free target -> gap_free query -> length target + length query <= fuel ->
  exists aln score,
    Align.Align fuel Score0 target query want_score
      (Align.mkAlignConfig params Align.GLOBAL)
    = Some (Align.mkOutcome score (Ok aln))
    /\ Align.FromTranscript (Align.Transcript aln) target query = Ok (Some aln)
    /\ threads (Align.Transcript aln) target query.
Proof.
  intros Hgt Hgq Hfuel.
  destruct (Align_outcome params target query Score0 want_score fuel Hgt Hgq Hfuel)
    as (A & Q & tr & HA & Hlen & Htr & HT & HQ & _).
  exists (Align.mkPairwiseAlignment A Q tr). eexists. split; [exact HA|].
  pose proof (FromTranscript_columns A Q tr Hlen Htr) as HF.
  rewrite HT, HQ in HF. unfold Align.Transcript. simpl.
  split; [exact HF|].
  pose proof (FT_loop_threads target query tr (Align.mkFT [] [] 0 0)) as Hth.
  unfold Align.FromTranscript in HF.
  destruct (Align.FromTranscript_loop target query tr (Align.mkFT [] [] 0 0))
    as [st|] eqn:El; [|discriminate HF].
  destruct (negb (Align.tPos st =? length target)) eqn:E1; [discriminate HF|].
  destruct (negb (Align.qPos st =? length query)) eqn:E2; [discriminate HF|].
  apply negb_false_iff, Nat.eqb_eq in E1, E2.
  exact (Hth st eq_refl E1 E2).
Qed.

Lemma Align_FromTranscript_witness :
  exists aln score,
    Align.Align 5 (fun _ _ => 0%Z) (list_ascii_of_string "GAT") (list_ascii_of_string "GT")
      true (Align.mkAlignConfig (Align.mkAlignParams 0 (-1) (-1) (-1)) Align.GLOBAL)
    = Some (Align.mkOutcome score (Ok aln))
    /\ Align.FromTranscript (Align.Transcript aln)
         (list_ascii_of_string "GAT") (list_ascii_of_string "GT") = Ok (Some aln)
    /\ threads (Align.Transcript aln)
         (list_ascii_of_string "GAT") (list_ascii_of_string "GT").
Proof.
  apply (Align_FromTranscript (Align.mkAlignParams 0 (-1) (-1) (-1))
           (list_ascii_of_string "GAT") (list_ascii_of_string "GT")
           (fun _ _ => 0%Z) true 5).
  - unfold gap_free. apply (bool_decide_unpack _). vm_compute. exact I.
  - unfold gap_free. apply (bool_decide_unpack _). vm_compute. exact I.
  - simpl. lia.
Defined.

(** ** Optimality of the score *)

Lemma nw_exact_ins (params : Align.AlignParams) (target query : str) (i j : nat) :
  (nw_exact params target query i j + Align.Insert params
   <= nw_exact params target query (S i) j)%Z.
Proof.
  destruct j as [|j].
  - destruct i as [|i]; simpl nw_exact; lia.
  - rewrite nw_exact_S. lia.
Qed.

Lemma nw_exact_del (params : Align.AlignParams) (target query : str) (i j : nat) :
  (nw_exact params target query i j + Align.Delete params
   <= nw_exact params target query i (S j))%Z.
Proof.
  destruct i as [|i].
  - simpl nw_exact. lia.
  - rewrite nw_exact_S. lia.
Qed.

Lemma nw_exact_diag (params : Align.AlignParams) (target query : str) (i j : nat) :
  (nw_exact params target query i j + nw_sub params target query (S i) (S j)
   <= nw_exact params target query (S i) (S j))%Z.
Proof. rewrite nw_exact_S. lia. Qed.

Lemma threads_score_le (params : Align.AlignParams) (x T Q : str) :
  threads x T Q ->
  forall Tp Qp,
    (nw_exact params (Tp ++ T) (Qp ++ Q) (length Qp) (length Tp)
     + transcript_score params x
     <= nw_exact params (Tp ++ T) (Qp ++ Q) (length (Qp ++ Q)) (length (Tp ++ T)))%Z.
Proof.
  induction 1 as [|x t q T Q Heq _ IH|x t q T Q Hne _ IH|x q T Q _ IH|x t T Q _ IH];
    intros Tp Qp.
  - rewrite !app_nil_r. unfold transcript_score. simpl. lia.
  - specialize (IH (Tp ++ [t]) (Qp ++ [q])).
    rewrite <- !app_assoc in IH. simpl in IH.
    rewrite 2!(length_app _ [_]) in IH. simpl in IH. rewrite !Nat.add_1_r in IH.
    pose proof (nw_exact_diag params (Tp ++ t :: T) (Qp ++ q :: Q)
                  (length Qp) (length Tp)) as Hd.
    unfold nw_sub in Hd. replace (S (length Qp) - 1) with (length Qp) in Hd by lia.
    replace (S (length Tp) - 1) with (length Tp) in Hd by lia.
    rewrite !char_at_middle in Hd. subst q. rewrite Ascii.eqb_refl in Hd.
    rewrite transcript_score_cons.
    change (symbol_score params "M"%char) with (Align.Match params). lia.
  - specialize (IH (Tp ++ [t]) (Qp ++ [q])).
    rewrite <- !app_assoc in IH. simpl in IH.
    rewrite 2!(length_app _ [_]) in IH. simpl in IH. rewrite !Nat.add_1_r in IH.
    pose proof (nw_exact_diag params (Tp ++ t :: T) (Qp ++ q :: Q)
                  (length Qp) (length Tp)) as Hd.
    unfold nw_sub in Hd. replace (S (length Qp) - 1) with (length Qp) in Hd by lia.
    replace (S (length Tp) - 1) with (length Tp) in Hd by lia.
    rewrite !char_at_middle in Hd.
    assert (E : Ascii.eqb q t = false) by (apply Ascii.eqb_neq; congruence).
    rewrite E in Hd.
    rewrite transcript_score_cons.
    change (symbol_score params "R"%char) with (Align.Mismatch params). lia.
  - specialize (IH Tp (Qp ++ [q])).
    rewrite <- !app_assoc in IH. simpl in IH.
    rewrite (length_app _ [_]) in IH. simpl in IH. rewrite !Nat.add_1_r in IH.
    pose proof (nw_exact_ins params (Tp ++ T) (Qp ++ q :: Q)
                  (length Qp) (length Tp)) as Hd.
    rewrite transcript_score_cons.
    change (symbol_score params "I"%char) with (Align.Insert params). lia.
  - specialize (IH (Tp ++ [t]) Qp).
    rewrite <- !app_assoc in IH. simpl in IH.
    rewrite (length_app _ [_]) in IH. simpl in IH. rewrite !Nat.add_1_r in IH.
    pose proof (nw_exact_del params (Tp ++ t :: T) (Qp ++ Q)
                  (length Qp) (length Tp)) as Hd.
    rewrite transcript_score_cons.
    change (symbol_score params "D"%char) with (Align.Delete params). lia.
Qed.

(** X7. When the score parameters are small enough for no sum to leave the
    range of [int], the score [Align] reports is an upper bound of the
    score of every transcript that threads through the two strings: no
    alignment of the two strings scores higher. *)
Theorem Align_score_optimal (params : Align.AlignParams) (target query : str)
    (Score0 : Align.Matrix) (B : Z) (fuel : nat) :
  params_bound params B ->
  (Z.of_nat (length query + length target) * B < 2 ^ 31)%Z ->
  length target + length query <= fuel ->
  exists out s,
    Align.Align fuel Score0 target query true (Align.mkAlignConfig params Align.GLOBAL)
    = Some out
    /\ Align.score_out out = Some s
    /\ forall x, threads x target query -> (transcript_score params x <= s)%Z.
Proof.
  intros HB Hfit Hfuel.
  destruct (traceback_spec params target query
              (Align.fillScore params target query Score0)
              fuel (length query) (length target) [] [])
    as (cq & ct & Hr & _); try lia.
  unfold Align.Align. simpl. rewrite Hr. simpl.
  eexists. eexists. split; [reflexivity|]. simpl. split; [reflexivity|].
  intros x Hx.
  rewrite (fillScore_exact params target query Score0 B HB Hfit) by lia.
  pose proof (threads_score_le params x target query Hx [] []) as H.
  simpl in H. lia.
Qed.

Lemma Align_score_optimal_witness :
  exists out s,
    Align.Align 5 (fun _ _ => 7%Z) (list_ascii_of_string "GAT") (list_ascii_of_string "GT")
      true (Align.mkAlignConfig (Align.mkAlignParams 0 (-1) (-1) (-1)) Align.GLOBAL)
    = Some out
    /\ Align.score_out out = Some s
    /\ forall x,
         threads x (list_ascii_of_string "GAT") (list_ascii_of_string "GT") ->
         (transcript_score (Align.mkAlignParams 0 (-1) (-1) (-1)) x <= s)%Z.
Proof.
  apply (Align_score_optimal (Align.mkAlignParams 0 (-1) (-1) (-1))
           (list_ascii_of_string "GAT") (list_ascii_of_string "GT")
           (fun _ _ => 7%Z) 1%Z 5).
  - unfold params_bound. simpl. lia.
  - simpl. lia.
  - simpl. lia.
Defined.

(** ** Aligning against the empty string *)

Lemma rev_replicate (n : nat) (c : ascii) : rev (replicate n c) = replicate n c.
Proof.
  induction n as [|n IH]; [reflexivity|].
  simpl. rewrite IH. clear IH.
  induction n as [|n IH]; [reflexivity|]. simpl. now rewrite IH.
Qed.

Lemma traceback_row0 params target query S :
  forall fuel j raQ raT,
    j <= fuel -> j <= length target ->
    Align.traceback params target query fuel S 0 j raQ raT
    = Some (raQ ++ replicate j GAP, raT ++ rev (take j target)).
Proof.
  induction fuel as [|fuel IH]; intros j raQ raT Hf Hj.
  - assert (j = 0) as -> by lia. simpl. now rewrite !app_nil_r.
  - destruct j as [|j].
    + simpl. now rewrite !app_nil_r.
    + rewrite traceback_step_del by auto.
      rewrite IH by lia. rewrite take_char_at by lia.
      rewrite rev_app_distr, <- !app_assoc. reflexivity.
Qed.

Lemma traceback_col0 params target query S :
  forall fuel i raQ raT,
    i <= fuel -> i <= length query ->
    Align.traceback params target query fuel S i 0 raQ raT
    = Some (raQ ++ rev (take i query), raT ++ replicate i GAP).
Proof.
  induction fuel as [|fuel IH]; intros i raQ raT Hf Hi.
  - assert (i = 0) as -> by lia. simpl. now rewrite !app_nil_r.
  - destruct i as [|i].
    + simpl. now rewrite !app_nil_r.
    + rewrite traceback_step_ins by auto.
      rewrite IH by lia. rewrite take_char_at by lia.
      rewrite rev_app_distr, <- !app_assoc. reflexivity.
Qed.

Lemma columns_all_deleted (s : str) :
  gap_free s ->
  columns s (replicate (length s) GAP) = Ok (replicate (length s) "D"%char).
Proof.
  induction s as [|c s IH]; intros Hg; [reflexivity|].
  apply gap_free_cons in Hg as [Hc Hg]. simpl.
  rewrite (column_code_del _ Hc). simpl. now rewrite (IH Hg).
Qed.

Lemma columns_all_inserted (s : str) :
  gap_free s ->
  columns (replicate (length s) GAP) s = Ok (replicate (length s) "I"%char).
Proof.
  induction s as [|c s IH]; intros Hg; [reflexivity|].
  apply gap_free_cons in Hg as [Hc Hg]. simpl.
  rewrite (column_code_ins _ Hc). simpl. now rewrite (IH Hg).
Qed.

(** X8. Aligning a gap-free string [s] against the empty string returns the
    alignment that pairs every character of [s] with a gap: as target
    against the empty query its transcript is all [D] and its score
    [|s| * Delete]; as query against the empty target its transcript is all
    [I] and its score [|s| * Insert].  For the empty [s] this is the empty
    alignment with score 0. *)
Theorem Align_empty_string (params : Align.AlignParams) (s : str)
    (Score0 : Align.Matrix) (fuel : nat) :
  gap_free s -> length s <= fuel ->
  Align.Align fuel Score0 s [] true (Align.mkAlignConfig params Align.GLOBAL)
  = Some (Align.mkOutcome
            (Some (int_mul (Z.of_nat (length s)) (Align.Delete params)))
            (Ok (Align.mkPairwiseAlignment s (replicate (length s) GAP)
                   (replicate (length s) "D"%char))))
  /\ Align.Align fuel Score0 [] s true (Align.mkAlignConfig params Align.GLOBAL)
     = Some (Align.mkOutcome
               (Some (int_mul (Z.of_nat (length s)) (Align.Insert params)))
               (Ok (Align.mkPairwiseAlignment (replicate (length s) GAP) s
                      (replicate (length s) "I"%char)))).
Proof.
  intros Hg Hfuel. split.
  - destruct (fillScore_spec params s [] Score0) as (Hrow & _ & _).
    unfold Align.Align. simpl. rewrite traceback_row0 by lia. simpl.
    unfold Align.Reverse. rewrite rev_involutive, take_ge, rev_replicate by lia.
    rewrite PairwiseAlignment_new_columns by (now rewrite length_replicate).
    rewrite (columns_all_deleted s Hg). simpl.
    now rewrite (Hrow (length s)) by lia.
  - destruct (fillScore_spec params [] s Score0) as (_ & Hcol & _).
    unfold Align.Align. simpl. rewrite traceback_col0 by lia. simpl.
    unfold Align.Reverse. rewrite rev_involutive, take_ge, rev_replicate by lia.
    rewrite PairwiseAlignment_new_columns by (now rewrite length_replicate).
    rewrite (columns_all_inserted s Hg). simpl.
    now rewrite (Hcol (length s)) by lia.
Qed.

Lemma Align_empty_string_witness :
  Align.Align 3 (fun _ _ => 7%Z) (list_ascii_of_string "GAT") [] true
    (Align.mkAlignConfig (Align.mkAlignParams 0 (-1) (-2) (-3)) Align.GLOBAL)
  = Some (Align.mkOutcome (Some (int_mul 3 (-3)))
            (Ok (Align.mkPairwiseAlignment (list_ascii_of_string "GAT")
                   (list_ascii_of_string "---") (list_ascii_of_string "DDD"))))
  /\ Align.Align 3 (fun _ _ => 7%Z) [] (list_ascii_of_string "GAT") true
       (Align.mkAlignConfig (Align.mkAlignParams 0 (-1) (-2) (-3)) Align.GLOBAL)
     = Some (Align.mkOutcome (Some (int_mul 3 (-2)))
               (Ok (Align.mkPairwiseAlignment (list_ascii_of_string "---")
                      (list_ascii_of_string "GAT") (list_ascii_of_string "III")))).
Proof.
  apply (Align_empty_string (Align.mkAlignParams 0 (-1) (-2) (-3))
           (list_ascii_of_string "GAT") (fun _ _ => 7%Z) 3).
  - unfold gap_free. apply (bool_decide_unpack _). vm_compute. exact I.
  - simpl. lia.
Defined.

(** ** Exchanging the two strings *)

Lemma fillScore_swap (params : Align.AlignParams) (target query : str)
    (Score0 Score0' : Align.Matrix) :
  forall i j, i <= length query -> j <= length target ->
    Align.fillScore params target query Score0 i j
    = Align.fillScore (swap_params params) query target Score0' j i.
Proof.
  destruct (fillScore_spec params target query Score0) as (R & C & Hcell).
  destruct (fillScore_spec (swap_params params) query target Score0')
    as (R' & C' & Hcell').
  induction i as [|i IHi]; intros j Hi Hj.
  - rewrite R, C' by assumption. reflexivity.
  - induction j as [|j IHj].
    + rewrite C, R' by assumption. reflexivity.
    + rewrite (Hcell (S i) (S j)), (Hcell' (S j) (S i)) by lia.
      replace (S i - 1) with i by lia. replace (S j - 1) with j by lia.
      rewrite <- (IHi j), <- (IHi (S j)), <- IHj by lia.
      simpl Align.Match. simpl Align.Mismatch. simpl Align.Insert. simpl Align.Delete.
      rewrite (Ascii.eqb_sym (char_at target j) (char_at query i)). lia.
Qed.

(** X9. Exchanging target and query, together with the insertion and the
    deletion parameter, does not change the score [Align] reports. *)
Theorem Align_score_symmetric (params : Align.AlignParams) (target query : str)
    (Score0 Score0' : Align.Matrix) (fuel : nat) :
  length target + length query <= fuel ->
  exists out out',
    Align.Align fuel Score0 target query true (Align.mkAlignConfig params Align.GLOBAL)
    = Some out
    /\ Align.Align fuel Score0' query target true
         (Align.mkAlignConfig (swap_params params) Align.GLOBAL)
       = Some out'
    /\ Align.score_out out = Align.score_out out'
    /\ Align.score_out out <> None.
Proof.
  intros Hfuel.
  destruct (traceback_spec params target query
              (Align.fillScore params target query Score0)
              fuel (length query) (length target) [] [])
    as (cq & ct & Hr & _); try lia.
  destruct (traceback_spec (swap_params params) query target
              (Align.fillScore (swap_params params) query target Score0')
              fuel (length target) (length query) [] [])
    as (cq' & ct' & Hr' & _); try lia.
  unfold Align.Align. simpl. rewrite Hr, Hr'. simpl.
  eexists. eexists. split; [reflexivity|]. split; [reflexivity|]. simpl.
  split; [|discriminate].
  f_equal. apply fillScore_swap; lia.
Qed.

Lemma Align_score_symmetric_witness :
  exists out out',
    Align.Align 5 (fun _ _ => 7%Z) (list_ascii_of_string "GAT") (list_ascii_of_string "GT")
      true (Align.mkAlignConfig (Align.mkAlignParams 0 (-1) (-2) (-3)) Align.GLOBAL)
    = Some out
    /\ Align.Align 5 (fun _ _ => 9%Z) (list_ascii_of_string "GT")
         (list_ascii_of_string "GAT") true
         (Align.mkAlignConfig (swap_params (Align.mkAlignParams 0 (-1) (-2) (-3)))
            Align.GLOBAL)
       = Some out'
    /\ Align.score_out out = Align.score_out out'
    /\ Align.score_out out <> None.
Proof.
  apply (Align_score_symmetric (Align.mkAlignParams 0 (-1) (-2) (-3))
           (list_ascii_of_string "GAT") (list_ascii_of_string "GT")
           (fun _ _ => 7%Z) (fun _ _ => 9%Z) 5).
  simpl. lia.
Defined.

(** * Further properties of the consensus path *)

Section ConsensusTraceback.
Context {F : Type} {fo : Poa.FloatOps F}.
Hypothesis Hord : FloatOrder fo.

(** [x + 0.0f > x] is false for every C++ float. *)
Hypothesis Hzero : forall x : F, Poa.Fgt (Poa.Fadd x Poa.Fzero) x = false.

Lemma cp_edges_prev (v : Poa.VD) (score : F) (es : list Poa.ED) :
  forall st : Poa.CPState,
    (forall e, e ∈ es -> Poa.source e <> v) ->
    let st' := fold_left (Poa.cp_edge v score) es st in
    Poa.bestPrevVertex st' !! v = Poa.bestPrevVertex st !! v
    \/ (exists e, e ∈ es
          /\ Poa.bestPrevVertex st' !! v = Some (Some (Poa.source e))
          /\ Poa.Fgt (edge_sum score st e) (Poa.ReachingScore (Poa.cp_info st v)) = true).
Proof.
  induction es as [|e es IH]; intros st Hsrc; simpl; [now left|].
  assert (Hsrc' : forall e', e' ∈ es -> Poa.source e' <> v)
    by (intros e' He'; apply Hsrc; now right).
  assert (Hsum : forall e', e' ∈ es ->
            edge_sum score (Poa.cp_edge v score st e) e' = edge_sum score st e').
  { intros e' He'. unfold edge_sum.
    destruct (cp_edge_step v score st e) as (Hinfo & _).
    now rewrite (Hinfo (Poa.source e')) by (apply Hsrc'; assumption). }
  destruct (cp_edge_step v score st e)
    as (_ & _ & [(Hgt & Hi & Hb) | (Hgt & Hi & Hb)] & _).
  - right. destruct (IH (Poa.cp_edge v score st e) Hsrc') as [E | (e' & He' & E & G)].
    + exists e. split; [now left|]. split; [now rewrite E|exact Hgt].
    + exists e'. split; [now right|]. split; [exact E|].
      rewrite (Hsum e' He'), Hi in G. simpl in G.
      exact (Fgt_trans fo Hord _ _ _ G Hgt).
  - destruct (IH (Poa.cp_edge v score st e) Hsrc') as [E | (e' & He' & E & G)].
    + left. now rewrite E.
    + right. exists e'. split; [now right|]. split; [exact E|].
      now rewrite (Hsum e' He'), Hi in G.
Qed.

Lemma in_edges_source (g : Poa.BoostGraph) (v : Poa.VD) (e : Poa.ED) :
  e ∈ Poa.in_edges v g -> (Poa.source e, v) ∈ Poa.edges g.
Proof.
  intros He. apply elem_of_in_edges in He as [He <-].
  destruct e as [a b]. exact He.
Qed.

Lemma cp_vertex_prev (g : Poa.BoostGraph) (mode : Align.AlignMode)
    (minCoverage totalReads : Z) (st : Poa.CPState) (v front : Poa.VD) :
  v <> front -> (forall u, (u, v) ∈ Poa.edges g -> u <> v) ->
  Poa.ReachingScore (Poa.cp_info st front) = Poa.Fzero ->
  Poa.bestPrevVertex (Poa.cp_vertex g mode minCoverage totalReads st v) !! v
  <> Some (Some front).
Proof.
  intros Hvf Hself Hfront. unfold Poa.cp_vertex.
  set (score := Poa.node_score mode minCoverage totalReads (Poa.cp_info st v)).
  set (st0 := Poa.mkCP _ _ _ _).
  assert (Hsrc : forall e, e ∈ Poa.in_edges v g -> Poa.source e <> v)
    by (intros e He; apply Hself, in_edges_source, He).
  destruct (cp_edges_prev v score (Poa.in_edges v g) st0 Hsrc) as [E | (e & He & E & G)].
  - rewrite E. unfold st0. simpl. rewrite lookup_insert_eq. discriminate.
  - rewrite E. intros [= Hs].
    unfold edge_sum, st0 in G. simpl in G. rewrite Hs in G.
    rewrite info_update_same in G. simpl in G.
    rewrite info_update_other in G by congruence.
    rewrite Hfront, Hzero in G. discriminate G.
Qed.

Lemma cp_vertices_prev (g : Poa.BoostGraph) (mode : Align.AlignMode)
    (minCoverage totalReads : Z) (front : Poa.VD) (l : list Poa.VD) :
  forall st0 : Poa.CPState,
    front ∉ l -> preds_before g l ->
    Poa.ReachingScore (Poa.cp_info st0 front) = Poa.Fzero ->
    (forall w, Poa.bestPrevVertex st0 !! w <> Some (Some front)) ->
    forall w,
      Poa.bestPrevVertex
        (fold_left (Poa.cp_vertex g mode minCoverage totalReads) l st0) !! w
      <> Some (Some front).
Proof.
  induction l as [|v l IH]; intros st0 Hf Hpre Hfront Hbp; simpl; [exact Hbp|].
  apply not_elem_of_cons in Hf as [Hfv Hfl].
  apply preds_before_cons in Hpre as [Hv Hpre].
  assert (Hself : (v, v) ∉ Poa.edges g) by (intros H; now destruct (Hv v H)).
  destruct (cp_vertex_spec Hord g mode minCoverage totalReads st0 v Hself)
    as (Hinfo & Hframe & _).
  apply IH; auto.
  - rewrite Hinfo by congruence. exact Hfront.
  - intros w. destruct (decide (w = v)) as [-> | Hw].
    + apply cp_vertex_prev; auto. intros u Hu. now destruct (Hv u Hu).
    + rewrite Hframe by assumption. apply Hbp.
Qed.

Lemma is_path_snoc (g : Poa.BoostGraph) (pre : list Poa.VD) (u w : Poa.VD) :
  is_path g (pre ++ [u]) -> (u, w) ∈ Poa.edges g -> is_path g ((pre ++ [u]) ++ [w]).
Proof.
  induction pre as [|a pre IH]; intros Hp He; simpl; [auto|].
  destruct pre as [|b pre]; simpl in *; [tauto|].
  destruct Hp as [Hab Hp]. split; [exact Hab|]. apply IH; assumption.
Qed.

Lemma follows_best_prev_snoc (bestPrev : gmap Poa.VD (option Poa.VD))
    (pre : list Poa.VD) (u w : Poa.VD) :
  forall prev,
    follows_best_prev bestPrev prev (pre ++ [u]) ->
    bestPrev !! w = Some (Some u) ->
    follows_best_prev bestPrev prev ((pre ++ [u]) ++ [w]).
Proof.
  induction pre as [|a pre IH]; intros prev Hp Hw; simpl in *.
  - tauto.
  - destruct Hp as [Ha Hp]. split; [exact Ha|]. apply IH; assumption.
Qed.

Lemma follows_best_prev_lookup (bestPrev : gmap Poa.VD (option Poa.VD))
    (path : list Poa.VD) :
  forall prev,
    follows_best_prev bestPrev prev path ->
    (forall v, head path = Some v -> bestPrev !! v = Some prev)
    /\ (forall i u v, path !! i = Some u -> path !! S i = Some v ->
          bestPrev !! v = Some (Some u)).
Proof.
  induction path as [|a path IH]; intros prev Hp; simpl in *.
  - split; [discriminate|]. intros i u v Hu. rewrite lookup_nil in Hu. discriminate.
  - destruct Hp as [Ha Hp]. destruct (IH _ Hp) as [Hh Hc]. split.
    + intros v [= <-]. exact Ha.
    + intros [|i] u v Hu Hv; simpl in *.
      * injection Hu as <-. apply Hh. now destruct path.
      * eapply Hc; eassumption.
Qed.

Lemma cp_traceback_spec (g : Poa.BoostGraph) (bestPrev : gmap Poa.VD (option Poa.VD))
    (l : list Poa.VD) :
  NoDup l -> preds_before g l ->
  (forall v, v ∈ l ->
     bestPrev !! v = Some None
     \/ exists u, (u, v) ∈ Poa.edges g /\ u ∈ l /\ bestPrev !! v = Some (Some u)) ->
  forall fuel k w path,
    l !! k = Some w -> k < fuel ->
    exists pre,
      Poa.cp_traceback fuel bestPrev (Some w) path = Some (pre ++ w :: path)
      /\ is_path g (pre ++ [w])
      /\ (forall x, x ∈ pre -> exists i, i < k /\ l !! i = Some x)
      /\ NoDup (pre ++ [w])
      /\ follows_best_prev bestPrev None (pre ++ [w]).
Proof.
  intros Hnd Hpre Hbp.
  induction fuel as [|fuel IH]; intros k w path Hk Hf; [lia|].
  simpl.
  destruct (Hbp w (list_elem_of_lookup_2 _ _ _ Hk)) as [E | (u & He & Hu & E)];
    rewrite E; simpl.
  - exists []. simpl. split; [now destruct fuel|].
    split; [exact I|]. split; [intros x Hx; inversion Hx|].
    split; [apply NoDup_singleton|]. simpl. auto.
  - pose proof (take_drop_middle l k w Hk) as Hsplit.
    destruct (Hpre _ _ _ (eq_sym Hsplit) u He) as [Huw Hu2].
    assert (Hi : exists i, i < k /\ l !! i = Some u).
    { rewrite <- Hsplit in Hu. apply elem_of_app in Hu as [Hu | Hu].
      - apply list_elem_of_lookup_1 in Hu as [i Hi].
        pose proof (lookup_lt_Some _ _ _ Hi) as Hlt.
        rewrite length_take in Hlt.
        exists i. split; [lia|].
        rewrite lookup_take_lt in Hi by lia. exact Hi.
      - apply elem_of_cons in Hu as [Hu | Hu]; [congruence | contradiction]. }
    destruct Hi as (i & Hik & Hi).
    destruct (IH i u (w :: path) Hi ltac:(lia)) as (pre & Hr & Hp & Hx & Hn & Hfo).
    exists (pre ++ [u]). rewrite Hr, <- app_assoc. split; [reflexivity|].
    split; [apply is_path_snoc; assumption|].
    assert (Hall : forall x, x ∈ pre ++ [u] -> exists i, i < k /\ l !! i = Some x).
    { intros x Hx'. apply elem_of_app in Hx' as [Hx' | Hx'].
      - destruct (Hx x Hx') as (j & Hj & Hl). exists j. split; [lia | exact Hl].
      - apply list_elem_of_singleton in Hx' as ->. eauto. }
    split; [exact Hall|].
    split; [|apply follows_best_prev_snoc; assumption].
    apply NoDup_app. split; [exact Hn|]. split; [|apply NoDup_singleton].
    intros x Hx' Hw. apply list_elem_of_singleton in Hw as ->.
    destruct (Hall w Hx') as (j & Hj & Hl).
    pose proof (NoDup_lookup l j k w Hnd Hl Hk). lia.
Qed.

End ConsensusTraceback.

Lemma consensusPath_run {F : Type} {fo : Poa.FloatOps F}
    (Hord : FloatOrder fo) (topological_sort : Poa.BoostGraph -> list Poa.VD)
    (mode : Align.AlignMode) (minCoverage : Z) (p : Poa.PoaGraphImpl (F:=F))
    (fuel : nat) :
  (forall x : F, Poa.Fgt (Poa.Fadd x Poa.Fzero) x = false) ->
  topological_order (Poa.g_ p) (topological_sort (Poa.g_ p)) ->
  topological_sort (Poa.g_ p) <> [] ->
  length (topological_sort (Poa.g_ p)) <= fuel ->
  exists st path,
    Poa.consensusPath_dp topological_sort mode minCoverage p = Some st
    /\ Poa.consensusPath topological_sort fuel mode minCoverage p = Some path
    /\ last path = Poa.bestVertex st
    /\ is_path (Poa.g_ p) path
    /\ NoDup path
    /\ (forall v, v ∈ path -> v ∈ Poa.pop_both (topological_sort (Poa.g_ p)))
    /\ follows_best_prev (Poa.bestPrevVertex st) None path
    /\ (forall v, v ∈ Poa.pop_both (topological_sort (Poa.g_ p)) ->
          exists score, reaching_ok (Poa.g_ p) st score v).
Proof.
  intros Hzero Htopo Hne Hfuel.
  destruct (pop_both_split _ Hne) as (front & post & Hl & Hhead).
  set (mid := Poa.pop_both (topological_sort (Poa.g_ p))) in *.
  pose proof Htopo as Htopo'. rewrite Hl in Htopo'.
  destruct (topological_order_middle _ _ _ _ Htopo') as (Hnd & Hpre & Hfm).
  assert (Hfront : front ∉ mid) by (apply Hfm; now left).
  unfold Poa.consensusPath, Poa.consensusPath_dp. fold mid.
  destruct (topological_sort (Poa.g_ p)) as [|front' rest] eqn:El; [congruence|].
  simpl in Hhead. injection Hhead as ->.
  set (st0 := Poa.mkCP _ _ _ _).
  set (stf := fold_left _ mid st0).
  destruct (cp_vertices_spec Hord (Poa.g_ p) mode minCoverage (Poa.NumReads p) mid st0
              Hnd Hpre) as (_ & _ & _ & Hok & _ & _ & Hbest).
  fold stf in Hok, Hbest.
  assert (Hnf : forall w, Poa.bestPrevVertex stf !! w <> Some (Some front)).
  { apply (cp_vertices_prev Hord Hzero); auto.
    unfold st0. simpl. now rewrite info_update_same. }
  assert (Hbp : forall v, v ∈ mid ->
            Poa.bestPrevVertex stf !! v = Some None
            \/ exists u, (u, v) ∈ Poa.edges (Poa.g_ p) /\ u ∈ mid
                         /\ Poa.bestPrevVertex stf !! v = Some (Some u)).
  { intros v Hv. destruct (Hok v Hv) as (_ & _ & _ & [[_ E] | (u & He & _ & E)]);
      [now left|right].
    exists u. split; [exact He|]. split; [|exact E].
    destruct Htopo as [Hndl Hedges].
    destruct (Hedges u v He) as (i & j & Hi & Hj & Hij).
    apply list_elem_of_lookup_1 in Hv as [j' Hj'].
    assert (Hj2 : (front :: rest) !! S j' = Some v).
    { rewrite Hl. simpl. rewrite lookup_app_l; [exact Hj'|].
      eapply lookup_lt_Some, Hj'. }
    pose proof (NoDup_lookup _ _ _ _ Hndl Hj Hj2) as ->.
    destruct i as [|i].
    - simpl in Hi. injection Hi as <-. destruct (Hnf v E).
    - rewrite Hl in Hi. simpl in Hi.
      rewrite lookup_app_l in Hi
        by (pose proof (lookup_lt_Some _ _ _ Hj'); lia).
      eapply list_elem_of_lookup_2, Hi. }
  exists stf.
  destruct Hbest as [[Hb _] | (w & u & Hw & _ & Hb & _)]; rewrite Hb.
  - exists []. unfold st0. simpl.
    split; [reflexivity|]. split; [now destruct fuel|]. split; [reflexivity|].
    split; [exact I|]. split; [constructor|].
    split; [intros v Hv; inversion Hv|]. split; [exact I|]. eauto.
  - apply list_elem_of_lookup_1 in Hw as [k Hk].
    assert (Hkf : k < fuel).
    { pose proof (lookup_lt_Some _ _ _ Hk) as Hlt.
      assert (length (front :: rest) = length ([front] ++ mid ++ post))
        by (now rewrite <- Hl).
      rewrite !length_app in H. simpl in H. simpl in Hfuel. lia. }
    destruct (cp_traceback_spec (Poa.g_ p) (Poa.bestPrevVertex stf) mid Hnd Hpre Hbp
                fuel k w [] Hk Hkf) as (pre & Hr & Hp & Hx & Hn & Hfo).
    exists (pre ++ [w]).
    split; [reflexivity|]. split; [exact Hr|].
    split; [apply last_snoc|]. split; [exact Hp|]. split; [exact Hn|].
    split; [|split; [exact Hfo | eauto]].
    intros v Hv. apply elem_of_app in Hv as [Hv | Hv].
    + destruct (Hx v Hv) as (i & _ & Hi). eapply list_elem_of_lookup_2, Hi.
    + apply list_elem_of_singleton in Hv as ->. eapply list_elem_of_lookup_2, Hk.
Qed.


(** X10. On a graph whose sorted vertex list is a topological order, the
    traceback loop of [consensusPath] stops within as many iterations as
    there are sorted vertices.  The path it returns ends at the best vertex
    of the dynamic program, follows edges of the graph, visits no vertex
    twice, and never holds the first or the last vertex of the sorted list
    (the enter and the exit vertex). *)
Theorem consensusPath_traceback {F : Type} {fo : Poa.FloatOps F}
    (Hord : FloatOrder fo) (topological_sort : Poa.BoostGraph -> list Poa.VD)
    (mode : Align.AlignMode) (minCoverage : Z) (p : Poa.PoaGraphImpl (F:=F))
    (fuel : nat) :
  (forall x : F, Poa.Fgt (Poa.Fadd x Poa.Fzero) x = false) ->
  topological_order (Poa.g_ p) (topological_sort (Poa.g_ p)) ->
  topological_sort (Poa.g_ p) <> [] ->
  length (topological_sort (Poa.g_ p)) <= fuel ->
  exists st path,
    Poa.consensusPath_dp topological_sort mode minCoverage p = Some st
    /\ Poa.consensusPath topological_sort fuel mode minCoverage p = Some path
    /\ last path = Poa.bestVertex st
    /\ is_path (Poa.g_ p) path
    /\ NoDup path
    /\ forall v, v ∈ path -> v ∈ Poa.pop_both (topological_sort (Poa.g_ p)).
Proof.
  intros Hzero Htopo Hne Hfuel.
  destruct (consensusPath_run Hord topological_sort mode minCoverage p fuel
              Hzero Htopo Hne Hfuel)
    as (st & path & Hdp & Hrun & Hlast & Hp & Hn & Hin & _).
  exists st, path. auto 10.
Qed.

(** X18. Along the path [consensusPath] returns, the reaching scores
    accumulate the scores: the reaching score of the first vertex of the
    path is its own score, and the reaching score of every further vertex
    is its score plus the reaching score of the vertex before it. *)
Theorem consensusPath_scores {F : Type} {fo : Poa.FloatOps F}
    (Hord : FloatOrder fo) (topological_sort : Poa.BoostGraph -> list Poa.VD)
    (mode : Align.AlignMode) (minCoverage : Z) (p : Poa.PoaGraphImpl (F:=F))
    (fuel : nat) :
  (forall x : F, Poa.Fgt (Poa.Fadd x Poa.Fzero) x = false) ->
  topological_order (Poa.g_ p) (topological_sort (Poa.g_ p)) ->
  topological_sort (Poa.g_ p) <> [] ->
  length (topological_sort (Poa.g_ p)) <= fuel ->
  exists st path,
    Poa.consensusPath_dp topological_sort mode minCoverage p = Some st
    /\ Poa.consensusPath topological_sort fuel mode minCoverage p = Some path
    /\ (forall v, head path = Some v ->
          Poa.ReachingScore (Poa.cp_info st v) = Poa.Score (Poa.cp_info st v))
    /\ (forall i u v, path !! i = Some u -> path !! S i = Some v ->
          Poa.ReachingScore (Poa.cp_info st v)
          = Poa.Fadd (Poa.Score (Poa.cp_info st v))
                     (Poa.ReachingScore (Poa.cp_info st u))).
Proof.
  intros Hzero Htopo Hne Hfuel.
  destruct (consensusPath_run Hord topological_sort mode minCoverage p fuel
              Hzero Htopo Hne Hfuel)
    as (st & path & Hdp & Hrun & _ & _ & _ & Hin & Hfo & Hok).
  exists st, path. split; [exact Hdp|]. split; [exact Hrun|].
  destruct (follows_best_prev_lookup _ _ _ Hfo) as [Hhead Hnext].
  split.
  - intros v Hv.
    destruct (Hok v) as (score & Hs & _ & _ & [[E _] | (u & _ & _ & E)]).
    + apply Hin. destruct path; [discriminate | injection Hv as ->; now left].
    + congruence.
    + rewrite (Hhead v Hv) in E. discriminate E.
  - intros i u v Hu Hv.
    destruct (Hok v) as (score & Hs & _ & _ & [[_ E] | (u' & _ & Ers & E)]).
    + apply Hin. eapply list_elem_of_lookup_2, Hv.
    + rewrite (Hnext i u v Hu Hv) in E. discriminate E.
    + rewrite (Hnext i u v Hu Hv) in E. injection E as ->. congruence.
Qed.

Lemma FixedPoint_zero (x : Z) : Poa.Fgt (Poa.Fadd x Poa.Fzero) x = false.
Proof. simpl. rewrite Z.add_0_r, Z.gtb_ltb. apply Z.ltb_irrefl. Qed.

Lemma consensusPath_traceback_witness :
  exists st path,
    Poa.consensusPath_dp dfs_topological_sort Align.GLOBAL 0 graph_GGG_TGG = Some st
    /\ Poa.consensusPath dfs_topological_sort 6 Align.GLOBAL 0 graph_GGG_TGG = Some path
    /\ last path = Poa.bestVertex st
    /\ is_path (Poa.g_ graph_GGG_TGG) path
    /\ NoDup path
    /\ forall v, v ∈ path ->
         v ∈ Poa.pop_both (dfs_topological_sort (Poa.g_ graph_GGG_TGG)).
Proof.
  apply (consensusPath_traceback FixedPoint_order dfs_topological_sort
           Align.GLOBAL 0 graph_GGG_TGG 6).
  - exact FixedPoint_zero.
  - apply topological_orderb_sound. vm_compute. reflexivity.
  - vm_compute. discriminate.
  - apply Nat.leb_le. vm_compute. reflexivity.
Defined.

Lemma consensusPath_scores_witness :
  exists st path,
    Poa.consensusPath_dp dfs_topological_sort Align.GLOBAL 0 graph_GGG_TGG = Some st
    /\ Poa.consensusPath dfs_topological_sort 6 Align.GLOBAL 0 graph_GGG_TGG = Some path
    /\ (forall v, head path = Some v ->
          Poa.ReachingScore (Poa.cp_info st v) = Poa.Score (Poa.cp_info st v))
    /\ (forall i u v, path !! i = Some u -> path !! S i = Some v ->
          Poa.ReachingScore (Poa.cp_info st v)
          = Poa.Fadd (Poa.Score (Poa.cp_info st v))
                     (Poa.ReachingScore (Poa.cp_info st u))).
Proof.
  apply (consensusPath_scores FixedPoint_order dfs_topological_sort
           Align.GLOBAL 0 graph_GGG_TGG 6).
  - exact FixedPoint_zero.
  - apply topological_orderb_sound. vm_compute. reflexivity.
  - vm_compute. discriminate.
  - apply Nat.leb_le. vm_compute. reflexivity.
Defined.

(** * What threading a read does to the graph *)

Section Growth.
Context {F : Type} {fo : Poa.FloatOps F}.
Variable topological_sort : Poa.BoostGraph -> list Poa.VD.
Variable sequence : str.

Lemma grows_touch (lo hi : nat) (p p' : Poa.PoaGraphImpl (F:=F)) :
  lo <= hi ->
  Poa.totalVertices_ p' = Poa.totalVertices_ p ->
  Poa.vertices (Poa.g_ p') = Poa.vertices (Poa.g_ p) ->
  Poa.edges (Poa.g_ p) `prefix_of` Poa.edges (Poa.g_ p') ->
  Poa.enterVertex_ p' = Poa.enterVertex_ p ->
  Poa.exitVertex_ p' = Poa.exitVertex_ p ->
  Poa.numReads_ p' = Poa.numReads_ p ->
  (forall v, Poa.Base (Poa.vertexInfoMap_ p' v) = Poa.Base (Poa.vertexInfoMap_ p v)) ->
  grows sequence lo hi p p'.
Proof.
  intros Hlh HT HV HE Hen Hex Hn HB. unfold grows. rewrite HT, HV, Nat.sub_diag.
  simpl. rewrite app_nil_r.
  split; [lia|]. split; [lia|]. split; [reflexivity|]. split; [exact HE|].
  do 3 (split; [assumption|]). split; [auto|]. intros v Hv. lia.
Qed.

Lemma grows_refl (lo hi : nat) (p : Poa.PoaGraphImpl (F:=F)) :
  lo <= hi -> grows sequence lo hi p p.
Proof. intros H. apply grows_touch; auto. Qed.

Lemma grows_trans (lo mid hi : nat) (p p1 p2 : Poa.PoaGraphImpl (F:=F)) :
  grows sequence mid hi p p1 -> grows sequence lo mid p1 p2 ->
  grows sequence lo hi p p2.
Proof.
  intros (A1 & A2 & A3 & A4 & A5 & A6 & A7 & A8 & A9)
         (B1 & B2 & B3 & B4 & B5 & B6 & B7 & B8 & B9).
  unfold grows. split; [lia|]. split; [lia|]. split.
  - rewrite B3, A3, <- app_assoc. f_equal.
    replace (Poa.totalVertices_ p2 - Poa.totalVertices_ p)
      with ((Poa.totalVertices_ p1 - Poa.totalVertices_ p)
            + (Poa.totalVertices_ p2 - Poa.totalVertices_ p1)) by lia.
    rewrite seq_app. do 2 f_equal. lia.
  - split; [etransitivity; eassumption|].
    split; [congruence|]. split; [congruence|]. split; [congruence|].
    split.
    + intros v Hv. rewrite B8 by lia. apply A8, Hv.
    + intros v Hv. destruct (Nat.lt_ge_cases v (Poa.totalVertices_ p1)) as [Hlt | Hge].
      * destruct (A9 v ltac:(lia)) as (k & Hk & E).
        exists k. split; [lia|]. rewrite B8 by lia. exact E.
      * destruct (B9 v ltac:(lia)) as (k & Hk & E). exists k. split; [lia | exact E].
Qed.

Lemma grows_addVertex (i : nat) (r : Z) (p : Poa.PoaGraphImpl (F:=F)) :
  1 <= i ->
  grows sequence (i - 1) i p (snd (Poa.addVertex (char_at sequence (i - 1)) r p)).
Proof.
  intros Hi. unfold grows, Poa.addVertex. simpl.
  split; [lia|]. split; [lia|]. split.
  - replace (S (Poa.totalVertices_ p) - Poa.totalVertices_ p) with 1 by lia.
    reflexivity.
  - split; [reflexivity|]. do 3 (split; [reflexivity|]). split.
    + intros v Hv. unfold Poa.info_update.
      destruct (Nat.eqb_spec v (Poa.totalVertices_ p)); [lia | reflexivity].
    + intros v Hv. exists (i - 1). split; [lia|].
      unfold Poa.info_update.
      destruct (Nat.eqb_spec v (Poa.totalVertices_ p)); [reflexivity | lia].
Qed.

Lemma add_edge_prefix (u v : Poa.VD) (g : Poa.BoostGraph) :
  Poa.vertices (Poa.add_edge u v g) = Poa.vertices g
  /\ Poa.edges g `prefix_of` Poa.edges (Poa.add_edge u v g).
Proof.
  unfold Poa.add_edge. destruct (bool_decide _); simpl.
  - split; reflexivity.
  - split; [reflexivity|]. now exists [(u, v)].
Qed.

Lemma grows_add_edge (lo hi : nat) (u v : Poa.VD) (p : Poa.PoaGraphImpl (F:=F)) :
  lo <= hi -> grows sequence lo hi p (Poa.with_graph p (Poa.add_edge u v (Poa.g_ p))).
Proof.
  intros H. destruct (add_edge_prefix u v (Poa.g_ p)) as [HV HE].
  apply grows_touch; auto.
Qed.

Lemma thread_bases_grows (n : nat) :
  forall (i : nat) (f : Poa.VD) (p : Poa.PoaGraphImpl (F:=F))
         (i1 : nat) (f1 : Poa.VD) (p1 : Poa.PoaGraphImpl),
    n <= i ->
    Poa.thread_bases n sequence i f p = (i1, f1, p1) ->
    i1 = i - n /\ grows sequence (i - n) i p p1.
Proof.
  induction n as [|n IH]; intros i f p i1 f1 p1 Hn Ht; simpl in Ht.
  - injection Ht as <- <- <-. split; [lia|]. rewrite Nat.sub_0_r.
    apply grows_refl. lia.
  - set (p' := snd (Poa.addVertex (char_at sequence (i - 1)) 1%Z p)) in *.
    apply IH in Ht as [-> Hg]; [|lia].
    split; [lia|].
    replace (i - S n) with (i - 1 - n) by lia.
    eapply grows_trans; [|exact Hg].
    eapply grows_trans; [apply grows_addVertex; lia|].
    apply (grows_add_edge (i - 1) (i - 1)). lia.
Qed.

Lemma tb_move_grows (cols : gmap Poa.VD Poa.AlignmentColumn)
    (alignMode : Align.AlignMode) (st : Poa.TBState) (prevVertex : option Poa.VD)
    (move : Poa.MoveType) (p' : Poa.PoaGraphImpl (F:=F)) (i' : nat)
    (fork' : option Poa.VD) :
  Poa.tb_move sequence cols alignMode st prevVertex move = Some (p', i', fork') ->
  i' <= Poa.tb_i st /\ grows sequence i' (Poa.tb_i st) (Poa.tb_graph st) p'.
Proof.
  destruct st as [p i u v fork]. simpl. intros Hmove.
  destruct move; simpl in Hmove.
  - discriminate.
  - destruct (i =? 0).
    + injection Hmove as <- <- <-. split; [lia | apply grows_refl; lia].
    + destruct (Poa.or_else fork v) as [f|]; [|discriminate]. simpl in Hmove.
      destruct (Poa.thread_bases i sequence i f p) as [[i1 f1] p1] eqn:ET.
      injection Hmove as <- <- <-.
      apply thread_bases_grows in ET as [-> Hg]; [|lia].
      split; [lia | exact Hg].
  - destruct (Poa.is_LOCAL alignMode).
    + destruct prevVertex as [pv|]; [|discriminate]. simpl in Hmove.
      destruct (cols !! pv) as [prevCol|]; [|discriminate]. simpl in Hmove.
      destruct (Poa.thread_bases _ sequence i (Poa.exitVertex_ p) p)
        as [[i1 f1] p1] eqn:ET.
      injection Hmove as <- <- <-.
      apply thread_bases_grows in ET as [-> Hg]; [|lia].
      split; [lia | exact Hg].
    + injection Hmove as <- <- <-. split; [lia | apply grows_refl; lia].
  - destruct (Nat.eqb_spec i 0); [discriminate|]. injection Hmove as <- <- <-.
    split; [lia|].
    destruct fork as [f|].
    + destruct (add_edge_prefix u f (Poa.g_ p)) as [HV HE].
      apply grows_touch; simpl; auto; [lia|].
      intros w. unfold Poa.info_update. now destruct (w =? u).
    + apply grows_touch; simpl; auto; [lia|].
      intros w. unfold Poa.info_update. now destruct (w =? u).
  - destruct (Nat.eqb_spec i 0); [discriminate|].
    destruct (Poa.or_else fork v) as [f|]; [|discriminate]. simpl in Hmove.
    injection Hmove as <- <- <-. split; [lia|].
    eapply grows_trans; [apply (grows_addVertex i 1%Z p); lia|].
    apply (grows_add_edge (i - 1) (i - 1)). lia.
  - injection Hmove as <- <- <-. split; [lia | apply grows_refl; lia].
  - destruct (Nat.eqb_spec i 0); [discriminate|].
    destruct (Poa.or_else fork v) as [f|]; [|discriminate]. simpl in Hmove.
    injection Hmove as <- <- <-. split; [lia|].
    eapply grows_trans; [apply (grows_addVertex i 1%Z p); lia|].
    apply (grows_add_edge (i - 1) (i - 1)). lia.
Qed.

Lemma tb_loop_grows (cols : gmap Poa.VD Poa.AlignmentColumn)
    (alignMode : Align.AlignMode) (p0 : Poa.PoaGraphImpl (F:=F)) (I : nat)
    (fuel : nat) :
  forall st st' : Poa.TBState,
    Poa.tb_i st <= I ->
    grows sequence (Poa.tb_i st) I p0 (Poa.tb_graph st) ->
    Poa.tb_loop fuel sequence cols alignMode st = Some st' ->
    Poa.tb_i st' = 0 /\ grows sequence 0 I p0 (Poa.tb_graph st').
Proof.
  induction fuel as [|fuel IH]; intros st st' Hi Hg Hloop; simpl in Hloop.
  - destruct (Nat.eqb_spec (Poa.tb_u st) (Poa.enterVertex_ (Poa.tb_graph st)));
      destruct (Nat.eqb_spec (Poa.tb_i st) 0); simpl in Hloop; try discriminate.
    injection Hloop as <-. split; [assumption|]. now rewrite e0 in Hg.
  - destruct (Nat.eqb_spec (Poa.tb_u st) (Poa.enterVertex_ (Poa.tb_graph st)));
      destruct (Nat.eqb_spec (Poa.tb_i st) 0); simpl in Hloop;
      try (injection Hloop as <-; split; [assumption|];
           match goal with E : Poa.tb_i _ = 0 |- _ => now rewrite E in Hg end);
      (destruct (Poa.tb_body sequence cols alignMode st) as [st1|] eqn:Eb;
       [|discriminate]; simpl in Hloop;
       unfold Poa.tb_body in Eb;
       destruct (cols !! Poa.tb_u st) as [curCol|]; [|discriminate]; simpl in Eb;
       destruct (Poa.PreviousVertex curCol !! Poa.tb_i st) as [prevVertex|];
         [|discriminate]; simpl in Eb;
       destruct (Poa.ReachingMove curCol !! Poa.tb_i st) as [move|];
         [|discriminate]; simpl in Eb;
       destruct (Poa.tb_move sequence cols alignMode st prevVertex move)
         as [[[p' i'] fork']|] eqn:Em; [|discriminate]; simpl in Eb;
       destruct prevVertex as [pv|]; [|discriminate]; simpl in Eb;
       injection Eb as <-;
       apply tb_move_grows in Em as [Hi' Hg'];
       refine (IH _ st' _ _ Hloop); simpl; [lia | eapply grows_trans; eassumption]).
Qed.

Lemma tagSpan_loop_Base (start end_ : option Poa.VD) (l : list Poa.VD) :
  forall (spanning : bool) (info : Poa.VertexInfoMap (F:=F)) (v : Poa.VD),
    Poa.Base (Poa.tagSpan_loop start end_ l spanning info v) = Poa.Base (info v)
    /\ Poa.Reads (Poa.tagSpan_loop start end_ l spanning info v) = Poa.Reads (info v).
Proof.
  induction l as [|x l IH]; intros spanning info v; simpl; [auto|].
  destruct (Poa.is_vertex end_ x); [auto|].
  destruct (if Poa.is_vertex start x then true else spanning).
  - destruct (IH true (Poa.info_update info x
                 (fun n => Poa.set_SpanningReads (int_add (Poa.SpanningReads n) 1) n)) v)
      as [-> ->].
    unfold Poa.info_update. now destruct (v =? x).
  - apply IH.
Qed.

Lemma grows_tagSpan (lo hi : nat) (start end_ : option Poa.VD)
    (p : Poa.PoaGraphImpl (F:=F)) :
  lo <= hi -> grows sequence lo hi p (Poa.tagSpan topological_sort start end_ p).
Proof.
  intros H. apply grows_touch; simpl; auto. intros v. apply tagSpan_loop_Base.
Qed.

End Growth.

(** X11. Threading a read by traceback, along whatever alignment columns
    and in whatever mode, only adds to the graph: the old vertices and
    edges keep their places, at most one vertex per character of the read
    is added, the new vertices get the next fresh identifiers and each
    carries a character of the read, and no old vertex changes its base;
    the enter vertex, the exit vertex and the number of reads stay. *)
Theorem tracebackAndThread_grows {F : Type} {fo : Poa.FloatOps F}
    (topological_sort : Poa.BoostGraph -> list Poa.VD) (fuel : nat) (sequence : str)
    (cols : gmap Poa.VD Poa.AlignmentColumn) (alignMode : Align.AlignMode)
    (p p' : Poa.PoaGraphImpl (F:=F)) :
  Poa.tracebackAndThread topological_sort fuel sequence cols alignMode p = Some p' ->
  grows sequence 0 (length sequence) p p'.
Proof.
  intros Hrun. unfold Poa.tracebackAndThread in Hrun.
  destruct (cols !! Poa.exitVertex_ p) as [exitCol|]; [|discriminate].
  simpl in Hrun.
  destruct (Poa.PreviousVertex exitCol !! length sequence) as [endSpanVertex|];
    [|discriminate].
  simpl in Hrun.
  destruct (Poa.tb_loop fuel sequence cols alignMode _) as [st|] eqn:El; [|discriminate].
  simpl in Hrun.
  apply (tb_loop_grows sequence cols alignMode p (length sequence)) in El as [_ Hg];
    [|simpl; lia|simpl; apply grows_refl; lia].
  set (p1 := if negb _ then _ else _) in Hrun.
  assert (Hp1 : grows sequence 0 0 (Poa.tb_graph st) p1).
  { unfold p1. destruct (negb _); [apply grows_tagSpan | apply grows_refl]; lia. }
  destruct (Poa.tb_forkVertex st) as [f|]; injection Hrun as <-.
  - eapply grows_trans; [exact Hg|].
    eapply grows_trans; [exact Hp1|]. apply (grows_add_edge sequence 0 0). lia.
  - eapply grows_trans; [exact Hg | exact Hp1].
Qed.

Lemma tracebackAndThread_grows_witness :
  grows (list_ascii_of_string "TGG") 0 3 (thread_first "GGG")
        (thread_next "TGG" columns_TGG (thread_first "GGG")).
Proof.
  apply (tracebackAndThread_grows dfs_topological_sort
           (2 * Poa.num_vertices (Poa.g_ (thread_first "GGG")) + 20)
           (list_ascii_of_string "TGG") (list_to_map columns_TGG) Align.GLOBAL
           (thread_first "GGG")).
  apply (default_succeeded (thread_first "GGG")
           (Poa.tracebackAndThread dfs_topological_sort
              (2 * Poa.num_vertices (Poa.g_ (thread_first "GGG")) + 20)
              (list_ascii_of_string "TGG") (list_to_map columns_TGG) Align.GLOBAL
              (thread_first "GGG"))).
  vm_compute. reflexivity.
Defined.

(** * The first read *)

Section FirstRead.
Context {F : Type} {fo : Poa.FloatOps F}.
Variable topological_sort : Poa.BoostGraph -> list Poa.VD.

Lemma first_read_edges_bound (k : nat) (a b : Poa.VD) :
  1 <= k -> (a, b) ∈ first_read_edges k -> 2 <= b <= k + 1 /\ a < b.
Proof.
  intros Hk H. unfold first_read_edges in H.
  apply elem_of_cons in H as [[= -> ->] | H]; [lia|].
  apply list_elem_of_fmap in H as (i & [= -> ->] & Hi).
  apply list_elem_of_In, in_seq in Hi. lia.
Qed.

Lemma first_read_edges_S (k : nat) :
  1 <= k -> first_read_edges (S k) = first_read_edges k ++ [(k + 1, k + 2)].
Proof.
  intros Hk. unfold first_read_edges. simpl. f_equal.
  replace (k - 0) with (S (k - 1)) by lia.
  rewrite seq_S, map_app. simpl. do 3 f_equal; lia.
Qed.

Lemma threadFirstRead_step_chain (done : str) (base : ascii)
    (st : Poa.FirstReadState (F:=F)) :
  1 <= length done -> first_read_state done st ->
  exists st', Poa.threadFirstRead_step st base = Some st'
              /\ first_read_state (done ++ [base]) st'.
Proof.
  intros Hk (HT & Hen & Hex & HV & HE & Hu & Hs & Hr & Hinfo).
  unfold Poa.threadFirstRead_step, Poa.addVertex. simpl.
  rewrite Hr. destruct (Nat.eqb_spec (length done) 0) as [E | _]; [lia|].
  rewrite Hu. simpl. eexists. split; [reflexivity|].
  assert (Hadd : Poa.add_edge (length done + 1) (Poa.totalVertices_ (Poa.fr_graph st))
                   (Poa.add_vertex (Poa.totalVertices_ (Poa.fr_graph st))
                      (Poa.g_ (Poa.fr_graph st)))
                 = Poa.mkGraph (seq 0 (length done + 2) ++ [length done + 2])
                     (first_read_edges (length done)
                      ++ [(length done + 1, length done + 2)])).
  { unfold Poa.add_edge, Poa.add_vertex. simpl. rewrite HE, HV, HT.
    rewrite bool_decide_eq_false_2; [reflexivity|].
    intros H. apply first_read_edges_bound in H; lia. }
  unfold first_read_state. rewrite length_app.
  cbn [Poa.fr_graph Poa.g_ Poa.totalVertices_ Poa.enterVertex_ Poa.exitVertex_
       Poa.fr_u Poa.fr_startSpanVertex Poa.fr_readPos Poa.vertexInfoMap_
       Poa.with_graph length].
  rewrite Hadd.
  cbn [Poa.vertices Poa.edges].
  rewrite HT, Hen, Hex, Hs.
  split; [lia|]. split; [reflexivity|]. split; [reflexivity|].
  split.
  { replace (length done + 1 + 2) with (S (length done + 2)) by lia.
    now rewrite seq_S. }
  split.
  { rewrite <- first_read_edges_S by lia. f_equal. lia. }
  split; [f_equal; lia|]. split; [reflexivity|]. split; [lia|].
  intros i Hi. unfold Poa.info_update.
  destruct (Nat.eqb_spec (i + 2) (length done + 2)) as [E | E].
  - assert (i = length done) as -> by lia.
    now rewrite char_at_middle.
  - rewrite Hinfo by lia. f_equal.
    unfold char_at. rewrite app_nth1 by lia. reflexivity.
Qed.

Lemma threadFirstRead_loop_chain (rest : str) :
  forall (done : str) (st : Poa.FirstReadState (F:=F)),
    1 <= length done -> first_read_state done st ->
    exists st', Poa.threadFirstRead_loop rest st = Some st'
                /\ first_read_state (done ++ rest) st'.
Proof.
  induction rest as [|base rest IH]; intros done st Hk Hst; simpl.
  - exists st. now rewrite app_nil_r.
  - destruct (threadFirstRead_step_chain done base st Hk Hst) as (st1 & -> & Hst1).
    simpl.
    destruct (IH (done ++ [base]) st1) as (st' & Hl & Hst'); auto.
    + rewrite length_app. simpl. lia.
    + exists st'. now rewrite <- app_assoc in Hst'.
Qed.

Lemma threadFirstRead_first (base : ascii) :
  exists st,
    Poa.threadFirstRead_step (Poa.mkFR (Poa.PoaGraphImpl_new (F:=F)) None None 0) base
    = Some st
    /\ first_read_state [base] st.
Proof.
  eexists. split; [reflexivity|].
  unfold first_read_state. simpl.
  repeat split; try reflexivity.
  intros i Hi. assert (i = 0) as -> by lia. reflexivity.
Qed.

Lemma threadFirstRead_unfold (sequence : str) (p : Poa.PoaGraphImpl (F:=F))
    (st : Poa.FirstReadState) (u : Poa.VD) :
  Poa.threadFirstRead_loop sequence (Poa.mkFR p None None 0) = Some st ->
  Poa.fr_u st = Some u ->
  Poa.threadFirstRead topological_sort sequence p
  = Some (Poa.tagSpan topological_sort (Poa.fr_startSpanVertex st) (Some u)
            (Poa.with_graph (Poa.fr_graph st)
               (Poa.add_edge u (Poa.exitVertex_ (Poa.fr_graph st))
                  (Poa.g_ (Poa.fr_graph st))))).
Proof.
  intros H1 H2. unfold Poa.threadFirstRead. rewrite H1. simpl. rewrite H2. reflexivity.
Qed.

(** The graph [threadFirstRead] leaves before it tags the span. *)
Lemma threadFirstRead_untagged (sequence : str) :
  sequence <> [] ->
  exists p1,
    Poa.threadFirstRead topological_sort sequence Poa.PoaGraphImpl_new
    = Some (Poa.tagSpan topological_sort (Some 2) (Some (length sequence + 1)) p1)
    /\ Poa.vertices (Poa.g_ p1) = seq 0 (length sequence + 2)
    /\ Poa.edges (Poa.g_ p1)
       = first_read_edges (length sequence) ++ [(length sequence + 1, 1)]
    /\ Poa.enterVertex_ p1 = 0 /\ Poa.exitVertex_ p1 = 1
    /\ Poa.totalVertices_ p1 = length sequence + 2
    /\ forall i, i < length sequence ->
         Poa.vertexInfoMap_ p1 (i + 2)
         = Poa.mkPoaNode (char_at sequence i) 1%Z 0%Z Poa.Fzero Poa.Fzero.
Proof.
  intros Hne.
  assert (Hrun : exists st,
            Poa.threadFirstRead_loop sequence
              (Poa.mkFR (Poa.PoaGraphImpl_new (F:=F)) None None 0) = Some st
            /\ first_read_state sequence st).
  { destruct sequence as [|base rest]; [congruence|].
    destruct (threadFirstRead_first base) as (st1 & Hs1 & Hst1).
    destruct (threadFirstRead_loop_chain rest [base] st1) as (st & Hl & Hst);
      [simpl; lia | exact Hst1|].
    exists st. split; [|exact Hst].
    change (Poa.threadFirstRead_loop (base :: rest) ?s)
      with (st' ← Poa.threadFirstRead_step s base; Poa.threadFirstRead_loop rest st').
    rewrite Hs1. exact Hl. }
  destruct Hrun as (st & Hloop & HT & Hen & Hex & HV & HE & Hu & Hs & Hr & Hinfo).
  assert (Hlen : 1 <= length sequence) by (destruct sequence; [congruence | simpl; lia]).
  rewrite (threadFirstRead_unfold _ _ st _ Hloop Hu), Hs, Hex.
  eexists. split; [reflexivity|].
  unfold Poa.with_graph.
  cbn [Poa.g_ Poa.enterVertex_ Poa.exitVertex_ Poa.totalVertices_ Poa.vertexInfoMap_].
  split; [rewrite (proj1 (add_edge_prefix _ _ _)); exact HV|].
  split.
  - unfold Poa.add_edge. rewrite HE. rewrite bool_decide_eq_false_2; [reflexivity|].
    intros H. apply first_read_edges_bound in H; lia.
  - auto.
Qed.

End FirstRead.

(** X12. The first read is threaded linearly: on the empty graph,
    [threadFirstRead] of a non-empty sequence adds one vertex per
    character, with the identifiers [2, 3, ...] in the order of the read,
    each with the character as its base and read by one read, and joins
    them in a chain from the enter vertex [0] to the exit vertex [1].  The
    sequence along the new vertices is the read.  On the empty sequence
    the run does not complete (the edge into the exit vertex would start at
    the null vertex). *)
Theorem threadFirstRead_chain {F : Type} {fo : Poa.FloatOps F}
    (topological_sort : Poa.BoostGraph -> list Poa.VD) (sequence : str) :
  Poa.threadFirstRead topological_sort [] (Poa.PoaGraphImpl_new (F:=F)) = None
  /\ (sequence <> [] ->
      exists p,
        Poa.threadFirstRead topological_sort sequence Poa.PoaGraphImpl_new = Some p
        /\ Poa.vertices (Poa.g_ p) = seq 0 (length sequence + 2)
        /\ Poa.edges (Poa.g_ p)
           = first_read_edges (length sequence) ++ [(length sequence + 1, 1)]
        /\ Poa.enterVertex_ p = 0 /\ Poa.exitVertex_ p = 1
        /\ Poa.sequenceAlongPath (Poa.vertexInfoMap_ p) (seq 2 (length sequence))
           = sequence
        /\ forall v, 2 <= v < length sequence + 2 ->
             Poa.Reads (Poa.vertexInfoMap_ p v) = 1%Z).
Proof.
  split; [reflexivity|]. intros Hne.
  destruct (threadFirstRead_untagged topological_sort sequence Hne)
    as (p1 & Hrun & HV & HE & Hen & Hex & HT & Hinfo).
  eexists. split; [exact Hrun|]. simpl.
  split; [exact HV|]. split; [exact HE|]. split; [exact Hen|]. split; [exact Hex|].
  assert (Hnode : forall i, i < length sequence ->
            Poa.Base (Poa.tagSpan_loop (Some 2) (Some (length sequence + 1))
                        (topological_sort (Poa.g_ p1)) false
                        (Poa.vertexInfoMap_ p1) (i + 2)) = char_at sequence i
            /\ Poa.Reads (Poa.tagSpan_loop (Some 2) (Some (length sequence + 1))
                            (topological_sort (Poa.g_ p1)) false
                            (Poa.vertexInfoMap_ p1) (i + 2)) = 1%Z).
  { intros i Hi.
    destruct (tagSpan_loop_Base (Some 2) (Some (length sequence + 1))
                (topological_sort (Poa.g_ p1)) false (Poa.vertexInfoMap_ p1) (i + 2))
      as [-> ->].
    now rewrite Hinfo. }
  split.
  - unfold Poa.sequenceAlongPath.
    apply nth_ext with (d := NUL) (d' := NUL);
      [now rewrite length_map, length_seq|].
    intros i Hi. rewrite length_map, length_seq in Hi.
    rewrite (nth_indep _ NUL (Poa.Base (Poa.tagSpan_loop (Some 2)
               (Some (length sequence + 1)) (topological_sort (Poa.g_ p1)) false
               (Poa.vertexInfoMap_ p1) 0)))
      by (now rewrite length_map, length_seq).
    rewrite (map_nth (fun v => Poa.Base (Poa.tagSpan_loop (Some 2)
               (Some (length sequence + 1)) (topological_sort (Poa.g_ p1)) false
               (Poa.vertexInfoMap_ p1) v))).
    rewrite seq_nth by assumption.
    replace (2 + i) with (i + 2) by lia. apply Hnode, Hi.
  - intros v Hv. replace v with ((v - 2) + 2) by lia. apply Hnode. lia.
Qed.

Lemma threadFirstRead_chain_witness :
  Poa.threadFirstRead dfs_topological_sort [] (Poa.PoaGraphImpl_new (F:=Z)) = None
  /\ exists p,
       Poa.threadFirstRead dfs_topological_sort (list_ascii_of_string "GGG")
         Poa.PoaGraphImpl_new = Some p
       /\ Poa.vertices (Poa.g_ p) = seq 0 (3 + 2)
       /\ Poa.edges (Poa.g_ p) = first_read_edges 3 ++ [(3 + 1, 1)]
       /\ Poa.enterVertex_ p = 0 /\ Poa.exitVertex_ p = 1
       /\ Poa.sequenceAlongPath (Poa.vertexInfoMap_ p) (seq 2 3)
          = list_ascii_of_string "GGG"
       /\ forall v, 2 <= v < 3 + 2 -> Poa.Reads (Poa.vertexInfoMap_ p v) = 1%Z.
Proof.
  destruct (threadFirstRead_chain dfs_topological_sort (list_ascii_of_string "GGG"))
    as [Hempty Hchain].
  split; [exact Hempty|]. apply Hchain. discriminate.
Defined.

Lemma first_read_edges_step (n i : nat) :
  2 <= i <= n -> (i, S i) ∈ first_read_edges n.
Proof.
  intros Hi. unfold first_read_edges. right.
  apply list_elem_of_fmap. exists i. split; [reflexivity|].
  apply list_elem_of_In, in_seq. lia.
Qed.

Lemma chain_order (g : Poa.BoostGraph) (l : list Poa.VD) (n : nat) :
  topological_order g l ->
  (forall i, 2 <= i <= n -> (i, S i) ∈ Poa.edges g) ->
  forall b a, 2 <= a < b -> b <= n + 1 ->
    exists i j, l !! i = Some a /\ l !! j = Some b /\ i < j.
Proof.
  intros [Hnd Hedges] Hchain.
  induction b as [|b IH]; intros a Ha Hb; [lia|].
  destruct (Hedges b (S b) (Hchain b ltac:(lia))) as (i' & j' & Hi' & Hj' & Hlt).
  destruct (Nat.eq_dec a b) as [-> | Hab]; [eauto|].
  destruct (IH a ltac:(lia) ltac:(lia)) as (i & j & Hi & Hj & Hij).
  pose proof (NoDup_lookup _ _ _ _ Hnd Hj Hi') as ->.
  exists i, j'. split; [exact Hi|]. split; [exact Hj' | lia].
Qed.

(** X13. After the first read is threaded, its span is tagged from its
    first vertex up to, but not including, its last: whatever topological
    order the sort delivers, every vertex of the read but the last is
    counted as spanned by one read, and the last by none. *)
Theorem threadFirstRead_spanning {F : Type} {fo : Poa.FloatOps F}
    (topological_sort : Poa.BoostGraph -> list Poa.VD) (sequence : str)
    (p : Poa.PoaGraphImpl (F:=F)) :
  Poa.threadFirstRead topological_sort sequence Poa.PoaGraphImpl_new = Some p ->
  topological_order (Poa.g_ p) (topological_sort (Poa.g_ p)) ->
  (forall v, 2 <= v <= length sequence ->
     Poa.SpanningReads (Poa.vertexInfoMap_ p v) = 1%Z)
  /\ Poa.SpanningReads (Poa.vertexInfoMap_ p (length sequence + 1)) = 0%Z.
Proof.
  intros Hrun Htopo.
  assert (Hne : sequence <> []).
  { intros ->. discriminate Hrun. }
  destruct (threadFirstRead_untagged topological_sort sequence Hne)
    as (p1 & Hrun' & HV & HE & Hen & Hex & HT & Hinfo).
  rewrite Hrun' in Hrun. injection Hrun as <-.
  simpl in Htopo. simpl.
  set (n := length sequence) in *.
  set (l := topological_sort (Poa.g_ p1)) in *.
  assert (Hn : 1 <= n) by (unfold n; destruct sequence; [congruence | simpl; lia]).
  pose proof Htopo as [Hnd Hedges].
  assert (Hchain : forall i, 2 <= i <= n -> (i, S i) ∈ Poa.edges (Poa.g_ p1)).
  { intros i Hi. rewrite HE. apply elem_of_app. left.
    now apply first_read_edges_step. }
  assert (H02 : exists i, l !! i = Some 2).
  { destruct (Hedges 0 2) as (i & j & _ & Hj & _); [|eauto].
    rewrite HE. apply elem_of_app. left. now left. }
  assert (Hlast : exists j, l !! j = Some (n + 1)).
  { destruct (Hedges (n + 1) 1) as (i & j & Hi & _); [|eauto].
    rewrite HE. apply elem_of_app. right. now left. }
  split.
  - intros v Hv.
    assert (Hspan : in_span l 2 (n + 1) v).
    { destruct (chain_order _ _ n Htopo Hchain (n + 1) v ltac:(lia) ltac:(lia))
        as (jv & je & Hjv & Hje & Hlt).
      assert (Hstart : exists i, l !! i = Some 2 /\ i <= jv).
      { destruct (Nat.eq_dec v 2) as [-> | Hv2]; [eauto|].
        destruct (chain_order _ _ n Htopo Hchain v 2 ltac:(lia) ltac:(lia))
          as (i & j & Hi & Hj & Hij).
        pose proof (NoDup_lookup _ _ _ _ Hnd Hj Hjv) as ->.
        exists i. split; [exact Hi | lia]. }
      destruct Hstart as (i & Hi & Hij).
      exists i, jv. split; [exact Hi|]. split; [exact Hjv|]. split; [exact Hij|].
      intros k Hk Hend.
      pose proof (NoDup_lookup _ _ _ _ Hnd Hend Hje). lia. }
    apply reaches_tagged_in_span in Hspan.
    destruct (tagSpan_loop_spec 2 (n + 1) l false (Poa.vertexInfoMap_ p1) v Hnd)
      as [Htag _].
    rewrite (Htag Hspan). simpl.
    replace v with ((v - 2) + 2) by lia. rewrite Hinfo by lia. reflexivity.
  - destruct (tagSpan_loop_spec 2 (n + 1) l false (Poa.vertexInfoMap_ p1) (n + 1) Hnd)
      as [_ Hkeep].
    rewrite Hkeep.
    + replace (n + 1) with ((n - 1) + 2) by lia. rewrite Hinfo by lia. reflexivity.
    + rewrite reaches_tagged_in_span. intros (i & j & _ & Hj & _ & Hno).
      exact (Hno j (le_n j) Hj).
Qed.

Lemma threadFirstRead_spanning_witness :
  (forall v, 2 <= v <= 3 ->
     Poa.SpanningReads (Poa.vertexInfoMap_ (thread_first "GGG") v) = 1%Z)
  /\ Poa.SpanningReads (Poa.vertexInfoMap_ (thread_first "GGG") (3 + 1)) = 0%Z.
Proof.
  apply (threadFirstRead_spanning dfs_topological_sort (list_ascii_of_string "GGG")
           (thread_first "GGG")).
  - apply (default_succeeded Poa.PoaGraphImpl_new
             (Poa.threadFirstRead dfs_topological_sort (list_ascii_of_string "GGG")
                Poa.PoaGraphImpl_new)).
    vm_compute. reflexivity.
  - apply topological_orderb_sound. vm_compute. reflexivity.
Defined.

(** * Candidate variants *)

Section Variants.
Context {F : Type} {fo : Poa.FloatOps F} {fn : Poa.FloatNeg F}.
Variable unordered_elements : gset Poa.VD -> list Poa.VD.
Variable p : Poa.PoaGraphImpl (F:=F).
Variable bestPath_ : list Poa.VD.

Local Abbreviation g := (Poa.g_ p).
Local Abbreviation info := (Poa.vertexInfoMap_ p).
Local Abbreviation at_ := (Poa.path_at bestPath_).

Lemma elem_of_childVertices (v w : Poa.VD) :
  w ∈ Poa.childVertices v g <-> (v, w) ∈ Poa.edges g.
Proof.
  unfold Poa.childVertices, Poa.out_edges.
  rewrite elem_of_list_to_set, list_elem_of_In, in_map_iff. split.
  - intros ([a b] & <- & He). apply filter_In in He as [He Hs].
    simpl in Hs. apply Nat.eqb_eq in Hs as <-. now apply list_elem_of_In.
  - intros He. exists (v, w). split; [reflexivity|].
    apply filter_In. split; [now apply list_elem_of_In | apply Nat.eqb_refl].
Qed.

Lemma elem_of_parentVertices (v w : Poa.VD) :
  w ∈ Poa.parentVertices v g <-> (w, v) ∈ Poa.edges g.
Proof.
  unfold Poa.parentVertices, Poa.in_edges.
  rewrite elem_of_list_to_set, list_elem_of_In, in_map_iff. split.
  - intros ([a b] & <- & He). apply filter_In in He as [He Hs].
    simpl in Hs. apply Nat.eqb_eq in Hs as <-. now apply list_elem_of_In.
  - intros He. exists (w, v). split; [reflexivity|].
    apply filter_In. split; [now apply list_elem_of_In | apply Nat.eqb_refl].
Qed.

Lemma findPossibleVariants_elem (m : Poa.ScoredMutation) :
  m ∈ Poa.findPossibleVariants unordered_elements p bestPath_
  <-> exists i, 2 <= i /\ i + 2 < length bestPath_
                /\ m ∈ Poa.variants_at unordered_elements p bestPath_ i.
Proof.
  unfold Poa.findPossibleVariants.
  rewrite list_elem_of_In, in_flat_map. split.
  - intros (i & Hi & Hm). apply in_seq in Hi. exists i.
    split; [lia|]. split; [lia|]. now apply list_elem_of_In.
  - intros (i & H2 & Hi & Hm). exists i. split; [apply in_seq; lia|].
    now apply list_elem_of_In.
Qed.

Lemma variants_at_elem (i : nat) (m : Poa.ScoredMutation) :
  m ∈ Poa.variants_at unordered_elements p bestPath_ i
  <-> ((at_ i, at_ (i + 2)) ∈ Poa.edges g
       /\ m = Poa.mkScoredMutation Poa.DELETION (i + 1) "-"%char
                (Poa.Fneg (Poa.Score (info (at_ (i + 1))))))
      \/ (exists w s,
            Poa.best_child unordered_elements info None
              (Poa.childVertices (at_ i) g) (Poa.parentVertices (at_ (i + 1)) g)
            = (s, Some w)
            /\ m = Poa.mkScoredMutation Poa.INSERTION (i + 1) (Poa.Base (info w)) s)
      \/ (exists w s,
            Poa.best_child unordered_elements info (Some (at_ (i + 1)))
              (Poa.childVertices (at_ i) g) (Poa.parentVertices (at_ (i + 2)) g)
            = (s, Some w)
            /\ m = Poa.mkScoredMutation Poa.SUBSTITUTION (i + 1) (Poa.Base (info w)) s).
Proof.
  unfold Poa.variants_at.
  destruct (Poa.best_child unordered_elements info None _ _) as [s1 v1].
  destruct (Poa.best_child unordered_elements info (Some _) _ _) as [s2 v2].
  rewrite !elem_of_app. rewrite <- elem_of_childVertices.
  assert (Hdel : forall x : Poa.ScoredMutation,
            m ∈ (if bool_decide (at_ (i + 2) ∈ Poa.childVertices (at_ i) g)
                 then [x] else [])
            <-> at_ (i + 2) ∈ Poa.childVertices (at_ i) g /\ m = x).
  { intros x. destruct (bool_decide_reflect (at_ (i + 2) ∈ Poa.childVertices (at_ i) g)).
    - rewrite list_elem_of_singleton. tauto.
    - rewrite elem_of_nil. tauto. }
  assert (Hopt : forall (s : F) (v : option Poa.VD) (f : Poa.VD -> Poa.ScoredMutation),
            m ∈ match v with Some w => [f w] | None => [] end
            <-> exists w s', (s, v) = (s', Some w) /\ m = f w /\ s' = s).
  { intros s v f. destruct v as [w|].
    - rewrite list_elem_of_singleton. split.
      + intros ->. eauto.
      + intros (w' & s' & [= <- <-] & -> & _). reflexivity.
    - rewrite elem_of_nil. split; [tauto|]. intros (w' & s' & [=] & _). }
  rewrite Hdel.
  rewrite (Hopt s1 v1 (fun w => Poa.mkScoredMutation Poa.INSERTION (i + 1)
                                  (Poa.Base (info w)) s1)).
  rewrite (Hopt s2 v2 (fun w => Poa.mkScoredMutation Poa.SUBSTITUTION (i + 1)
                                  (Poa.Base (info w)) s2)).
  split.
  - intros [H | [(w & s' & E & -> & ->) | (w & s' & E & -> & ->)]]; eauto 10.
  - intros [H | [(w & s' & E & ->) | (w & s' & E & ->)]]; [auto| |].
    + right. left. exists w, s'. injection E as -> ->. auto.
    + right. right. exists w, s'. injection E as -> ->. auto.
Qed.

Section BestChild.
Hypothesis Hord : FloatOrder fo.
Hypothesis Helems : forall (s : gset Poa.VD) (x : Poa.VD),
  x ∈ unordered_elements s <-> x ∈ s.

Lemma best_child_fold (skip : option Poa.VD) (lookBack : gset Poa.VD)
    (l : list Poa.VD) :
  forall best : F * option Poa.VD,
    let r := fold_left (Poa.best_child_step info skip lookBack) l best in
    Poa.Fgt (fst best) (fst r) = false
    /\ (forall w, w ∈ l -> Poa.is_vertex skip w = false -> w ∈ lookBack ->
          Poa.Fgt (Poa.Score (info w)) (fst r) = false)
    /\ (r = best
        \/ exists w, w ∈ l /\ Poa.is_vertex skip w = false /\ w ∈ lookBack
                     /\ r = (Poa.Score (info w), Some w)
                     /\ Poa.Fgt (Poa.Score (info w)) (fst best) = true).
Proof.
  induction l as [|vi l IH]; intros best; simpl.
  - split; [apply (Fgt_irrefl fo Hord)|]. split; [|now left].
    intros w Hw. inversion Hw.
  - remember (Poa.best_child_step info skip lookBack best vi) as best1 eqn:Eb1.
    destruct (IH best1) as (Hmono & Hall & Hres).
    assert (Hstep : (best1 = best
                     /\ (Poa.is_vertex skip vi = false -> vi ∈ lookBack ->
                         Poa.Fgt (Poa.Score (info vi)) (fst best) = false))
                    \/ (best1 = (Poa.Score (info vi), Some vi)
                        /\ Poa.is_vertex skip vi = false /\ vi ∈ lookBack
                        /\ Poa.Fgt (Poa.Score (info vi)) (fst best) = true)).
    { subst best1. unfold Poa.best_child_step.
      destruct (Poa.is_vertex skip vi); [left; split; [reflexivity | discriminate]|].
      destruct (bool_decide_reflect (vi ∈ lookBack)) as [Hin | Hnin];
        [|left; split; [reflexivity | contradiction]].
      destruct (Poa.Fgt (Poa.Score (info vi)) (fst best)) eqn:E; auto. }
    clear Eb1.
    destruct Hstep as [[E1 Hvi] | (E1 & Hs & Hin & Hgt)]; subst best1.
    + split; [exact Hmono|]. split.
      * intros w Hw Hsk Hlb. apply elem_of_cons in Hw as [-> | Hw]; [|auto].
        exact (Fgt_false_trans Hord _ _ _ (Hvi Hsk Hlb) Hmono).
      * destruct Hres as [-> | (w & Hw & Hsk & Hlb & E & G)]; [now left|].
        right. exists w. split; [now right|]. auto.
    + simpl in Hmono.
      split; [exact (Fgt_true_false Hord _ _ _ Hgt Hmono)|]. split.
      * intros w Hw Hsk Hlb. apply elem_of_cons in Hw as [-> | Hw]; [|auto].
        exact Hmono.
      * right. destruct Hres as [-> | (w & Hw & Hsk & Hlb & E & G)].
        -- exists vi. split; [now left|]. auto.
        -- exists w. split; [now right|]. do 3 (split; [assumption|]).
           simpl in G. exact (Fgt_trans fo Hord _ _ _ G Hgt).
Qed.

Lemma best_child_spec (skip : option Poa.VD) (children lookBack : gset Poa.VD) :
  let r := Poa.best_child unordered_elements info skip children lookBack in
  (forall w, w ∈ children -> Poa.is_vertex skip w = false -> w ∈ lookBack ->
     Poa.Fgt (Poa.Score (info w)) (fst r) = false)
  /\ (r = (Poa.Fneg_max, None)
      \/ exists w, w ∈ children /\ Poa.is_vertex skip w = false /\ w ∈ lookBack
                   /\ r = (Poa.Score (info w), Some w)
                   /\ Poa.Fgt (Poa.Score (info w)) Poa.Fneg_max = true).
Proof.
  unfold Poa.best_child.
  destruct (best_child_fold skip lookBack (unordered_elements children)
              (Poa.Fneg_max, None)) as (_ & Hall & Hres).
  split.
  - intros w Hw. apply Hall, Helems, Hw.
  - destruct Hres as [E | (w & Hw & H)]; [now left|].
    right. exists w. split; [apply Helems, Hw | exact H].
Qed.

End BestChild.
End Variants.

Lemma variants_at_length {F : Type} {fo : Poa.FloatOps F} {fn : Poa.FloatNeg F}
    (unordered_elements : gset Poa.VD -> list Poa.VD)
    (p : Poa.PoaGraphImpl (F:=F)) (bestPath_ : list Poa.VD) (i : nat) :
  length (Poa.variants_at unordered_elements p bestPath_ i) <= 3.
Proof.
  unfold Poa.variants_at.
  destruct (Poa.best_child unordered_elements _ None _ _) as [s1 [w1|]];
    destruct (Poa.best_child unordered_elements _ (Some _) _ _) as [s2 [w2|]];
    destruct (bool_decide _); simpl; lia.
Qed.

(** X14. [findPossibleVariants] reports nothing on a path of fewer than five
    vertices; every variant it reports stands at a position from 3 to the
    length of the path less 2; and it reports at most three variants for
    each of the [length - 4] positions it visits. *)
Theorem findPossibleVariants_positions {F : Type} {fo : Poa.FloatOps F}
    {fn : Poa.FloatNeg F} (unordered_elements : gset Poa.VD -> list Poa.VD)
    (p : Poa.PoaGraphImpl (F:=F)) (bestPath_ : list Poa.VD) :
  (length bestPath_ < 5 ->
   Poa.findPossibleVariants unordered_elements p bestPath_ = [])
  /\ (forall m, m ∈ Poa.findPossibleVariants unordered_elements p bestPath_ ->
        3 <= Poa.mut_Position m /\ Poa.mut_Position m + 2 <= length bestPath_)
  /\ length (Poa.findPossibleVariants unordered_elements p bestPath_)
     <= 3 * (length bestPath_ - 4).
Proof.
  split; [|split].
  - intros Hlen. unfold Poa.findPossibleVariants.
    replace (length bestPath_ - 4) with 0 by lia. reflexivity.
  - intros m Hm. apply findPossibleVariants_elem in Hm as (i & H2 & Hi & Hm).
    apply variants_at_elem in Hm
      as [[_ ->] | [(w & s & _ & ->) | (w & s & _ & ->)]]; simpl; lia.
  - unfold Poa.findPossibleVariants.
    rewrite <- (length_seq (length bestPath_ - 4) 2) at 2.
    generalize (seq 2 (length bestPath_ - 4)). intros l.
    induction l as [|i l IH]; simpl; [lia|].
    rewrite length_app.
    pose proof (variants_at_length unordered_elements p bestPath_ i). lia.
Qed.

(** X15. [findPossibleVariants] reports a deletion at position [i + 1]
    exactly when the graph has an edge from the path's vertex [i] straight
    to its vertex [i + 2] (for [i] from 2 to the length less 3); the
    deletion carries the base ['-'] and the negated score of the vertex
    skipped. *)
Theorem findPossibleVariants_deletion {F : Type} {fo : Poa.FloatOps F}
    {fn : Poa.FloatNeg F} (unordered_elements : gset Poa.VD -> list Poa.VD)
    (p : Poa.PoaGraphImpl (F:=F)) (bestPath_ : list Poa.VD)
    (pos : nat) (b : ascii) (s : F) :
  Poa.mkScoredMutation Poa.DELETION pos b s
    ∈ Poa.findPossibleVariants unordered_elements p bestPath_
  <-> exists i,
        2 <= i /\ i + 2 < length bestPath_ /\ pos = i + 1
        /\ (Poa.path_at bestPath_ i, Poa.path_at bestPath_ (i + 2))
             ∈ Poa.edges (Poa.g_ p)
        /\ b = "-"%char
        /\ s = Poa.Fneg (Poa.Score (Poa.vertexInfoMap_ p (Poa.path_at bestPath_ (i + 1)))).
Proof.
  rewrite findPossibleVariants_elem. split.
  - intros (i & H2 & Hi & Hm). exists i. split; [exact H2|]. split; [exact Hi|].
    apply variants_at_elem in Hm
      as [[He [= -> -> ->]] | [(w & s' & _ & [=]) | (w & s' & _ & [=])]].
    auto.
  - intros (i & H2 & Hi & -> & He & -> & ->). exists i.
    split; [exact H2|]. split; [exact Hi|].
    apply variants_at_elem. left. auto.
Qed.

(** X16. [findPossibleVariants] reports an insertion at position [i + 1]
    only for a vertex that is both a child of the path's vertex [i] and a
    parent of its vertex [i + 1]; the insertion carries the base and the
    score of that vertex, the score exceeds [-FLT_MAX], and no other such
    vertex has a higher score.  Conversely, whenever such a vertex with a
    score above [-FLT_MAX] exists, an insertion at [i + 1] is reported. *)
Theorem findPossibleVariants_insertion {F : Type} {fo : Poa.FloatOps F}
    {fn : Poa.FloatNeg F} (Hord : FloatOrder fo)
    (unordered_elements : gset Poa.VD -> list Poa.VD)
    (p : Poa.PoaGraphImpl (F:=F)) (bestPath_ : list Poa.VD) :
  (forall (s : gset Poa.VD) (x : Poa.VD), x ∈ unordered_elements s <-> x ∈ s) ->
  let candidate := fun i w =>
    (Poa.path_at bestPath_ i, w) ∈ Poa.edges (Poa.g_ p)
    /\ (w, Poa.path_at bestPath_ (i + 1)) ∈ Poa.edges (Poa.g_ p) in
  (forall pos b s,
     Poa.mkScoredMutation Poa.INSERTION pos b s
       ∈ Poa.findPossibleVariants unordered_elements p bestPath_ ->
     exists i w,
       2 <= i /\ i + 2 < length bestPath_ /\ pos = i + 1
       /\ candidate i w
       /\ b = Poa.Base (Poa.vertexInfoMap_ p w)
       /\ s = Poa.Score (Poa.vertexInfoMap_ p w)
       /\ Poa.Fgt s Poa.Fneg_max = true
       /\ forall w', candidate i w' ->
            Poa.Fgt (Poa.Score (Poa.vertexInfoMap_ p w')) s = false)
  /\ (forall i w,
        2 <= i -> i + 2 < length bestPath_ -> candidate i w ->
        Poa.Fgt (Poa.Score (Poa.vertexInfoMap_ p w)) Poa.Fneg_max = true ->
        exists b s,
          Poa.mkScoredMutation Poa.INSERTION (i + 1) b s
            ∈ Poa.findPossibleVariants unordered_elements p bestPath_).
Proof.
  intros Helems candidate.
  assert (Hspec := fun i =>
            best_child_spec unordered_elements p Hord Helems None
              (Poa.childVertices (Poa.path_at bestPath_ i) (Poa.g_ p))
              (Poa.parentVertices (Poa.path_at bestPath_ (i + 1)) (Poa.g_ p))).
  split.
  - intros pos b s Hm. apply findPossibleVariants_elem in Hm as (i & H2 & Hi & Hm).
    apply variants_at_elem in Hm
      as [[_ [=]] | [(w & s' & E & [= -> -> ->]) | (w & s' & _ & [=])]].
    destruct (Hspec i) as [Hmax [Hnone | (w' & Hc & _ & Hp & E' & Hgt)]];
      rewrite E in *; [discriminate Hnone|].
    injection E' as -> ->.
    exists i, w'. split; [exact H2|]. split; [exact Hi|]. split; [reflexivity|].
    split; [split; [apply elem_of_childVertices, Hc | apply elem_of_parentVertices, Hp]|].
    split; [reflexivity|]. split; [reflexivity|]. split; [exact Hgt|].
    intros w'' [Hc'' Hp'']. apply Hmax; [|reflexivity|].
    + now apply elem_of_childVertices.
    + now apply elem_of_parentVertices.
  - intros i w H2 Hi [Hc Hp] Hgt.
    destruct (Hspec i) as [Hmax [Hnone | (w' & _ & _ & _ & E' & _)]].
    + rewrite Hnone in Hmax. simpl in Hmax.
      rewrite Hmax in Hgt; [discriminate Hgt| |reflexivity|].
      * now apply elem_of_childVertices.
      * now apply elem_of_parentVertices.
    + eexists. eexists. apply findPossibleVariants_elem. exists i.
      split; [exact H2|]. split; [exact Hi|].
      apply variants_at_elem. right. left. eauto.
Qed.

(** X17. [findPossibleVariants] reports a substitution at position [i + 1]
    only for a vertex other than the path's vertex [i + 1] that is both a
    child of its vertex [i] and a parent of its vertex [i + 2]; the
    substitution carries the base of that vertex and, as its score, the
    score of that vertex itself (not a difference of scores), which exceeds
    [-FLT_MAX] and is not exceeded by any other such vertex.  Conversely,
    whenever such a vertex with a score above [-FLT_MAX] exists, a
    substitution at [i + 1] is reported. *)
Theorem findPossibleVariants_substitution {F : Type} {fo : Poa.FloatOps F}
    {fn : Poa.FloatNeg F} (Hord : FloatOrder fo)
    (unordered_elements : gset Poa.VD -> list Poa.VD)
    (p : Poa.PoaGraphImpl (F:=F)) (bestPath_ : list Poa.VD) :
  (forall (s : gset Poa.VD) (x : Poa.VD), x ∈ unordered_elements s <-> x ∈ s) ->
  let candidate := fun i w =>
    w <> Poa.path_at bestPath_ (i + 1)
    /\ (Poa.path_at bestPath_ i, w) ∈ Poa.edges (Poa.g_ p)
    /\ (w, Poa.path_at bestPath_ (i + 2)) ∈ Poa.edges (Poa.g_ p) in
  (forall pos b s,
     Poa.mkScoredMutation Poa.SUBSTITUTION pos b s
       ∈ Poa.findPossibleVariants unordered_elements p bestPath_ ->
     exists i w,
       2 <= i /\ i + 2 < length bestPath_ /\ pos = i + 1
       /\ candidate i w
       /\ b = Poa.Base (Poa.vertexInfoMap_ p w)
       /\ s = Poa.Score (Poa.vertexInfoMap_ p w)
       /\ Poa.Fgt s Poa.Fneg_max = true
       /\ forall w', candidate i w' ->
            Poa.Fgt (Poa.Score (Poa.vertexInfoMap_ p w')) s = false)
  /\ (forall i w,
        2 <= i -> i + 2 < length bestPath_ -> candidate i w ->
        Poa.Fgt (Poa.Score (Poa.vertexInfoMap_ p w)) Poa.Fneg_max = true ->
        exists b s,
          Poa.mkScoredMutation Poa.SUBSTITUTION (i + 1) b s
            ∈ Poa.findPossibleVariants unordered_elements p bestPath_).
Proof.
  intros Helems candidate.
  assert (Hspec := fun i =>
            best_child_spec unordered_elements p Hord Helems
              (Some (Poa.path_at bestPath_ (i + 1)))
              (Poa.childVertices (Poa.path_at bestPath_ i) (Poa.g_ p))
              (Poa.parentVertices (Poa.path_at bestPath_ (i + 2)) (Poa.g_ p))).
  assert (Hskip : forall x w, Poa.is_vertex (Some x) w = false <-> w <> x).
  { intros x w. simpl. apply Nat.eqb_neq. }
  split.
  - intros pos b s Hm. apply findPossibleVariants_elem in Hm as (i & H2 & Hi & Hm).
    apply variants_at_elem in Hm
      as [[_ [=]] | [(w & s' & _ & [=]) | (w & s' & E & [= -> -> ->])]].
    destruct (Hspec i) as [Hmax [Hnone | (w' & Hc & Hsk & Hp & E' & Hgt)]];
      rewrite E in *; [discriminate Hnone|].
    injection E' as -> ->.
    exists i, w'. split; [exact H2|]. split; [exact Hi|]. split; [reflexivity|].
    split.
    { split; [apply Hskip, Hsk|].
      split; [apply elem_of_childVertices, Hc | apply elem_of_parentVertices, Hp]. }
    split; [reflexivity|]. split; [reflexivity|]. split; [exact Hgt|].
    intros w'' (Hne & Hc'' & Hp''). apply Hmax.
    + now apply elem_of_childVertices.
    + now apply Hskip.
    + now apply elem_of_parentVertices.
  - intros i w H2 Hi (Hne & Hc & Hp) Hgt.
    destruct (Hspec i) as [Hmax [Hnone | (w' & _ & _ & _ & E' & _)]].
    + rewrite Hnone in Hmax. simpl in Hmax.
      rewrite Hmax in Hgt; [discriminate Hgt| | |].
      * now apply elem_of_childVertices.
      * now apply Hskip.
      * now apply elem_of_parentVertices.
    + eexists. eexists. apply findPossibleVariants_elem. exists i.
      split; [exact H2|]. split; [exact Hi|].
      apply variants_at_elem. right. right. eauto.
Qed.

Example findPossibleVariants_example :
  Poa.findPossibleVariants elements graph_variants path_variants
  = [ Poa.mkScoredMutation Poa.DELETION 3 "-"%char (-29999)%Z;
      Poa.mkScoredMutation Poa.INSERTION 3 "T"%char (-10001)%Z;
      Poa.mkScoredMutation Poa.SUBSTITUTION 3 "C"%char (-10001)%Z ].
Proof. vm_compute. reflexivity. Qed.

Lemma findPossibleVariants_insertion_witness :
  let candidate := fun i w =>
    (Poa.path_at path_variants i, w) ∈ Poa.edges (Poa.g_ graph_variants)
    /\ (w, Poa.path_at path_variants (i + 1)) ∈ Poa.edges (Poa.g_ graph_variants) in
  (forall pos b s,
     Poa.mkScoredMutation Poa.INSERTION pos b s
       ∈ Poa.findPossibleVariants elements graph_variants path_variants ->
     exists i w,
       2 <= i /\ i + 2 < length path_variants /\ pos = i + 1
       /\ candidate i w
       /\ b = Poa.Base (Poa.vertexInfoMap_ graph_variants w)
       /\ s = Poa.Score (Poa.vertexInfoMap_ graph_variants w)
       /\ Poa.Fgt s Poa.Fneg_max = true
       /\ forall w', candidate i w' ->
            Poa.Fgt (Poa.Score (Poa.vertexInfoMap_ graph_variants w')) s = false)
  /\ (forall i w,
        2 <= i -> i + 2 < length path_variants -> candidate i w ->
        Poa.Fgt (Poa.Score (Poa.vertexInfoMap_ graph_variants w)) Poa.Fneg_max = true ->
        exists b s,
          Poa.mkScoredMutation Poa.INSERTION (i + 1) b s
            ∈ Poa.findPossibleVariants elements graph_variants path_variants).
Proof.
  apply (findPossibleVariants_insertion FixedPoint_order elements graph_variants
           path_variants).
  intros s x. apply elem_of_elements.
Defined.

Lemma findPossibleVariants_substitution_witness :
  let candidate := fun i w =>
    w <> Poa.path_at path_variants (i + 1)
    /\ (Poa.path_at path_variants i, w) ∈ Poa.edges (Poa.g_ graph_variants)
    /\ (w, Poa.path_at path_variants (i + 2)) ∈ Poa.edges (Poa.g_ graph_variants) in
  (forall pos b s,
     Poa.mkScoredMutation Poa.SUBSTITUTION pos b s
       ∈ Poa.findPossibleVariants elements graph_variants path_variants ->
     exists i w,
       2 <= i /\ i + 2 < length path_variants /\ pos = i + 1
       /\ candidate i w
       /\ b = Poa.Base (Poa.vertexInfoMap_ graph_variants w)
       /\ s = Poa.Score (Poa.vertexInfoMap_ graph_variants w)
       /\ Poa.Fgt s Poa.Fneg_max = true
       /\ forall w', candidate i w' ->
            Poa.Fgt (Poa.Score (Poa.vertexInfoMap_ graph_variants w')) s = false)
  /\ (forall i w,
        2 <= i -> i + 2 < length path_variants -> candidate i w ->
        Poa.Fgt (Poa.Score (Poa.vertexInfoMap_ graph_variants w)) Poa.Fneg_max = true ->
        exists b s,
          Poa.mkScoredMutation Poa.SUBSTITUTION (i + 1) b s
            ∈ Poa.findPossibleVariants elements graph_variants path_variants).
Proof.
  apply (findPossibleVariants_substitution FixedPoint_order elements graph_variants
           path_variants).
  intros s x. apply elem_of_elements.
Defined.

(** * Counting the reads through the vertices *)

Lemma sum_app (l1 l2 : list Z) :
  fold_right Z.add 0%Z (l1 ++ l2)
  = (fold_right Z.add 0%Z l1 + fold_right Z.add 0%Z l2)%Z.
Proof. induction l1 as [|a l1 IH]; simpl; [reflexivity | rewrite IH; lia]. Qed.

Lemma sum_seq_S (f : nat -> Z) (T : nat) :
  fold_right Z.add 0%Z (map f (seq 0 (S T)))
  = (fold_right Z.add 0%Z (map f (seq 0 T)) + f T)%Z.
Proof. rewrite seq_S, map_app, sum_app. simpl. lia. Qed.

Lemma sum_ext (f f' : nat -> Z) (T : nat) :
  (forall v, v < T -> f' v = f v) ->
  fold_right Z.add 0%Z (map f' (seq 0 T)) = fold_right Z.add 0%Z (map f (seq 0 T)).
Proof.
  intros H. f_equal. apply map_ext_in. intros v Hv. apply in_seq in Hv.
  apply H. lia.
Qed.

Lemma sum_update (f f' : nat -> Z) (u : nat) :
  (forall v, v <> u -> f' v = f v) ->
  forall T, u < T ->
    fold_right Z.add 0%Z (map f' (seq 0 T))
    = (fold_right Z.add 0%Z (map f (seq 0 T)) + (f' u - f u))%Z.
Proof.
  intros H. induction T as [|T IH]; intros Hu; [lia|].
  rewrite !sum_seq_S. destruct (Nat.eq_dec u T) as [-> | Hne].
  - rewrite (sum_ext f f') by (intros v Hv; apply H; lia). lia.
  - rewrite IH by lia. rewrite (H T) by congruence. lia.
Qed.

Section Reads.
Context {F : Type} {fo : Poa.FloatOps F}.
Variable topological_sort : Poa.BoostGraph -> list Poa.VD.
Variable sequence : str.

Lemma total_reads_addVertex (c : ascii) (p : Poa.PoaGraphImpl (F:=F)) :
  total_reads (snd (Poa.addVertex c 1%Z p)) = (total_reads p + 1)%Z.
Proof.
  unfold total_reads, Poa.addVertex. simpl snd.
  cbn [Poa.totalVertices_ Poa.vertexInfoMap_].
  rewrite sum_seq_S. rewrite info_update_same. simpl Poa.Reads.
  f_equal. apply sum_ext. intros v Hv. now rewrite info_update_other by lia.
Qed.

Lemma total_reads_same (p p' : Poa.PoaGraphImpl (F:=F)) :
  Poa.totalVertices_ p' = Poa.totalVertices_ p ->
  (forall v, Poa.Reads (Poa.vertexInfoMap_ p' v) = Poa.Reads (Poa.vertexInfoMap_ p v)) ->
  total_reads p' = total_reads p.
Proof.
  intros HT H. unfold total_reads. rewrite HT. apply sum_ext. auto.
Qed.

Lemma total_reads_match (u : Poa.VD) (p : Poa.PoaGraphImpl (F:=F)) :
  u < Poa.totalVertices_ p ->
  cong32 (total_reads
            (Poa.with_info p (Poa.info_update (Poa.vertexInfoMap_ p) u
                                (fun n => Poa.set_Reads (int_add (Poa.Reads n) 1) n))))
         (total_reads p + 1).
Proof.
  intros Hu. unfold total_reads. cbn [Poa.with_info Poa.totalVertices_ Poa.vertexInfoMap_].
  rewrite (sum_update (fun v => Poa.Reads (Poa.vertexInfoMap_ p v)) _ u).
  - rewrite info_update_same. simpl Poa.Reads. unfold int_add.
    destruct (int_wrap_cong32 (Poa.Reads (Poa.vertexInfoMap_ p u) + 1)) as [k ->].
    exists k. lia.
  - intros v Hv. now rewrite info_update_other.
  - exact Hu.
Qed.

Lemma thread_bases_reads (n : nat) :
  forall (i : nat) (f : Poa.VD) (p : Poa.PoaGraphImpl (F:=F))
         (i1 : nat) (f1 : Poa.VD) (p1 : Poa.PoaGraphImpl),
    Poa.thread_bases n sequence i f p = (i1, f1, p1) ->
    total_reads p1 = (total_reads p + Z.of_nat n)%Z.
Proof.
  induction n as [|n IH]; intros i f p i1 f1 p1 Ht; simpl in Ht.
  - injection Ht as <- <- <-. lia.
  - apply IH in Ht. rewrite Ht.
    rewrite (total_reads_same (snd (Poa.addVertex (char_at sequence (i - 1)) 1%Z p)) _)
      by reflexivity.
    rewrite total_reads_addVertex. lia.
Qed.

Lemma tb_move_reads (cols : gmap Poa.VD Poa.AlignmentColumn)
    (alignMode : Align.AlignMode) (st : Poa.TBState) (prevVertex : option Poa.VD)
    (move : Poa.MoveType) (p' : Poa.PoaGraphImpl (F:=F)) (i' : nat)
    (fork' : option Poa.VD) :
  Poa.tb_u st < Poa.totalVertices_ (Poa.tb_graph st) ->
  Poa.tb_move sequence cols alignMode st prevVertex move = Some (p', i', fork') ->
  cong32 (total_reads p' + Z.of_nat i')
         (total_reads (Poa.tb_graph st) + Z.of_nat (Poa.tb_i st)).
Proof.
  destruct st as [p i u v fork]. simpl. intros Hu Hmove.
  destruct move; simpl in Hmove.
  - discriminate.
  - destruct (i =? 0).
    + injection Hmove as <- <- <-. apply cong32_refl.
    + destruct (Poa.or_else fork v) as [f|]; [|discriminate]. simpl in Hmove.
      destruct (Poa.thread_bases i sequence i f p) as [[i1 f1] p1] eqn:ET.
      injection Hmove as <- <- <-.
      pose proof (thread_bases_reads _ _ _ _ _ _ _ ET) as Hr.
      apply (thread_bases_grows sequence) in ET as [-> _]; [|lia].
      rewrite Hr. exists 0%Z. lia.
  - destruct (Poa.is_LOCAL alignMode).
    + destruct prevVertex as [pv|]; [|discriminate]. simpl in Hmove.
      destruct (cols !! pv) as [prevCol|]; [|discriminate]. simpl in Hmove.
      destruct (Poa.thread_bases _ sequence i (Poa.exitVertex_ p) p)
        as [[i1 f1] p1] eqn:ET.
      injection Hmove as <- <- <-.
      pose proof (thread_bases_reads _ _ _ _ _ _ _ ET) as Hr.
      apply (thread_bases_grows sequence) in ET as [-> _]; [|lia].
      rewrite Hr. exists 0%Z. lia.
    + injection Hmove as <- <- <-. apply cong32_refl.
  - destruct (Nat.eqb_spec i 0); [discriminate|]. injection Hmove as <- <- <-.
    assert (Hm : forall q : Poa.PoaGraphImpl (F:=F),
              Poa.totalVertices_ q = Poa.totalVertices_ p ->
              Poa.vertexInfoMap_ q = Poa.vertexInfoMap_ p ->
              cong32 (total_reads
                        (Poa.with_info q (Poa.info_update (Poa.vertexInfoMap_ q) u
                           (fun n => Poa.set_Reads (int_add (Poa.Reads n) 1) n)))
                      + Z.of_nat (i - 1))
                     (total_reads p + Z.of_nat i)).
    { intros q HT Hi.
      destruct (total_reads_match u q ltac:(lia)) as [k ->].
      rewrite (total_reads_same p q HT) by (intros w; now rewrite Hi).
      exists k. lia. }
    destruct fork as [f|]; apply Hm; reflexivity.
  - destruct (Nat.eqb_spec i 0); [discriminate|].
    destruct (Poa.or_else fork v) as [f|]; [|discriminate]. simpl in Hmove.
    injection Hmove as <- <- <-.
    rewrite (total_reads_same (snd (Poa.addVertex (char_at sequence (i - 1)) 1%Z p)) _)
      by reflexivity.
    rewrite total_reads_addVertex. exists 0%Z. lia.
  - injection Hmove as <- <- <-. apply cong32_refl.
  - destruct (Nat.eqb_spec i 0); [discriminate|].
    destruct (Poa.or_else fork v) as [f|]; [|discriminate]. simpl in Hmove.
    injection Hmove as <- <- <-.
    rewrite (total_reads_same (snd (Poa.addVertex (char_at sequence (i - 1)) 1%Z p)) _)
      by reflexivity.
    rewrite total_reads_addVertex. exists 0%Z. lia.
Qed.

Lemma tb_loop_reads (cols : gmap Poa.VD Poa.AlignmentColumn)
    (alignMode : Align.AlignMode) (p0 : Poa.PoaGraphImpl (F:=F)) (total : Z)
    (fuel : nat) :
  PoaInv p0 -> wf_columns p0 cols ->
  forall st st' : Poa.TBState,
    TBInv p0 st ->
    cong32 (total_reads (Poa.tb_graph st) + Z.of_nat (Poa.tb_i st)) total ->
    Poa.tb_loop fuel sequence cols alignMode st = Some st' ->
    cong32 (total_reads (Poa.tb_graph st')) total.
Proof.
  intros Hinv0 Hwf.
  induction fuel as [|fuel IH]; intros st st' Hst Hc Hloop; simpl in Hloop.
  - destruct (Nat.eqb_spec (Poa.tb_u st) (Poa.enterVertex_ (Poa.tb_graph st)));
      destruct (Nat.eqb_spec (Poa.tb_i st) 0); simpl in Hloop; try discriminate.
    injection Hloop as <-. rewrite e0 in Hc. simpl in Hc.
    now rewrite Z.add_0_r in Hc.
  - destruct (Nat.eqb_spec (Poa.tb_u st) (Poa.enterVertex_ (Poa.tb_graph st)));
      destruct (Nat.eqb_spec (Poa.tb_i st) 0); simpl in Hloop;
      try (injection Hloop as <-;
           match goal with E : Poa.tb_i _ = 0 |- _ => rewrite E in Hc end;
           simpl in Hc; now rewrite Z.add_0_r in Hc);
      (destruct (Poa.tb_body sequence cols alignMode st) as [st1|] eqn:Eb;
       [|discriminate]; simpl in Hloop;
       pose proof (tb_body_inv p0 sequence cols alignMode st st1 Hinv0 Hwf Hst Eb)
         as Hst1;
       apply (IH st1 st' Hst1); [|exact Hloop];
       unfold Poa.tb_body in Eb;
       destruct (cols !! Poa.tb_u st) as [curCol|]; [|discriminate]; simpl in Eb;
       destruct (Poa.PreviousVertex curCol !! Poa.tb_i st) as [prevVertex|];
         [|discriminate]; simpl in Eb;
       destruct (Poa.ReachingMove curCol !! Poa.tb_i st) as [move|];
         [|discriminate]; simpl in Eb;
       destruct (Poa.tb_move sequence cols alignMode st prevVertex move)
         as [[[p' i'] fork']|] eqn:Em; [|discriminate]; simpl in Eb;
       destruct prevVertex as [pv|]; [|discriminate]; simpl in Eb;
       injection Eb as <-; simpl;
       eapply cong32_trans; [|exact Hc];
       apply (tb_move_reads _ _ _ _ _ _ _ _) in Em; [exact Em|];
       destruct Hst as (_ & _ & _ & _ & Htot & Hu & _); lia).
Qed.

End Reads.

(** X19. When [tracebackAndThread] completes on a graph that satisfies the
    structural invariants, along alignment columns that name graph
    predecessors, every character of the read has been counted on exactly
    one vertex: the total of [Reads] over all vertices has grown by the
    length of the read (in [int] arithmetic, that is modulo [2^32]). *)
Theorem tracebackAndThread_reads {F : Type} {fo : Poa.FloatOps F}
    (topological_sort : Poa.BoostGraph -> list Poa.VD) (fuel : nat) (sequence : str)
    (cols : gmap Poa.VD Poa.AlignmentColumn) (alignMode : Align.AlignMode)
    (p p' : Poa.PoaGraphImpl (F:=F)) :
  PoaInv p -> wf_columns p cols ->
  Poa.tracebackAndThread topological_sort fuel sequence cols alignMode p = Some p' ->
  cong32 (total_reads p') (total_reads p + Z.of_nat (length sequence)).
Proof.
  intros Hinv Hwf Hrun. unfold Poa.tracebackAndThread in Hrun.
  destruct (cols !! Poa.exitVertex_ p) as [exitCol|]; [|discriminate].
  simpl in Hrun.
  destruct (Poa.PreviousVertex exitCol !! length sequence) as [endSpanVertex|];
    [|discriminate].
  simpl in Hrun.
  destruct (Poa.tb_loop fuel sequence cols alignMode _) as [st|] eqn:El; [|discriminate].
  simpl in Hrun.
  apply (tb_loop_reads sequence cols alignMode p
           (total_reads p + Z.of_nat (length sequence))) in El;
    [|assumption|assumption| |apply cong32_refl].
  2:{ unfold TBInv. simpl. split; [exact Hinv|]. repeat split; auto.
      apply (inv_exit_lt p Hinv). }
  set (p1 := if negb _ then _ else _) in Hrun.
  assert (Hp1 : total_reads p1 = total_reads (Poa.tb_graph st)).
  { unfold p1. destruct (negb _); [|reflexivity].
    apply total_reads_same; [reflexivity|].
    intros v. simpl. apply tagSpan_loop_Base. }
  destruct (Poa.tb_forkVertex st) as [f|]; injection Hrun as <-.
  - rewrite (total_reads_same p1 _) by reflexivity. now rewrite Hp1.
  - now rewrite Hp1.
Qed.

Lemma tracebackAndThread_reads_witness :
  cong32 (total_reads (thread_next "TGG" columns_TGG (thread_first "GGG")))
         (total_reads (thread_first "GGG") + Z.of_nat 3).
Proof.
  apply (tracebackAndThread_reads dfs_topological_sort
           (2 * Poa.num_vertices (Poa.g_ (thread_first "GGG")) + 20)
           (list_ascii_of_string "TGG") (list_to_map columns_TGG) Align.GLOBAL
           (thread_first "GGG")).
  - apply (threadFirstRead_inv dfs_topological_sort (list_ascii_of_string "GGG")
             Poa.PoaGraphImpl_new).
    + apply PoaGraphImpl_new_inv.
    + apply (default_succeeded Poa.PoaGraphImpl_new
               (Poa.threadFirstRead dfs_topological_sort (list_ascii_of_string "GGG")
                  Poa.PoaGraphImpl_new)).
      vm_compute. reflexivity.
  - apply columns_TGG_wf.
  - apply (default_succeeded (thread_first "GGG")
             (Poa.tracebackAndThread dfs_topological_sort
                (2 * Poa.num_vertices (Poa.g_ (thread_first "GGG")) + 20)
                (list_ascii_of_string "TGG") (list_to_map columns_TGG) Align.GLOBAL
                (thread_first "GGG"))).
    vm_compute. reflexivity.
Defined.

(** * The number of iterations of the traceback loop *)

Lemma index_of_Some (v : Poa.VD) (l : list Poa.VD) :
  forall i, NoDup l -> l !! i = Some v -> index_of v l = Some i.
Proof.
  induction l as [|x l IH]; intros i Hnd Hi; [rewrite lookup_nil in Hi; discriminate|].
  apply NoDup_cons in Hnd as [Hx Hnd]. simpl.
  destruct i as [|i]; simpl in Hi.
  - injection Hi as ->. now rewrite Nat.eqb_refl.
  - destruct (Nat.eqb_spec x v) as [-> | _].
    + destruct Hx. eapply list_elem_of_lookup_2, Hi.
    + now rewrite (IH i Hnd Hi).
Qed.

Lemma vertex_rank_le (l : list Poa.VD) (v : Poa.VD) : vertex_rank l v <= length l.
Proof.
  unfold vertex_rank. destruct (index_of v l) as [i|] eqn:E; simpl; [|lia].
  apply index_of_lookup, lookup_lt_Some in E. lia.
Qed.

Lemma vertex_rank_edge (g : Poa.BoostGraph) (l : list Poa.VD) (a b : Poa.VD) :
  topological_order g l -> (a, b) ∈ Poa.edges g ->
  vertex_rank l a < vertex_rank l b.
Proof.
  intros [Hnd Hedges] He. destruct (Hedges a b He) as (i & j & Hi & Hj & Hij).
  unfold vertex_rank.
  now rewrite (index_of_Some _ _ _ Hnd Hi), (index_of_Some _ _ _ Hnd Hj).
Qed.

Section Iterations.
Context {F : Type} {fo : Poa.FloatOps F}.
Variable sequence : str.
Variable cols : gmap Poa.VD (Poa.AlignmentColumn (F:=F)).
Variable alignMode : Align.AlignMode.
Variable p0 : Poa.PoaGraphImpl (F:=F).
Variable l : list Poa.VD.
Hypothesis Hinv0 : PoaInv p0.
Hypothesis Hwf : wf_columns p0 cols.
Hypothesis Hend : end_at_exit p0 cols.
Hypothesis Htopo : topological_order (Poa.g_ p0) l.

Lemma tb_move_i (st : Poa.TBState (F:=F)) (prevVertex : option Poa.VD)
    (move : Poa.MoveType) (p' : Poa.PoaGraphImpl (F:=F)) (i' : nat)
    (fork' : option Poa.VD) :
  Poa.tb_move sequence cols alignMode st prevVertex move = Some (p', i', fork') ->
  i' <= Poa.tb_i st
  /\ (move = Poa.StartMove -> i' = 0)
  /\ (move = Poa.ExtraMove -> i' < Poa.tb_i st).
Proof.
  intros Hmove. pose proof (tb_move_grows sequence _ _ _ _ _ _ _ _ Hmove) as [Hle _].
  split; [exact Hle|].
  destruct st as [p i u v fork]. simpl in *.
  split; intros ->; simpl in Hmove.
  - destruct (Nat.eqb_spec i 0) as [-> | Hi].
    + now injection Hmove as <- <- <-.
    + destruct (Poa.or_else fork v) as [f|]; [|discriminate]. simpl in Hmove.
      destruct (Poa.thread_bases i sequence i f p) as [[i1 f1] p1] eqn:ET.
      injection Hmove as <- <- <-.
      apply (thread_bases_grows sequence) in ET as [-> _]; lia.
  - destruct (Nat.eqb_spec i 0); [discriminate|].
    destruct (Poa.or_else fork v) as [f|]; [|discriminate]. simpl in Hmove.
    injection Hmove as <- <- <-. lia.
Qed.

(** The measure that every iteration but the last lowers. *)
Lemma tb_body_measure (st st' : Poa.TBState (F:=F)) :
  TBInv p0 st ->
  Poa.tb_body sequence cols alignMode st = Some st' ->
  let mu := fun s : Poa.TBState (F:=F) =>
    (if Poa.tb_u s =? Poa.exitVertex_ p0 then length l + 1 else 0)
    + vertex_rank l (Poa.tb_u s) + Poa.tb_i s in
  ((Poa.tb_u st' =? Poa.enterVertex_ (Poa.tb_graph st')) && (Poa.tb_i st' =? 0) = true)
  \/ mu st' < mu st.
Proof.
  intros Hst Hbody.
  pose proof (tb_body_inv p0 sequence cols alignMode st st' Hinv0 Hwf Hst Hbody)
    as (_ & Hen' & _).
  unfold Poa.tb_body in Hbody.
  destruct (cols !! Poa.tb_u st) as [curCol|] eqn:Ecol; [|discriminate].
  simpl in Hbody.
  destruct (Poa.PreviousVertex curCol !! Poa.tb_i st) as [prevVertex|] eqn:Epv;
    [|discriminate].
  simpl in Hbody.
  destruct (Poa.ReachingMove curCol !! Poa.tb_i st) as [move|] eqn:Emv; [|discriminate].
  simpl in Hbody.
  destruct (Poa.tb_move sequence cols alignMode st prevVertex move)
    as [[[p' i'] fork']|] eqn:Em; [|discriminate].
  simpl in Hbody.
  destruct prevVertex as [pv|]; [|discriminate].
  simpl in Hbody. injection Hbody as <-. simpl in *.
  pose proof (Hwf _ _ _ _ _ Ecol Emv Epv) as Hok.
  destruct (tb_move_i _ _ _ _ _ _ Em) as (Hle & Hstart & Hextra).
  pose proof (vertex_rank_le l pv) as Hrl.
  assert (Hpred : (pv, Poa.tb_u st) ∈ Poa.edges (Poa.g_ p0) ->
            (if pv =? Poa.exitVertex_ p0 then length l + 1 else 0)
            + vertex_rank l pv + i'
            < (if Poa.tb_u st =? Poa.exitVertex_ p0 then length l + 1 else 0)
              + vertex_rank l (Poa.tb_u st) + Poa.tb_i st).
  { intros He. pose proof (vertex_rank_edge _ _ _ _ Htopo He) as Hr.
    destruct (Nat.eqb_spec pv (Poa.exitVertex_ p0)) as [-> | _].
    - destruct (inv_exit p0 Hinv0 _ He).
    - destruct (Poa.tb_u st =? Poa.exitVertex_ p0); lia. }
  destruct move; simpl in Hok.
  - right. simpl in Em. discriminate Em.
  - left. rewrite (Hstart eq_refl), Hok, Hen', Nat.eqb_refl. reflexivity.
  - right. destruct Hok as [Hpv Hne].
    rewrite (Hend _ _ _ Ecol Emv), Nat.eqb_refl.
    destruct (Nat.eqb_spec pv (Poa.exitVertex_ p0)); [contradiction|].
    pose proof (vertex_rank_le l (Poa.exitVertex_ p0)). lia.
  - right. auto.
  - right. auto.
  - right. auto.
  - right. subst pv. pose proof (Hextra eq_refl). lia.
Qed.

Lemma tb_iter_inv (n : nat) :
  forall st st' : Poa.TBState (F:=F),
    TBInv p0 st ->
    tb_iter n sequence cols alignMode st = Some st' ->
    TBInv p0 st'
    /\ n <= (if Poa.tb_u st =? Poa.exitVertex_ p0 then length l + 1 else 0)
            + vertex_rank l (Poa.tb_u st) + Poa.tb_i st + 1.
Proof.
  induction n as [|n IH]; intros st st' Hst Hit; simpl in Hit.
  - injection Hit as <-. split; [exact Hst | lia].
  - destruct ((Poa.tb_u st =? Poa.enterVertex_ (Poa.tb_graph st)) && (Poa.tb_i st =? 0));
      [discriminate|].
    destruct (Poa.tb_body sequence cols alignMode st) as [st1|] eqn:Eb; [|discriminate].
    pose proof (tb_body_inv p0 sequence cols alignMode st st1 Hinv0 Hwf Hst Eb) as Hst1.
    destruct (IH st1 st' Hst1 Hit) as [Hst' Hn]. split; [exact Hst'|].
    destruct (tb_body_measure st st1 Hst Eb) as [Hterm | Hmu].
    + destruct n as [|n]; [lia|]. simpl in Hit. rewrite Hterm in Hit. discriminate Hit.
    + cbv beta in Hmu. lia.
Qed.

Lemma tb_loop_None (fuel : nat) :
  forall st : Poa.TBState (F:=F),
    Poa.tb_loop fuel sequence cols alignMode st = None ->
    (exists n st', n <= fuel
        /\ tb_iter n sequence cols alignMode st = Some st'
        /\ (Poa.tb_u st' =? Poa.enterVertex_ (Poa.tb_graph st')) && (Poa.tb_i st' =? 0)
           = false
        /\ Poa.tb_body sequence cols alignMode st' = None)
    \/ (exists st', tb_iter (S fuel) sequence cols alignMode st = Some st').
Proof.
  induction fuel as [|fuel IH]; intros st Hloop; simpl in Hloop.
  - destruct ((Poa.tb_u st =? Poa.enterVertex_ (Poa.tb_graph st)) && (Poa.tb_i st =? 0))
      eqn:Et; [discriminate|].
    destruct (Poa.tb_body sequence cols alignMode st) as [st1|] eqn:Eb.
    + right. exists st1. simpl. now rewrite Et, Eb.
    + left. exists 0, st. auto.
  - destruct ((Poa.tb_u st =? Poa.enterVertex_ (Poa.tb_graph st)) && (Poa.tb_i st =? 0))
      eqn:Et; [discriminate|].
    destruct (Poa.tb_body sequence cols alignMode st) as [st1|] eqn:Eb.
    + simpl in Hloop.
      destruct (IH st1 Hloop) as [(n & st' & Hn & Hit & Hnt & Hb) | (st' & Hit)].
      * left. exists (S n), st'. split; [lia|]. split; [|auto].
        simpl. now rewrite Et, Eb.
      * right. exists st'. change (tb_iter (S (S fuel)) sequence cols alignMode st)
          with (if (Poa.tb_u st =? Poa.enterVertex_ (Poa.tb_graph st))
                   && (Poa.tb_i st =? 0)
                then None
                else match Poa.tb_body sequence cols alignMode st with
                     | Some st' => tb_iter (S fuel) sequence cols alignMode st'
                     | None => None
                     end).
        now rewrite Et, Eb.
    + left. exists 0, st. split; [lia|]. auto.
Qed.

End Iterations.

(** X20. The traceback loop of [tracebackAndThread] terminates: on a graph
    that satisfies the structural invariants and has a topological order
    [l], along alignment columns that name graph predecessors and hold an
    [EndMove] in the exit column only, the loop body runs at most
    [2 * |l| + |read| + 2] times.  With more fuel than that, the model of
    the loop gives no result only when an iteration cannot be completed
    (a missing column or row, an invalid move, an edge to the null
    vertex), never for lack of fuel. *)
Theorem tracebackAndThread_iterations {F : Type} {fo : Poa.FloatOps F}
    (sequence : str) (cols : gmap Poa.VD (Poa.AlignmentColumn (F:=F)))
    (alignMode : Align.AlignMode) (p : Poa.PoaGraphImpl (F:=F)) (l : list Poa.VD) :
  PoaInv p -> wf_columns p cols -> end_at_exit p cols ->
  topological_order (Poa.g_ p) l ->
  let st0 := Poa.mkTB p (length sequence) (Poa.exitVertex_ p) None None in
  let bound := 2 * length l + length sequence + 2 in
  (forall n st, tb_iter n sequence cols alignMode st0 = Some st -> n <= bound)
  /\ (forall fuel, bound <= fuel ->
        Poa.tb_loop fuel sequence cols alignMode st0 = None ->
        exists n st,
          tb_iter n sequence cols alignMode st0 = Some st
          /\ Poa.tb_body sequence cols alignMode st = None).
Proof.
  intros Hinv Hwf Hend Htopo st0 bound.
  assert (Hst0 : TBInv p st0).
  { unfold TBInv, st0. simpl. split; [exact Hinv|]. repeat split; auto.
    apply (inv_exit_lt p Hinv). }
  assert (Hbound : forall n st, tb_iter n sequence cols alignMode st0 = Some st ->
                                n <= bound).
  { intros n st Hit.
    destruct (tb_iter_inv sequence cols alignMode p l Hinv Hwf Hend Htopo n st0 st
                Hst0 Hit) as [_ Hn].
    unfold st0 in Hn. simpl in Hn. rewrite Nat.eqb_refl in Hn.
    pose proof (vertex_rank_le l (Poa.exitVertex_ p)). unfold bound. lia. }
  split; [exact Hbound|].
  intros fuel Hfuel Hloop.
  destruct (tb_loop_None sequence cols alignMode fuel st0 Hloop)
    as [(n & st & _ & Hit & _ & Hb) | (st & Hit)]; [eauto|].
  apply Hbound in Hit. lia.
Qed.

Lemma columns_TGG_end_at_exit :
  end_at_exit (thread_first "GGG") (list_to_map columns_TGG).
Proof.
  intros u col i Hu Hm. apply elem_of_list_to_map_2 in Hu.
  repeat (apply elem_of_cons in Hu as [Hu|Hu];
          [injection Hu as -> ->;
           first [ vm_compute; reflexivity
                 | do 8 (destruct i as [|i]; [vm_compute in Hm; discriminate Hm|]);
                   vm_compute in Hm; discriminate Hm ]|]).
  inversion Hu.
Qed.

Lemma tracebackAndThread_iterations_witness :
  let st0 := Poa.mkTB (thread_first "GGG") 3
               (Poa.exitVertex_ (thread_first "GGG")) None None in
  let bound := 2 * length (dfs_topological_sort (Poa.g_ (thread_first "GGG"))) + 3 + 2 in
  (forall n st,
     tb_iter n (list_ascii_of_string "TGG") (list_to_map columns_TGG) Align.GLOBAL st0
     = Some st -> n <= bound)
  /\ (forall fuel, bound <= fuel ->
        Poa.tb_loop fuel (list_ascii_of_string "TGG") (list_to_map columns_TGG)
          Align.GLOBAL st0 = None ->
        exists n st,
          tb_iter n (list_ascii_of_string "TGG") (list_to_map columns_TGG)
            Align.GLOBAL st0 = Some st
          /\ Poa.tb_body (list_ascii_of_string "TGG") (list_to_map columns_TGG)
               Align.GLOBAL st = None).
Proof.
  apply (tracebackAndThread_iterations (list_ascii_of_string "TGG")
           (list_to_map columns_TGG) Align.GLOBAL (thread_first "GGG")
           (dfs_topological_sort (Poa.g_ (thread_first "GGG")))).
  - apply (threadFirstRead_inv dfs_topological_sort (list_ascii_of_string "GGG")
             Poa.PoaGraphImpl_new).
    + apply PoaGraphImpl_new_inv.
    + apply (default_succeeded Poa.PoaGraphImpl_new
               (Poa.threadFirstRead dfs_topological_sort (list_ascii_of_string "GGG")
                  Poa.PoaGraphImpl_new)).
      vm_compute. reflexivity.
  - apply columns_TGG_wf.
  - apply columns_TGG_end_at_exit.
  - apply topological_orderb_sound. vm_compute. reflexivity.
Defined.
